(** * indexcov: depth of coverage from bam indexes

    A shallow embedding of [indexcov/indexcov.go] (package indexcov of
    goleft) and the properties of its numerical core: the median tile size,
    the normalized depth, the slot histogram and its ROC, the copy-number
    estimate, the bin counter, the quantized matrix rows and the inferred sex
    column of the pedigree file; and of what surrounds it: the virtual
    offsets, the lookup of a reference by name, the name of a sample, and
    the loop of [run] over the samples of a reference.

    Conventions of the embedding.
    - Go [int] and [int64] are 64-bit two's complement integers: values are
      [Z], and every operation that can overflow is followed by [wrap64].
    - Go [float32] and [float64] are IEEE 754 binary32 and binary64 with
      round to nearest even: values are [spec_float], operations are the ones
      of [SpecFloat] at precision 24 / 53.  Each Go operation rounds on its
      own (no fused multiply-add), as the amd64 compiler emits it.
    - A conversion of a floating-point value to an integer type truncates
      toward zero; when the value does not fit, Go leaves the result to the
      implementation: the model follows amd64, where the conversion
      instruction returns the most negative integer.
    - A slice is a [list]; a run-time panic (index out of range, explicit
      [panic]) is [None].
    - A string is the list of its bytes. *)

From Stdlib Require Import Ascii.
From Stdlib Require Import ZArith List Bool Lia Permutation Sorted.
From Stdlib Require Import Floats.SpecFloat.
Import ListNotations.
Local Open Scope Z_scope.

(** ** Machine integers *)

Definition min_int64 : Z := - 2 ^ 63.
Definition max_int64 : Z := 2 ^ 63 - 1.

(** Two's complement wrap-around of a 64-bit signed integer. *)
Definition wrap64 (z : Z) : Z := (z + 2 ^ 63) mod 2 ^ 64 - 2 ^ 63.

Definition in_int64 (z : Z) : bool := (min_int64 <=? z) && (z <=? max_int64).

(** [a + b], [a - b] on Go ints. *)
Definition int_add (a b : Z) : Z := wrap64 (a + b).
Definition int_sub (a b : Z) : Z := wrap64 (a - b).

(** [len(s)] as a Go int. *)
Definition len {A : Type} (s : list A) : Z := Z.of_nat (length s).

(** [s[i]] with the bounds check of the runtime. *)
Definition index {A : Type} (s : list A) (i : Z) : option A :=
  if i <? 0 then None else nth_error s (Z.to_nat i).

(** [s[i] = v] with the bounds check of the runtime. *)
Fixpoint set_nth {A : Type} (s : list A) (i : nat) (v : A) : option (list A) :=
  match s, i with
  | [], _ => None
  | _ :: t, O => Some (v :: t)
  | x :: t, S j => option_map (cons x) (set_nth t j v)
  end.

Definition update {A : Type} (s : list A) (i : Z) (v : A) : option (list A) :=
  if i <? 0 then None else set_nth s (Z.to_nat i) v.

(** ** Floating point *)

Definition float32 := spec_float.
Definition float64 := spec_float.

Module F32.
Definition prec : Z := 24.
Definition emax : Z := 128.
Definition add : float32 -> float32 -> float32 := SFadd prec emax.
Definition mul : float32 -> float32 -> float32 := SFmul prec emax.
Definition div : float32 -> float32 -> float32 := SFdiv prec emax.
Definition ltb : float32 -> float32 -> bool := SFltb.
Definition leb : float32 -> float32 -> bool := SFleb.
Definition eqb : float32 -> float32 -> bool := SFeqb.
(** [a > b] and [a != b] of Go. *)
Definition gtb (a b : float32) : bool := SFltb b a.
Definition neqb (a b : float32) : bool := negb (SFeqb a b).
(** [float32(z)] for an integer [z]. *)
Definition of_Z (z : Z) : float32 := binary_normalize prec emax z 0 false.
(** [float32(x)] for a [float64] [x]. *)
Definition of_f64 (x : float64) : float32 :=
  match x with
  | S754_finite s m e => binary_round prec emax s m e
  | _ => x
  end.
(** The [float32] nearest to the decimal constant [n / d]. *)
Definition const (n d : Z) : float32 := div (of_Z n) (of_Z d).
Definition valid (x : float32) : bool := valid_binary prec emax x.
End F32.

Module F64.
Definition prec : Z := 53.
Definition emax : Z := 1024.
Definition add : float64 -> float64 -> float64 := SFadd prec emax.
Definition mul : float64 -> float64 -> float64 := SFmul prec emax.
Definition div : float64 -> float64 -> float64 := SFdiv prec emax.
Definition ltb : float64 -> float64 -> bool := SFltb.
Definition leb : float64 -> float64 -> bool := SFleb.
Definition eqb : float64 -> float64 -> bool := SFeqb.
(** [float64(z)] for an integer [z]. *)
Definition of_Z (z : Z) : float64 := binary_normalize prec emax z 0 false.
(** [float64(x)] for a [float32] [x]: exact. *)
Definition of_f32 (x : float32) : float64 :=
  match x with
  | S754_finite s m e => binary_round prec emax s m e
  | _ => x
  end.
Definition const (n d : Z) : float64 := div (of_Z n) (of_Z d).
Definition valid (x : float64) : bool := valid_binary prec emax x.
End F64.

(** Truncation toward zero of a finite value; [None] for an infinity or a
    NaN. *)
Definition trunc (x : spec_float) : option Z :=
  match x with
  | S754_zero _ => Some 0
  | S754_finite s m e => Some (cond_Zopp s (Z.shiftl (Zpos m) e))
  | S754_infinity _ => None
  | S754_nan => None
  end.

(** [int(x)] for a float [x] (amd64: a value that does not fit, an infinity
    or a NaN converts to the most negative integer). *)
Definition int_of_float (x : spec_float) : Z :=
  match trunc x with
  | Some z => if in_int64 z then z else min_int64
  | None => min_int64
  end.

(** [uint8(x)] for a float [x] (amd64: converted to a 32-bit integer, of
    which the low byte is kept). *)
Definition uint8_of_float (x : spec_float) : Z :=
  let i32 := match trunc x with
             | Some z => if (- 2 ^ 31 <=? z) && (z <? 2 ^ 31) then z else - 2 ^ 31
             | None => - 2 ^ 31
             end in
  i32 mod 256.

(** ** Specification of the rounding

    [SpecFloat] rounds through a record of a mantissa, a round bit and a
    sticky bit.  The definitions below describe the same rounding on
    integers: a non-negative rational [N / D] is located by its sticky
    quotient [K N D], twice its integer part plus one when a fractional part
    remains, and the code of a value in units of a quarter is rounded to
    nearest, ties to even, by [rne]. *)

(** Sticky quotient. *)
Definition K (N D : Z) : Z := 2 * (N / D) + (if N mod D =? 0 then 0 else 1).

Definition loc_code (l : location) : Z :=
  match l with
  | loc_Exact => 0
  | loc_Inexact Lt => 1
  | loc_Inexact Eq => 2
  | loc_Inexact Gt => 3
  end.

Definition rec_code (r : shr_record) : Z :=
  4 * shr_m r + 2 * Z.b2z (shr_r r) + Z.b2z (shr_s r).

(** Round to nearest, ties to even, of a code [4 * m + j]. *)
Definition rne (c : Z) : Z :=
  let m := c / 4 in
  let j := c mod 4 in
  if j <=? 1 then m
  else if j =? 2 then (if Z.even m then m else m + 1)
  else m + 1.

(** Order of the dyadic numbers [m1 * 2 ^ e1] and [m2 * 2 ^ e2]. *)
Definition dle (m1 e1 m2 e2 : Z) : Prop :=
  m1 * 2 ^ (e1 - Z.min e1 e2) <= m2 * 2 ^ (e2 - Z.min e1 e2).

(** The float of sign [s] whose mantissa is the rounding of the code [c] at
    exponent [E]. *)
Definition rnd_code (prec emax : Z) (s : bool) (c E : Z) : spec_float :=
  let M := rne c in
  if M =? 0 then S754_zero s
  else if M =? 2 ^ prec then
    if E + 1 <=? emax - prec then S754_finite s (Z.to_pos (2 ^ (prec - 1))) (E + 1)
    else S754_infinity s
  else if E <=? emax - prec then S754_finite s (Z.to_pos M) E
  else S754_infinity s.

(** The rounding of the rational [N / D * 2 ^ e]. *)
Definition Rq (prec emax : Z) (s : bool) (N D e : Z) : spec_float :=
  let E := fexp prec emax (Zdigits2 (N / D) + e) in
  rnd_code prec emax s (K (2 * N) (D * 2 ^ (E - e))) E.

(** Non-negative values: zeros, positive finite numbers, [+oo]. *)
Definition is_nonneg (x : spec_float) : bool :=
  match x with
  | S754_zero _ => true
  | S754_finite false _ _ => true
  | S754_infinity false => true
  | _ => false
  end.

(** Non-negative finite values in canonical form. *)
Definition nnf (prec emax : Z) (x : spec_float) : bool :=
  match x with
  | S754_zero _ => true
  | S754_finite false m e => bounded prec emax m e
  | _ => false
  end.

(** Exponent chosen by the division. *)
Definition div_exp (prec emax : Z) (mx my : positive) (ex ey : Z) : Z :=
  Z.min (fexp prec emax (Zpos (digits2_pos mx) + ex - (Zpos (digits2_pos my) + ey)))
        (ex - ey).

(** The quotient of [x] by [my * 2 ^ ey] does not underflow. *)
Definition div_normal (prec emax : Z) (x : spec_float) (my : positive) (ey : Z) : Prop :=
  match x with
  | S754_finite _ mx ex =>
      emin prec emax + prec <= Zpos (digits2_pos mx) + ex - (Zpos (digits2_pos my) + ey)
  | _ => True
  end.

(** The greatest canonical value below the positive canonical value
    [m * 2 ^ e]. *)
Definition pred_pos (prec : Z) (m : positive) (e : Z) : spec_float :=
  if Zpos m =? 2 ^ (prec - 1)
  then S754_finite false (Z.to_pos (2 ^ prec - 1)) (e - 1)
  else S754_finite false (Z.to_pos (Zpos m - 1)) e.

(** ** sort.Slice *)

Section Sort.
Context {A : Type}.
Variable less : A -> A -> bool.

Fixpoint insert_by (x : A) (l : list A) : list A :=
  match l with
  | [] => [x]
  | y :: t => if less x y then x :: y :: t else y :: insert_by x t
  end.

(** The result of [sort.Slice(s, less)].  [sort.Slice] is not stable; for
    a [less] that is a strict total order on the elements there is one
    sorted arrangement, which is what this insertion sort returns.  On
    floats with a NaN among them [<] is not such an order: what
    [sort.Slice] leaves then depends on its algorithm and is not what this
    definition gives, so the properties that use the order exclude NaN. *)
Definition sort_Slice (s : list A) : list A := fold_right insert_by [] s.
End Sort.

(** ** Constants of the package *)

(** [var Ploidy = 2]. *)
Definition Ploidy : Z := 2.

(** [var MaxCN = float32(6)]. *)
Definition MaxCN : float32 := F32.of_Z 6.

(** Modelled from the spec: the constant [TileWidth] is declared in a file of
    the package that is not under src/; the spec gives T = 16384, and [run]
    writes the same number as a literal. *)
Definition TileWidth : Z := 16384.

(** [const slots = 70]. *)
Definition slots : Z := 70.

(** [const slotsMid = float64(2) / float64(3)]. *)
Definition slotsMid : float64 := F64.div (F64.of_Z 2) (F64.of_Z 3).

(** ** Index *)

(** Modelled from the spec: [bam.Index] and [getRefs] are not under src/; an
    index is represented by the tile vectors that [getRefs] lowers it to, one
    vector of virtual offsets per reference (RefTiles). *)
Definition BamIndex := list (list Z).
Definition getRefs (b : BamIndex) : list (list Z) := b.

Record Index := mkIndex {
  bai : option BamIndex;
  medianSizePerTile : float64;
  refs : list (list Z)
}.

(** The inner loop of [init]: [for i, iv := range ref[1:]] appends
    [iv - ref[i]]. *)
Definition ref_sizes (ref : list Z) : list Z :=
  if len ref <? 2 then []
  else map (fun p => int_sub (fst p) (snd p)) (combine (tl ref) ref).

(** The outer loop of [init]: [k] runs over [0 .. len(refs)-2]. *)
Definition tile_sizes (refs : list (list Z)) : list Z :=
  flat_map ref_sizes (firstn (length refs - 1) refs).

(** [for ; i < len(sizes) && sizes[i] == 0; i++ {}]; [fuel] bounds the number
    of iterations. *)
Fixpoint skip_zeros (sizes : list Z) (i fuel : nat) : nat :=
  match fuel with
  | O => i
  | S fuel' =>
      match nth_error sizes i with
      | Some v => if v =? 0 then skip_zeros sizes (S i) fuel' else i
      | None => i
      end
  end.

(** The median of [init], as the integer that is converted to
    [medianSizePerTile]; [None] when an index is out of range. *)
Definition median_size (unsorted : list Z) : option Z :=
  let sizes := sort_Slice Z.ltb unsorted in
  match nth_error sizes (length sizes / 2) with
  | None => None
  | Some m =>
      if F64.eqb (F64.of_Z m) (S754_zero false) then
        let i := skip_zeros sizes (length sizes / 2) (length sizes) in
        let sizes' := skipn i sizes in
        nth_error sizes' (length sizes' / 2)
      else Some m
  end.

(** [func (x *Index) init()]. *)
Definition init (x : Index) : option Index :=
  match bai x with
  | None => None
  | Some b =>
      let refs := getRefs b in
      match median_size (tile_sizes refs) with
      | None => None
      | Some m => Some (mkIndex None (F64.of_Z m) refs)
      end
  end.

(** The body of the loop of [NormalizedDepth]:
    [float32(float64(ref[si+i+1]-o) / x.medianSizePerTile)], replaced by
    [MaxCN] when greater. *)
Definition tile_depth (median : float64) (next o : Z) : float32 :=
  let d := F32.of_f64 (F64.div (F64.of_Z (int_sub next o)) median) in
  if F32.gtb d MaxCN then MaxCN else d.

(** [for i, o := range ref[si:ei]]: [i] counts from [0], and the entry read
    next to [o] is [ref[si+i+1]]. *)
Fixpoint depth_loop (median : float64) (ref : list Z) (si : Z) (i : Z)
    (window : list Z) : option (list float32) :=
  match window with
  | [] => Some []
  | o :: rest =>
      match index ref (si + i + 1) with
      | None => None
      | Some next =>
          option_map (cons (tile_depth median next o))
                     (depth_loop median ref si (i + 1) rest)
      end
  end.

(** [ref[si:ei]]: panics unless [0 <= si <= ei <= len(ref)]. *)
Definition slice {A : Type} (s : list A) (lo hi : Z) : option (list A) :=
  if (0 <=? lo) && (lo <=? hi) && (hi <=? len s)
  then Some (firstn (Z.to_nat (hi - lo)) (skipn (Z.to_nat lo) s))
  else None.

(** [if x.medianSizePerTile == 0.0 { x.init() }], the first statement of
    [NormalizedDepth]. *)
Definition ensure_init (x : Index) : option Index :=
  if F64.eqb (medianSizePerTile x) (S754_zero false) then init x else Some x.

(** [func (x *Index) NormalizedDepth(refID, start, end int) []float32]: the
    index after the call and the slice returned. *)
Definition NormalizedDepth (x : Index) (refID start end_ : Z)
    : option (Index * list float32) :=
  match ensure_init x with
  | None => None
  | Some x' =>
      match index (refs x') refID with
      | None => None
      | Some ref =>
          let si := Z.quot start TileWidth in
          let ei := Z.quot end_ TileWidth in
          let ei := if (end_ =? 0) || (len ref <=? ei) then len ref - 1 else ei in
          if ei <=? si then Some (x', [])
          else
            match slice ref si ei with
            | None => None
            | Some window =>
                option_map (pair x') (depth_loop (medianSizePerTile x') ref si 0 window)
            end
      end
  end.

(** ** Histogram and ROC *)

(** [func tint(f float32) int]. *)
Definition tint (f : float32) : Z :=
  let v := int_of_float f in
  if v <? slots then v else slots - 1.

(** [slots * float32(slotsMid)], a [float32] constant. *)
Definition slot_scale : float32 := F32.mul (F32.of_Z slots) (F32.of_f64 slotsMid).

Definition half32 : float32 := F32.const 1 2.
Definition half64 : float64 := F64.const 1 2.

(** The index [tint(d*(slots*float32(slotsMid))+0.5)]. *)
Definition slot_of (d : float32) : Z :=
  tint (F32.add (F32.mul d slot_scale) half32).

(** [counts[i]++]. *)
Definition incr (counts : list Z) (i : Z) : option (list Z) :=
  match index counts i with
  | None => None
  | Some c => update counts i (int_add c 1)
  end.

Fixpoint count_depths (depths : list float32) (counts : list Z) : option (list Z) :=
  match depths with
  | [] => Some counts
  | d :: rest =>
      match incr counts (slot_of d) with
      | None => None
      | Some counts' => count_depths rest counts'
      end
  end.

(** [func CountsAtDepth(depths []float32, counts []int)]: the contents of
    [counts] after the call. *)
Definition CountsAtDepth (depths : list float32) (counts : list Z) : option (list Z) :=
  if negb (len counts =? slots) then None
  else count_depths depths counts.

(** [totals[i] = totals[i+1] + counts[i]], filled from the last index down. *)
Fixpoint totals_of (counts : list Z) : list Z :=
  match counts with
  | [] => []
  | c :: rest =>
      match totals_of rest with
      | [] => [c]
      | t :: ts => int_add t c :: t :: ts
      end
  end.

(** [func CountsROC(counts []int) []float32]. *)
Definition CountsROC (counts : list Z) : option (list float32) :=
  match totals_of counts with
  | [] => None
  | t0 :: ts =>
      let max := F32.of_Z t0 in
      Some (map (fun t => F32.div (F32.of_Z t) max) (t0 :: ts))
  end.

(** [func getROCs(counts [][]int) [][]float32]. *)
Fixpoint getROCs (counts : list (list Z)) : option (list (list float32)) :=
  match counts with
  | [] => Some []
  | c :: rest =>
      match CountsROC c, getROCs rest with
      | Some r, Some rs => Some (r :: rs)
      | _, _ => None
      end
  end.

(** ** Copy number *)

(** The loop body of [GetCN] for the depths [d] of one sample: the value
    appended to [meds]; [None] when the index into [tmp] is out of range. *)
Definition sample_CN (d : list float32) : option float64 :=
  let tmp := filter (fun dp => F32.neqb dp (S754_zero false)) d in
  if 0 <? len tmp then
    let tmp := sort_Slice F32.ltb tmp in
    let mid := int_of_float (F64.mul (F64.of_Z (len tmp)) half64) in
    match index tmp mid with
    | Some v => Some (F64.of_f32 (F32.mul (F32.of_Z Ploidy) v))
    | None => None
    end
  else Some (F64.of_Z (-1)).

(** [func GetCN(depths [][]float32) []float64]. *)
Fixpoint GetCN (depths : list (list float32)) : option (list float64) :=
  match depths with
  | [] => Some []
  | d :: rest =>
      match sample_CN d with
      | None => None
      | Some med => option_map (cons med) (GetCN rest)
      end
  end.

(** ** Bin counter *)

Record counter := mkCounter {
  out : Z;
  low : Z;
  hi : Z;
  in_ : Z
}.

Definition lo_bound : float32 := F32.const 85 100.
Definition hi_bound : float32 := F32.const 115 100.
Definition low_bound : float32 := F32.const 15 100.

(** One iteration of the loop of [count]. *)
Definition count1 (c : counter) (d : float32) : counter :=
  if F32.ltb d lo_bound || F32.gtb d hi_bound then
    let c := mkCounter (int_add (out c) 1) (low c) (hi c) (in_ c) in
    if F32.gtb d hi_bound then mkCounter (out c) (low c) (int_add (hi c) 1) (in_ c)
    else if F32.ltb d low_bound then mkCounter (out c) (int_add (low c) 1) (hi c) (in_ c)
    else c
  else mkCounter (out c) (low c) (hi c) (int_add (in_ c) 1).

(** [func (c *counter) count(depths []float32, n int)]. *)
Definition count (c : counter) (depths : list float32) (n : Z) : counter :=
  let c := fold_left count1 depths c in
  let i := len depths in
  mkCounter (int_add (out c) (int_sub n i)) (int_add (low c) (int_sub n i)) (hi c) (in_ c).

(** ** Matrix rows and the pedigree sex column *)

(** [uint8(65535/MaxCN*d+0.5)], the entry appended to [pca8[k]] in [run]. *)
Definition quantize (d : float32) : Z :=
  uint8_of_float (F32.add (F32.mul (F32.div (F32.of_Z 65535) MaxCN) d) half32).

(** The two loops of [run] that extend the row of one sample for a non-sex
    reference: the quantized depths, then zeros up to [longest]. *)
Definition extend_row (row : list Z) (depths : list float32) (longest : Z) : list Z :=
  row ++ map quantize depths ++ repeat 0 (Z.to_nat (longest - len depths)).

(** [inferred := int(0.5 + sexes[keys[0]][i])] of [writeIndex]. *)
Definition inferred_sex (cn : float64) : Z :=
  int_of_float (F64.add half64 cn).

(** The first six columns of a row of the pedigree file,
    ["unknown\t%s\t-9\t-9\t%d\t-9\t"]. *)
Record ped_row := mkPed {
  family_id : unit;
  sample_id : nat;
  paternal_id : Z;
  maternal_id : Z;
  sex : Z;
  phenotype : Z
}.

(** The row of sample [i], whose copy number on the first sex chromosome is
    [cns[i]]. *)
Definition ped_row_of (cns : list float64) (i : nat) : option ped_row :=
  match nth_error cns i with
  | None => None
  | Some cn => Some (mkPed tt i (-9) (-9) (inferred_sex cn) (-9))
  end.

(** ** Order of [SFcompare] *)

Definition is_nan (x : spec_float) : bool :=
  match x with S754_nan => true | _ => false end.

(** The rank of a non-NaN value in the order of [SFcompare]. *)
Definition rank (x : spec_float) : Z * (Z * Z) :=
  match x with
  | S754_nan => (0, (0, 0))
  | S754_infinity true => (-2, (0, 0))
  | S754_infinity false => (2, (0, 0))
  | S754_zero _ => (0, (0, 0))
  | S754_finite true m e => (-1, (- e, - Zpos m))
  | S754_finite false m e => (1, (e, Zpos m))
  end.

Definition lex_compare (a b : Z * (Z * Z)) : comparison :=
  match fst a ?= fst b with
  | Eq => match fst (snd a) ?= fst (snd b) with
          | Eq => snd (snd a) ?= snd (snd b)
          | c => c
          end
  | c => c
  end.

(** ** Specification of the bin counter *)

(** The closed interval [[0.85, 1.15]]. *)
Definition in_band (d : float32) : bool :=
  F32.leb lo_bound d && F32.leb d hi_bound.

(** Number of the depths that satisfy [p]. *)
Definition count_where (p : float32 -> bool) (depths : list float32) : Z :=
  len (filter p depths).

(** The fields of a counter are Go ints. *)
Definition counter_ok (c : counter) : Prop :=
  in_int64 (out c) = true /\ in_int64 (low c) = true /\
  in_int64 (hi c) = true /\ in_int64 (in_ c) = true.

(** ** Specification of the median tile size *)

(** The consecutive differences of the references except the last, as the
    spec words them: reference [r] gives [r[i+1] - r[i]] for every [i] with
    [i + 1 < len r]. *)
Definition spec_sizes (refs : list (list Z)) : list Z :=
  flat_map (fun r => map (fun i => wrap64 (nth (S i) r 0 - nth i r 0))
                         (seq 0 (length r - 1)))
           (removelast refs).

Definition count_nonzero (l : list Z) : Z :=
  len (filter (fun v => negb (v =? 0)) l).

(** The differences greater than zero. *)
Definition positive_sizes (l : list Z) : list Z := filter (fun v => 0 <? v) l.

(** ** Specification of the normalized depth *)

(** The window that the loop of [NormalizedDepth] fills, in closed form:
    the entries are the values [tile_depth] of the code, for the tiles [i]
    in [[s, e)]. *)
Definition spec_normalized (M : float64) (ref : list Z) (start end_ : Z) : list float32 :=
  let s := start / TileWidth in
  let e := if end_ =? 0 then len ref - 1 else Z.min (end_ / TileWidth) (len ref - 1) in
  if e <=? s then []
  else map (fun i => tile_depth M (nth (S i) ref 0) (nth i ref 0))
           (seq (Z.to_nat s) (Z.to_nat (e - s))).

(** [C_max = 6] of the spec. *)
Definition C_max : float32 := F32.of_Z 6.

(** The quotient [(b - a) / M] of the spec: the difference of the two
    integers, divided by [M] in [float64], as a [float32]. *)
Definition spec_quotient (M : float64) (a b : Z) : float32 :=
  F32.of_f64 (F64.div (F64.of_Z (b - a)) M).

(** An entry clamped at [C_max]: a value above [C_max] becomes [C_max]. *)
Definition spec_clamp (v : float32) : float32 :=
  if F32.ltb C_max v then C_max else v.

(** [normalized(ref, start, end)] as the spec words it: with
    [s = floor(start / T)] and [e = min(floor(end / T), len(ref) - 1)], where
    [end = 0] stands for the end of the reference, the vector of
    [(ref[i+1] - ref[i]) / M], each entry clamped at [C_max], for [i] in
    [[s, e)]; empty when [e <= s]. *)
Definition spec_depths (M : float64) (ref : list Z) (start end_ : Z) : list float32 :=
  let s := start / TileWidth in
  let e := Z.min (if end_ =? 0 then len ref else end_ / TileWidth) (len ref - 1) in
  if e <=? s then []
  else map (fun i => spec_clamp (spec_quotient M (nth i ref 0) (nth (S i) ref 0)))
           (seq (Z.to_nat s) (Z.to_nat (e - s))).

(** ** Specification of the histogram slot *)

(** The floor of a finite value. *)
Definition floorZ (x : spec_float) : Z :=
  match x with
  | S754_finite s m e => Z.shiftl (cond_Zopp s (Zpos m)) e
  | _ => 0
  end.

(** [clamp(floor(d * (70 * 2/3) + 0.5), 0, 69)], the arithmetic being the one
    of [float32]. *)
Definition spec_slot (d : float32) : Z :=
  Z.max 0 (Z.min 69 (floorZ (F32.add (F32.mul d slot_scale) half32))).

(** A bound under which [d * (70 * 2/3) + 0.5] fits a Go int: [2 ^ 57]. *)
Definition depth_limit : float32 := F32.of_Z (2 ^ 57).

(** A depth that the histogram takes: a canonical [float32] in
    [[0, 2 ^ 57]]. *)
Definition depth_ok (d : float32) : Prop :=
  F32.valid d = true /\ F32.leb (S754_zero false) d = true /\
  F32.leb d depth_limit = true.

(** ** Specification of the ROC *)

Definition sumZ (l : list Z) : Z := fold_right Z.add 0 l.

(** The sum of the counts from slot [i] on. *)
Definition tail_sum (counts : list Z) (i : nat) : Z := sumZ (skipn i counts).

(** A histogram: counters that are not negative and whose sum is a Go
    int. *)
Definition histogram_ok (counts : list Z) : Prop :=
  Forall (fun c => 0 <= c) counts /\ sumZ counts < 2 ^ 63.

(** ** Specification of the sex column and of the matrix entries *)

(** [k - 1/2 <= x < k + 1/2]: [k] is [x] rounded to the nearest integer,
    halves going up. *)
Definition nearest_int (x : float64) (k : Z) : Prop :=
  F64.leb (F64.const (2 * k - 1) 2) x = true /\
  F64.ltb x (F64.const (2 * k + 1) 2) = true.

(** [0.5 + float64(x)] for a [float32] [x]. *)
Definition sex_value (x : float32) : float64 := F64.add half64 (F64.of_f32 x).

(** The largest copy number that [GetCN] computes from depths up to
    [MaxCN]: [Ploidy * MaxCN]. *)
Definition max_CN : float32 := F32.mul (F32.of_Z Ploidy) MaxCN.

(** What the table of the half-integers has to provide for the integer
    [k]. *)
Definition band_upper (k : Z) : Prop :=
  match F32.const (2 * k + 1) 2 with
  | S754_finite false mb eb =>
      bounded F32.prec F32.emax mb eb = true /\ -149 < eb /\
      F32.leb (S754_finite false mb eb) (F32.of_Z 13) = true /\
      trunc (sex_value (S754_finite false mb eb)) = Some (k + 1) /\
      nnf F32.prec F32.emax (pred_pos F32.prec mb eb) = true /\
      F64.ltb (F64.of_f32 (pred_pos F32.prec mb eb)) (F64.const (2 * k + 1) 2) = true
  | _ => False
  end.

Definition band_lower (k : Z) : Prop :=
  match F32.const (2 * k - 1) 2 with
  | S754_finite false ma ea =>
      bounded F32.prec F32.emax ma ea = true /\ -149 < ea /\
      F32.leb (pred_pos F32.prec ma ea) (F32.of_Z 13) = true /\
      trunc (sex_value (pred_pos F32.prec ma ea)) = Some (k - 1) /\
      nnf F32.prec F32.emax (pred_pos F32.prec ma ea) = true /\
      F64.of_f32 (S754_finite false ma ea) = F64.const (2 * k - 1) 2
  | _ => False
  end.

Definition band_facts (k : Z) : Prop :=
  band_upper k /\ (k = 0 \/ band_lower k).

(** [round(255 * d / C_max)] saturated to [[0, 255]], in [float32]. *)
Definition spec_quantize (d : float32) : Z :=
  Z.max 0 (Z.min 255
    (floorZ (F32.add (F32.div (F32.mul (F32.of_Z 255) d) MaxCN) half32))).

(** A depth as [NormalizedDepth] gives it on a monotone index: a canonical
    [float32] in [[0, MaxCN]]. *)
Definition cn_depth_ok (v : float32) : Prop :=
  F32.valid v = true /\ F32.leb (S754_zero false) v = true /\ F32.leb v MaxCN = true.

(** ** Strings and references *)

(** A Go string is a sequence of bytes. *)
Definition gostring := list ascii.

(** [a == b] on strings. *)
Fixpoint str_eqb (a b : gostring) : bool :=
  match a, b with
  | [], [] => true
  | x :: a', y :: b' => Ascii.eqb x y && str_eqb a' b'
  | _, _ => false
  end.

(** The functions of the package [strings] that the code calls, for
    separators that are not empty. *)
Module strings.

(** [strings.HasPrefix(s, prefix)]:
    [len(s) >= len(prefix) && s[:len(prefix)] == prefix]. *)
Definition HasPrefix (s prefix : gostring) : bool :=
  (length prefix <=? length s)%nat && str_eqb (firstn (length prefix) s) prefix.

(** [strings.Index(s, sep)]: the position of the first instance of [sep] in
    [s], or -1. *)
Fixpoint Index (s sep : gostring) : Z :=
  if HasPrefix s sep then 0
  else match s with
       | [] => -1
       | _ :: t => let m := Index t sep in if m <? 0 then -1 else m + 1
       end.

(** [strings.Count(s, sep)]: the number of instances of [sep] in [s] that do
    not overlap; [fuel] bounds the number of iterations. *)
Fixpoint Count_loop (fuel : nat) (s sep : gostring) : Z :=
  match fuel with
  | O => 0
  | S fuel' =>
      let m := Index s sep in
      if m <? 0 then 0
      else 1 + Count_loop fuel' (skipn (Z.to_nat m + length sep) s) sep
  end.

Definition Count (s sep : gostring) : Z := Count_loop (length s) s sep.

(** The loop of [genSplit]:
    [for i < n { m := Index(s, sep); if m < 0 { break }; a[i] = s[:m];
    s = s[m+len(sep):]; i++ }; a[i] = s]. *)
Fixpoint split_loop (fuel : nat) (s sep : gostring) (n i : Z) : list gostring :=
  match fuel with
  | O => [s]
  | S fuel' =>
      if i <? n then
        let m := Index s sep in
        if m <? 0 then [s]
        else firstn (Z.to_nat m) s ::
             split_loop fuel' (skipn (Z.to_nat m + length sep) s) sep n (i + 1)
      else [s]
  end.

(** [strings.SplitN(s, sep, n)], as [genSplit] computes it. *)
Definition SplitN (s sep : gostring) (n : Z) : list gostring :=
  if n =? 0 then []
  else
    let n := if n <? 0 then Count s sep + 1 else n in
    let n := if Z.of_nat (length s) + 1 <? n then Z.of_nat (length s) + 1 else n in
    split_loop (length s + 1) s sep (n - 1) 0.

(** [strings.Split(s, sep)]. *)
Definition Split (s sep : gostring) : list gostring := SplitN s sep (-1).

End strings.

(** The literal ["chr"]. *)
Definition chr : gostring := ["c"; "h"; "r"]%char.

(** A [*sam.Reference], of which the package reads the name, the header ID
    and the length; a nil pointer is [None]. *)
Record Reference := mkReference {
  Name : gostring;
  ID : Z;
  Len : Z
}.

(** The loop of [getRef] over the references of the header. *)
Fixpoint getRef_loop (refs : list Reference) (chrom : gostring) : option Reference :=
  match refs with
  | [] => None
  | ref :: rest =>
      if str_eqb chrom (Name ref) then Some ref
      else if strings.HasPrefix (Name ref) chr && str_eqb chrom (skipn 3 (Name ref)) then Some ref
      else getRef_loop rest chrom
  end.

(** [func getRef(b *bam.Reader, chrom string) *sam.Reference], on the
    references [b.Header().Refs()] of the reader. *)
Definition getRef (refs : list Reference) (chrom : gostring) : option Reference :=
  let chrom := if strings.HasPrefix chrom chr then skipn 3 chrom else chrom in
  getRef_loop refs chrom.

(** The references that [Main] passes to [run]: [getRef] of the chromosome
    of the command line appended to a nil slice, or the references of the
    header when no chromosome is given; [None] is the panic on
    [refs == nil].  A slice that may be nil is an [option]. *)
Definition Main_refs (Chrom : gostring) (header : option (list Reference))
    : option (list (option Reference)) :=
  let refs :=
    if negb (str_eqb Chrom [])
    then Some [getRef (match header with Some l => l | None => [] end) Chrom]
    else option_map (map Some) header in
  match refs with
  | None => None
  | Some l => Some l
  end.

(** ** Virtual offsets *)

(** A [bgzf.Offset]: [File int64], the offset of a compressed block in the
    file, and [Block uint16], the offset within the uncompressed block. *)
Record Offset := mkOffset {
  File : Z;
  Block : Z
}.

(** [func vOffset(o bgzf.Offset) int64]: [o.File<<16 | int64(o.Block)]. *)
Definition vOffset (o : Offset) : Z :=
  Z.lor (wrap64 (Z.shiftl (File o) 16)) (Block o).

(** ** Monotone indexes *)

(** The tiles of a reference as a bam index stores them: virtual offsets
    that are not negative and do not decrease. *)
Definition monotone_ref (ref : list Z) : Prop :=
  StronglySorted Z.le ref /\ Forall (fun v => 0 <= v < 2 ^ 63) ref.

(** [func zero(ints []int)]: the contents of [ints] after the call. *)
Definition zero (ints : list Z) : list Z := map (fun _ => 0) ints.

(** ** The loop of [run] over the samples *)

(** The selection of the longest sample in [run]: [longest, longesti := 0, 0]
    and then, for the depths of every sample [k] in turn,
    [if len(depths[k]) > longest { longesti = k; longest = len(depths[k]) }]. *)
Fixpoint longest_loop (depths : list (list float32)) (k longest longesti : Z) : Z * Z :=
  match depths with
  | [] => (longest, longesti)
  | d :: rest =>
      if longest <? len d then longest_loop rest (k + 1) (len d) k
      else longest_loop rest (k + 1) longest longesti
  end.

Definition longest_of (depths : list (list float32)) : Z * Z :=
  longest_loop depths 0 0 0.

(** The loop [for k := range idxs] of [run] for a reference that is not a sex
    chromosome: the row [pca8[k]] is extended by the quantized depths of
    sample [k] and by zeros up to [longest], and the counter [offs[k]] counts
    the depths of sample [k].  The slices [pca8], [offs] and [depths] have
    one entry per sample. *)
Definition non_sex_step (pca8 : list (list Z)) (offs : list counter)
    (depths : list (list float32)) : list (list Z) * list counter :=
  let longest := fst (longest_of depths) in
  (map (fun p => extend_row (fst p) (snd p) longest) (combine pca8 depths),
   map (fun p => count (fst p) (snd p) longest) (combine offs depths)).

(** What the counter of a sample satisfies once [T] bins have been counted:
    no field is negative, [hi] and [low] count bins that [out] counts too,
    and [out] and [in] together count every bin. *)
Definition counter_inv (T : Z) (c : counter) : Prop :=
  0 <= low c /\ 0 <= hi c /\ 0 <= in_ c /\ hi c + low c <= out c /\
  out c + in_ c = T /\ T <= max_int64.

(** The column [p.out] of [writeIndex]:
    [float64(cnt.out)/float64(cnt.in)]. *)
Definition p_out (c : counter) : float64 :=
  F64.div (F64.of_Z (out c)) (F64.of_Z (in_ c)).

(** ** The name of a sample *)

(** The last statements of [getShortName], reached when the header of the
    bam has no read group:
    [vs := strings.Split(b, "/"); v := vs[len(vs)-1];
     vs = strings.SplitN(v, ".", 1); return vs[len(vs)-1]]. *)
Definition short_name_of_path (b : gostring) : option gostring :=
  let vs := strings.Split b ["/"]%char in
  match index vs (len vs - 1) with
  | None => None
  | Some v =>
      let vs := strings.SplitN v ["."]%char 1 in
      index vs (len vs - 1)
  end.

(** The keys of the map [m] of [getShortName]: the values
    [rg.Get(sam.Tag{'S', 'M'})] of the read groups of the header, each
    once; a read group without the tag gives the empty string. *)
Definition sample_keys (sms : list gostring) : list gostring :=
  nodup (list_eq_dec ascii_dec) sms.

(** [func getShortName(b string) string], on the values [sms] that the read
    groups of the header of the bam [b] give for the tag SM.
    [for sm := range m { return sm }] returns the key that the iteration
    over the map yields first; Go leaves the order of that iteration open,
    and [first] is the position of that key among the keys.  Without a key
    the name is taken from the path. *)
Definition getShortName (sms : list gostring) (first : nat) (b : gostring)
    : option gostring :=
  match sample_keys sms with
  | [] => short_name_of_path b
  | k :: ks => Some (nth (first mod length (k :: ks)) (k :: ks) k)
  end.

(* ------------------------------------------------------------------ *)
(** * Properties *)

(** ** Rounding: the operations of [SpecFloat] on integers *)

Lemma digits2_pos_bounds (p : positive) :
  2 ^ (Zpos (digits2_pos p) - 1) <= Zpos p < 2 ^ Zpos (digits2_pos p).
Proof.
  induction p as [p IH | p IH |]; simpl digits2_pos.
  - rewrite Pos2Z.inj_succ.
    replace (Z.succ (Zpos (digits2_pos p)) - 1) with (Z.succ (Zpos (digits2_pos p) - 1)) by lia.
    rewrite !Z.pow_succ_r by lia. lia.
  - rewrite Pos2Z.inj_succ.
    replace (Z.succ (Zpos (digits2_pos p)) - 1) with (Z.succ (Zpos (digits2_pos p) - 1)) by lia.
    rewrite !Z.pow_succ_r by lia. lia.
  - simpl. lia.
Qed.

Lemma Zdigits2_bounds (m : Z) :
  0 < m -> 2 ^ (Zdigits2 m - 1) <= m < 2 ^ Zdigits2 m.
Proof.
  destruct m as [|p|p]; try lia. intros _. apply digits2_pos_bounds.
Qed.

Lemma Zdigits2_nonneg (m : Z) : 0 <= Zdigits2 m.
Proof. destruct m; simpl; lia. Qed.

Lemma Zdigits2_pos (m : Z) : 0 < m -> 0 < Zdigits2 m.
Proof. destruct m; simpl; lia. Qed.

Lemma Zdigits2_upper (m : Z) : 0 <= m -> m < 2 ^ Zdigits2 m.
Proof.
  intros H. destruct (Z.eq_dec m 0) as [->|]; [simpl; lia|].
  apply Zdigits2_bounds. lia.
Qed.

Lemma Zdigits2_unique (m k : Z) :
  2 ^ (k - 1) <= m < 2 ^ k -> 0 < m -> Zdigits2 m = k.
Proof.
  intros [H1 H2] Hm.
  pose proof (Zdigits2_bounds m Hm) as [B1 B2].
  pose proof (Zdigits2_pos m Hm).
  assert (0 < k).
  { destruct (Z_lt_le_dec 0 k); auto.
    assert (2 ^ k <= 2 ^ 0) by (apply Z.pow_le_mono_r; lia). simpl in *. lia. }
  destruct (Z_lt_le_dec (Zdigits2 m) k).
  - assert (2 ^ Zdigits2 m <= 2 ^ (k - 1)) by (apply Z.pow_le_mono_r; lia). lia.
  - destruct (Z_lt_le_dec k (Zdigits2 m)); [|lia].
    assert (2 ^ k <= 2 ^ (Zdigits2 m - 1)) by (apply Z.pow_le_mono_r; lia). lia.
Qed.

Lemma Zdigits2_le (a b : Z) : 0 <= a -> a <= b -> Zdigits2 a <= Zdigits2 b.
Proof.
  intros Ha Hab.
  destruct (Z.eq_dec a 0) as [->|]; [apply Zdigits2_nonneg|].
  pose proof (Zdigits2_bounds a ltac:(lia)) as [A1 A2].
  pose proof (Zdigits2_bounds b ltac:(lia)) as [B1 B2].
  destruct (Z_lt_le_dec (Zdigits2 b) (Zdigits2 a)); [|lia].
  assert (2 ^ Zdigits2 b <= 2 ^ (Zdigits2 a - 1)).
  { apply Z.pow_le_mono_r; lia. }
  lia.
Qed.

Lemma Zdigits2_mul_pow2 (m k : Z) :
  0 < m -> 0 <= k -> Zdigits2 (m * 2 ^ k) = Zdigits2 m + k.
Proof.
  intros Hm Hk.
  pose proof (Zdigits2_bounds m Hm) as [B1 B2].
  pose proof (Zdigits2_pos m Hm).
  assert (0 < 2 ^ k) by (apply Z.pow_pos_nonneg; lia).
  apply Zdigits2_unique; [|nia].
  replace (Zdigits2 m + k - 1) with ((Zdigits2 m - 1) + k) by lia.
  rewrite !Z.pow_add_r by lia. nia.
Qed.

(** Sticky quotient lemmas *)
Lemma K_nonneg N D : 0 <= N -> 0 < D -> 0 <= K N D.
Proof.
  intros. unfold K. assert (0 <= N / D) by (apply Z.div_pos; lia).
  destruct (N mod D =? 0); lia.
Qed.

Lemma K_mono N1 N2 D : 0 < D -> N1 <= N2 -> K N1 D <= K N2 D.
Proof.
  intros HD HN. unfold K.
  assert (N1 / D <= N2 / D) by (apply Z.div_le_mono; lia).
  destruct (Z.eq_dec (N1 / D) (N2 / D)) as [E|E].
  - pose proof (Z.div_mod N1 D ltac:(lia)). pose proof (Z.div_mod N2 D ltac:(lia)).
    pose proof (Z.mod_pos_bound N1 D HD). pose proof (Z.mod_pos_bound N2 D HD).
    destruct (Z.eqb_spec (N1 mod D) 0); destruct (Z.eqb_spec (N2 mod D) 0); try lia.
  - destruct (N1 mod D =? 0); destruct (N2 mod D =? 0); lia.
Qed.

Lemma K_scale N D k : 0 < D -> 0 < k -> K (N * k) (D * k) = K N D.
Proof.
  intros HD Hk. unfold K.
  rewrite Z.div_mul_cancel_r by lia.
  rewrite Z.mul_mod_distr_r by lia.
  destruct (Z.eqb_spec (N mod D) 0) as [->|E]; simpl.
  - reflexivity.
  - destruct (Z.eqb_spec (N mod D * k) 0); [nia|reflexivity].
Qed.

Lemma K_K N D k : 0 < D -> 0 < k -> K (K N D) (2 * k) = K N (D * k).
Proof.
  intros HD Hk.
  set (t := if N mod D =? 0 then 0 else 1).
  assert (Ht : 0 <= t <= 1) by (subst t; destruct (N mod D =? 0); lia).
  replace (K N D) with (2 * (N / D) + t) by reflexivity.
  unfold K.
  assert (E1 : (2 * (N / D) + t) / (2 * k) = N / (D * k)).
  { rewrite <- Z.div_div by lia.
    replace ((2 * (N / D) + t) / 2) with (N / D).
    - apply Z.div_div; lia.
    - apply Z.div_unique with (r := t); lia. }
  rewrite E1. f_equal.
  assert (E2 : (2 * (N / D) + t) mod (2 * k) = 2 * ((N / D) mod k) + t).
  { rewrite Z.rem_mul_r by lia.
    replace ((2 * (N / D) + t) / 2) with (N / D)
      by (apply Z.div_unique with (r := t); lia).
    replace ((2 * (N / D) + t) mod 2) with t
      by (apply Z.mod_unique with (q := N / D); lia).
    lia. }
  rewrite E2. rewrite (Z.rem_mul_r N D k) by lia.
  pose proof (Z.mod_pos_bound (N / D) k Hk).
  pose proof (Z.mod_pos_bound N D HD).
  subst t.
  destruct (Z.eqb_spec (N mod D) 0) as [E0|E0].
  - rewrite E0.
    destruct (Z.eqb_spec (2 * ((N / D) mod k) + 0) 0);
      destruct (Z.eqb_spec (0 + D * ((N / D) mod k)) 0); try reflexivity; nia.
  - destruct (Z.eqb_spec (2 * ((N / D) mod k) + 1) 0);
      destruct (Z.eqb_spec (N mod D + D * ((N / D) mod k)) 0); try reflexivity; nia.
Qed.

Lemma K_exact N D : 0 < D -> K (N * D) D = 2 * N.
Proof.
  intros. unfold K. rewrite Z.div_mul by lia. rewrite Z.mod_mul by lia. simpl. lia.
Qed.

Lemma K_one N : K N 1 = 2 * N.
Proof. unfold K. rewrite Z.div_1_r, Z.mod_1_r. simpl. lia. Qed.

Lemma K_half c : K c 2 = c.
Proof.
  unfold K. pose proof (Z.div_mod c 2 ltac:(lia)). pose proof (Z.mod_pos_bound c 2 ltac:(lia)).
  destruct (Z.eqb_spec (c mod 2) 0); lia.
Qed.

(** floor(K/2) *)
Lemma K_div2 N D : 0 < D -> K N D / 2 = N / D.
Proof.
  intros. unfold K.
  destruct (N mod D =? 0); symmetry.
  - apply Z.div_unique with (r := 0); lia.
  - apply Z.div_unique with (r := 1); lia.
Qed.

(** rne *)
Lemma rne_bounds c : c / 4 <= rne c <= c / 4 + 1.
Proof.
  unfold rne. destruct (c mod 4 <=? 1); [lia|].
  destruct (c mod 4 =? 2); [destruct (Z.even (c / 4)); lia | lia].
Qed.

Lemma rne_exact m : rne (4 * m) = m.
Proof.
  unfold rne. replace (4 * m) with (m * 4) by lia.
  rewrite Z.mod_mul, Z.div_mul by lia. reflexivity.
Qed.

Lemma rne_mono c1 c2 : c1 <= c2 -> rne c1 <= rne c2.
Proof.
  intros H.
  assert (c1 / 4 <= c2 / 4) by (apply Z.div_le_mono; lia).
  destruct (Z.eq_dec (c1 / 4) (c2 / 4)) as [E|E].
  - pose proof (Z.div_mod c1 4 ltac:(lia)). pose proof (Z.div_mod c2 4 ltac:(lia)).
    pose proof (Z.mod_pos_bound c1 4 ltac:(lia)). pose proof (Z.mod_pos_bound c2 4 ltac:(lia)).
    assert (c1 mod 4 <= c2 mod 4) by lia.
    unfold rne. rewrite E.
    destruct (Z.leb_spec (c1 mod 4) 1); destruct (Z.leb_spec (c2 mod 4) 1); try lia.
    + destruct (c2 mod 4 =? 2); [destruct (Z.even (c2 / 4)); lia | lia].
    + destruct (Z.eqb_spec (c1 mod 4) 2); destruct (Z.eqb_spec (c2 mod 4) 2); try lia.
      destruct (Z.even (c2 / 4)); lia.
  - pose proof (rne_bounds c1). pose proof (rne_bounds c2). lia.
Qed.

Lemma K4 m j : 0 <= j < 4 -> K (4 * m + j) 4 = 2 * m + (if j =? 0 then 0 else 1).
Proof.
  intros Hj. unfold K.
  replace ((4 * m + j) / 4) with m by (apply Z.div_unique with (r := j); lia).
  replace ((4 * m + j) mod 4) with j by (apply Z.mod_unique with (q := m); lia).
  reflexivity.
Qed.

Lemma rec_code_split (r : shr_record) :
  0 <= 2 * Z.b2z (shr_r r) + Z.b2z (shr_s r) < 4.
Proof. destruct r as [m [|] [|]]; simpl; lia. Qed.

Lemma rec_code_m (r : shr_record) : shr_m r = rec_code r / 4.
Proof.
  unfold rec_code. pose proof (rec_code_split r).
  apply Z.div_unique with (r := 2 * Z.b2z (shr_r r) + Z.b2z (shr_s r)); lia.
Qed.

Lemma rec_code_j (r : shr_record) :
  rec_code r mod 4 = 2 * Z.b2z (shr_r r) + Z.b2z (shr_s r).
Proof.
  unfold rec_code. pose proof (rec_code_split r).
  symmetry. apply Z.mod_unique with (q := shr_m r); lia.
Qed.

Lemma rec_code_of_loc m l : rec_code (shr_record_of_loc m l) = 4 * m + loc_code l.
Proof. destruct l as [|[| |]]; unfold rec_code; simpl; lia. Qed.

Lemma rne_rec (r : shr_record) :
  round_nearest_even (shr_m r) (loc_of_shr_record r) = rne (rec_code r).
Proof.
  unfold rne. rewrite <- rec_code_m, rec_code_j.
  destruct r as [m [|] [|]]; simpl; reflexivity.
Qed.

Lemma shr_1_code (r : shr_record) :
  0 <= shr_m r ->
  0 <= shr_m (shr_1 r) /\ rec_code (shr_1 r) = K (rec_code r) 4.
Proof.
  intros Hm. pose proof (rec_code_split r) as Hj.
  replace (rec_code r) with (4 * shr_m r + (2 * Z.b2z (shr_r r) + Z.b2z (shr_s r)))
    by (unfold rec_code; lia).
  rewrite K4 by exact Hj.
  destruct r as [m b s]. simpl in Hm.
  destruct m as [|[p|p|]|p]; try lia; destruct b, s; unfold rec_code; simpl;
    split; try lia.
Qed.

Lemma iter_pos_nat {A} (f : A -> A) (p : positive) (x : A) :
  iter_pos f p x = Nat.iter (Pos.to_nat p) f x.
Proof.
  revert x. induction p as [p IH|p IH|]; intros x; simpl iter_pos.
  - rewrite !IH. rewrite Pos2Nat.inj_xI.
    replace (S (2 * Pos.to_nat p))%nat with (Pos.to_nat p + (Pos.to_nat p + 1))%nat by lia.
    rewrite !Nat.iter_add. simpl. reflexivity.
  - rewrite !IH. rewrite Pos2Nat.inj_xO.
    replace (2 * Pos.to_nat p)%nat with (Pos.to_nat p + Pos.to_nat p)%nat by lia.
    rewrite Nat.iter_add. reflexivity.
  - reflexivity.
Qed.

Lemma iter_shr_1_code (n : nat) (r : shr_record) :
  0 <= shr_m r ->
  0 <= shr_m (Nat.iter n shr_1 r) /\
  rec_code (Nat.iter n shr_1 r) = K (rec_code r) (2 * 2 ^ Z.of_nat n).
Proof.
  intros Hm. induction n as [|n [IH1 IH2]].
  - simpl. split; [exact Hm|]. rewrite K_half. reflexivity.
  - rewrite Nat.iter_succ. destruct (shr_1_code _ IH1) as [H1 H2].
    split; [exact H1|]. rewrite H2, IH2.
    replace 4 with (2 * 2) by lia.
    rewrite K_K by (try apply Z.mul_pos_pos; try apply Z.pow_pos_nonneg; lia).
    f_equal. rewrite Nat2Z.inj_succ, Z.pow_succ_r by lia. lia.
Qed.

Lemma shr_code (r : shr_record) (e n : Z) :
  0 <= shr_m r -> 0 <= n ->
  let '(r', e') := shr r e n in
  e' = e + n /\ 0 <= shr_m r' /\ rec_code r' = K (rec_code r) (2 * 2 ^ n).
Proof.
  intros Hm Hn. unfold shr. destruct n as [|p|p]; try lia.
  - simpl. rewrite K_half. repeat split; lia.
  - rewrite iter_pos_nat.
    destruct (iter_shr_1_code (Pos.to_nat p) r Hm) as [H1 H2].
    rewrite positive_nat_Z in H2. repeat split; assumption.
Qed.

Lemma shr_nonpos (r : shr_record) (e n : Z) : n <= 0 -> shr r e n = (r, e).
Proof. destruct n; try lia; reflexivity. Qed.

Lemma SFleb_fin (m1 m2 : positive) (e1 e2 : Z) :
  e1 < e2 \/ (e1 = e2 /\ Zpos m1 <= Zpos m2) ->
  SFleb (S754_finite false m1 e1) (S754_finite false m2 e2) = true.
Proof.
  intros H. unfold SFleb, SFcompare.
  destruct (Z.compare_spec e1 e2) as [E|E|E]; try reflexivity; try lia.
  change (Pos.compare_cont Eq m1 m2) with (Pos.compare m1 m2).
  destruct (Pos.compare_spec m1 m2); try reflexivity; lia.
Qed.

Lemma SFleb_fin_inv (m1 m2 : positive) (e1 e2 : Z) :
  SFleb (S754_finite false m1 e1) (S754_finite false m2 e2) = true ->
  e1 < e2 \/ (e1 = e2 /\ Zpos m1 <= Zpos m2).
Proof.
  unfold SFleb, SFcompare.
  destruct (Z.compare_spec e1 e2) as [E|E|E]; try discriminate; try lia.
  change (Pos.compare_cont Eq m1 m2) with (Pos.compare m1 m2).
  destruct (Pos.compare_spec m1 m2); try discriminate; lia.
Qed.

Lemma div_pow2_lower (q d n : Z) :
  0 <= n -> n < d -> 2 ^ (d - 1) <= q -> 2 ^ (d - 1 - n) <= q / 2 ^ n.
Proof.
  intros Hn Hd Hq.
  assert (0 < 2 ^ n) by (apply Z.pow_pos_nonneg; lia).
  apply Z.div_le_lower_bound; [lia|].
  rewrite <- Z.pow_add_r by lia.
  replace (n + (d - 1 - n)) with (d - 1) by lia. exact Hq.
Qed.

Lemma iter_xO_pow (m d : positive) : Zpos (Pos.iter xO m d) = Zpos m * 2 ^ Zpos d.
Proof.
  induction d as [|d IH] using Pos.peano_ind.
  - simpl. lia.
  - rewrite Pos.iter_succ, Pos2Z.inj_xO, IH, Pos2Z.inj_succ, Z.pow_succ_r by lia. lia.
Qed.

Lemma shl_align_spec (m : positive) (e e' : Z) :
  let '(mz, ez) := shl_align m e e' in
  ez = Z.min e e' /\ Zpos mz = Zpos m * 2 ^ (e - ez).
Proof.
  unfold shl_align. destruct (e' - e) as [|d|d] eqn:Hd.
  - split; [lia|]. rewrite Z.sub_diag. simpl. lia.
  - split; [lia|]. rewrite Z.sub_diag. simpl. lia.
  - split; [lia|]. rewrite iter_xO_pow. f_equal. f_equal. lia.
Qed.

Lemma dle_scale (m1 e1 m2 e2 e0 : Z) :
  e0 <= e1 -> e0 <= e2 ->
  dle m1 e1 m2 e2 -> m1 * 2 ^ (e1 - e0) <= m2 * 2 ^ (e2 - e0).
Proof.
  unfold dle. intros H1 H2 H.
  set (e := Z.min e1 e2) in *.
  replace (e1 - e0) with ((e1 - e) + (e - e0)) by lia.
  replace (e2 - e0) with ((e2 - e) + (e - e0)) by lia.
  rewrite !Z.pow_add_r by lia.
  assert (0 < 2 ^ (e - e0)) by (apply Z.pow_pos_nonneg; lia). nia.
Qed.

Lemma dle_of_scaled (m1 e1 m2 e2 e0 : Z) :
  e0 <= e1 -> e0 <= e2 ->
  m1 * 2 ^ (e1 - e0) <= m2 * 2 ^ (e2 - e0) -> dle m1 e1 m2 e2.
Proof.
  unfold dle. intros H1 H2.
  set (e := Z.min e1 e2) in *.
  replace (e1 - e0) with ((e1 - e) + (e - e0)) by lia.
  replace (e2 - e0) with ((e2 - e) + (e - e0)) by lia.
  rewrite !Z.pow_add_r by lia.
  assert (0 < 2 ^ (e - e0)) by (apply Z.pow_pos_nonneg; lia). nia.
Qed.

Lemma shiftl_scale (m e e0 : Z) : e0 <= e -> Z.shiftl (m * 2 ^ (e - e0)) e0 = Z.shiftl m e.
Proof.
  intros H. rewrite <- Z.shiftl_mul_pow2 by lia.
  rewrite Z.shiftl_shiftl by lia. f_equal. lia.
Qed.

Lemma shiftl_mono (a b e : Z) : a <= b -> Z.shiftl a e <= Z.shiftl b e.
Proof.
  intros H. destruct (Z_le_gt_dec 0 e).
  - rewrite !Z.shiftl_mul_pow2 by lia.
    assert (0 < 2 ^ e) by (apply Z.pow_pos_nonneg; lia). nia.
  - rewrite !Z.shiftl_div_pow2 by lia.
    apply Z.div_le_mono; [apply Z.pow_pos_nonneg; lia | exact H].
Qed.

Lemma dle_shiftl (m1 e1 m2 e2 : Z) :
  dle m1 e1 m2 e2 -> Z.shiftl m1 e1 <= Z.shiftl m2 e2.
Proof.
  unfold dle. intros H.
  rewrite <- (shiftl_scale m1 e1 (Z.min e1 e2)) by lia.
  rewrite <- (shiftl_scale m2 e2 (Z.min e1 e2)) by lia.
  apply shiftl_mono. exact H.
Qed.

Section Round.
Variables prec emax : Z.
Hypothesis Hprec : 0 < prec.

Lemma fexp_ge_emin e : (emin prec emax) <= fexp prec emax e.
Proof. unfold fexp. lia. Qed.

Lemma fexp_mono e1 e2 : e1 <= e2 -> fexp prec emax e1 <= fexp prec emax e2.
Proof. unfold fexp. lia. Qed.

Lemma shr_fexp_stable M E :
  0 <= M -> M < 2 ^ prec -> (emin prec emax) <= E ->
  shr_fexp prec emax M E loc_Exact = (shr_record_of_loc M loc_Exact, E).
Proof.
  intros H0 H1 HE. unfold shr_fexp. apply shr_nonpos.
  assert (Zdigits2 M <= prec).
  { destruct (Z.eq_dec M 0) as [->|]; [simpl; lia|].
    pose proof (Zdigits2_bounds M ltac:(lia)) as [B1 B2].
    destruct (Z_lt_le_dec prec (Zdigits2 M)); [|lia].
    assert (2 ^ prec <= 2 ^ (Zdigits2 M - 1)) by (apply Z.pow_le_mono_r; lia). lia. }
  unfold fexp, emin in *. lia.
Qed.

Lemma bra_spec (s : bool) (m e : Z) (l : location) :
  0 <= m -> e <= fexp prec emax (Zdigits2 m + e) ->
  binary_round_aux prec emax s m e l =
  rnd_code prec emax s (K (4 * m + loc_code l) (2 * 2 ^ (fexp prec emax (Zdigits2 m + e) - e)))
           (fexp prec emax (Zdigits2 m + e)).
Proof.
  intros Hm He. set (E := fexp prec emax (Zdigits2 m + e)) in *.
  unfold binary_round_aux. unfold shr_fexp at 1. fold E.
  pose proof (shr_code (shr_record_of_loc m l) e (E - e)) as Hs.
  destruct (shr (shr_record_of_loc m l) e (E - e)) as [r' e'].
  destruct Hs as (He' & Hr'0 & Hr').
  { destruct l as [|[| |]]; simpl; lia. }
  { lia. }
  rewrite rec_code_of_loc in Hr'.
  replace e' with E by lia. clear He' e'.
  cbv beta iota.
  rewrite rne_rec, Hr'.
  set (c := K (4 * m + loc_code l) (2 * 2 ^ (E - e))) in *.
  assert (Hpow : 0 < 2 ^ (E - e)) by (apply Z.pow_pos_nonneg; lia).
  assert (Hc4 : c / 4 < 2 ^ prec /\ 0 <= c / 4).
  { rewrite <- Hr', <- rec_code_m. split; [|exact Hr'0].
    rewrite rec_code_m, Hr'. subst c.
    replace 4 with (2 * 2) at 2 by lia. rewrite <- Z.div_div by lia.
    rewrite K_div2 by lia.
    assert (Hj : 0 <= loc_code l < 4) by (destruct l as [|[| |]]; simpl; lia).
    rewrite Z.div_div by lia.
    replace (2 * 2 ^ (E - e) * 2) with (4 * 2 ^ (E - e)) by lia.
    rewrite <- Z.div_div by lia.
    replace ((4 * m + loc_code l) / 4) with m
      by (apply Z.div_unique with (r := loc_code l); lia).
    apply Z.div_lt_upper_bound; [lia|].
    pose proof (Zdigits2_upper m Hm) as Hd.
    assert (2 ^ Zdigits2 m <= 2 ^ (E - e) * 2 ^ prec); [|lia].
    rewrite <- Z.pow_add_r by lia.
    apply Z.pow_le_mono_r; [lia|].
    subst E. unfold fexp. lia. }
  pose proof (rne_bounds c) as HM.
  unfold rnd_code. set (M := rne c) in *.
  assert (HE : (emin prec emax) <= E) by apply fexp_ge_emin.
  destruct (Z.eqb_spec M 0) as [M0|M0].
  - rewrite M0.
    rewrite shr_fexp_stable; [reflexivity | lia | apply Z.pow_pos_nonneg; lia | lia].
  - destruct (Z.eqb_spec M (2 ^ prec)) as [Mp|Mp].
    + rewrite Mp. unfold shr_fexp.
      assert (Hd : Zdigits2 (2 ^ prec) = prec + 1).
      { apply Zdigits2_unique.
        - replace (prec + 1 - 1) with prec by lia.
          rewrite Z.pow_add_r by lia. lia.
        - apply Z.pow_pos_nonneg; lia. }
      rewrite Hd.
      replace (fexp prec emax (prec + 1 + E) - E) with 1
        by (unfold fexp, emin in *; lia).
      pose proof (shr_code (shr_record_of_loc (2 ^ prec) loc_Exact) E 1) as Hs.
      destruct (shr (shr_record_of_loc (2 ^ prec) loc_Exact) E 1) as [r2 e2].
      destruct Hs as (He2 & Hr20 & Hr2).
      { simpl. apply Z.pow_nonneg; lia. }
      { lia. }
      rewrite rec_code_of_loc in Hr2. simpl loc_code in Hr2.
      assert (Hm2 : shr_m r2 = 2 ^ (prec - 1)).
      { rewrite rec_code_m, Hr2.
        replace (4 * 2 ^ prec + 0) with ((2 * 2 ^ (prec - 1)) * (2 * 2 ^ 1)).
        - rewrite K_exact by lia.
          symmetry. apply Z.div_unique with (r := 0); lia.
        - assert (2 ^ prec = 2 * 2 ^ (prec - 1)) as ->
            by (rewrite <- Z.pow_succ_r by lia; f_equal; lia).
          change (2 ^ 1) with 2. lia. }
      rewrite Hm2, He2.
      assert (0 < 2 ^ (prec - 1)) by (apply Z.pow_pos_nonneg; lia).
      destruct (2 ^ (prec - 1)) eqn:Ep; try lia.
      reflexivity.
    + rewrite shr_fexp_stable; try lia. simpl shr_m.
      destruct M eqn:EM; try lia. reflexivity.
Qed.

Lemma bra_Rq (s : bool) (m e : Z) (l : location) (N D : Z) :
  0 <= N -> 0 < D -> 4 * m + loc_code l = K (2 * N) D ->
  e <= fexp prec emax (Zdigits2 (N / D) + e) ->
  binary_round_aux prec emax s m e l = Rq prec emax s N D e.
Proof.
  intros HN HD Hc He.
  assert (Hm : m = N / D).
  { assert (Hj : 0 <= loc_code l < 4) by (destruct l as [|[| |]]; simpl; lia).
    assert (m = (4 * m + loc_code l) / 4) as ->
      by (apply Z.div_unique with (r := loc_code l); lia).
    rewrite Hc. replace 4 with (2 * 2) by lia.
    rewrite <- Z.div_div, K_div2 by lia.
    rewrite Z.div_div by lia.
    replace (D * 2) with (2 * D) by lia.
    rewrite Z.div_mul_cancel_l by lia. reflexivity. }
  assert (0 <= m) by (rewrite Hm; apply Z.div_pos; lia).
  rewrite <- Hm in He.
  rewrite bra_spec by assumption.
  unfold Rq. rewrite <- Hm, Hc.
  rewrite K_K; [reflexivity | lia | apply Z.pow_pos_nonneg; lia].
Qed.

Lemma Rq_facts (N D e : Z) :
  0 <= N -> 0 < D ->
  let E := fexp prec emax (Zdigits2 (N / D) + e) in
  let c := K (2 * N) (D * 2 ^ (E - e)) in
  e <= E ->
  0 <= c /\ c / 4 = N / D / 2 ^ (E - e) /\ c / 4 < 2 ^ prec /\
  (emin prec emax < E -> 2 ^ (prec - 1) <= c / 4).
Proof.
  intros HN HD E c He.
  assert (Hp : 0 < 2 ^ (E - e)) by (apply Z.pow_pos_nonneg; lia).
  assert (Hq : 0 <= N / D) by (apply Z.div_pos; lia).
  assert (Hc4 : c / 4 = N / D / 2 ^ (E - e)).
  { subst c. replace 4 with (2 * 2) by lia.
    rewrite <- Z.div_div, K_div2 by nia.
    rewrite Z.div_div by nia.
    replace (D * 2 ^ (E - e) * 2) with (2 * (D * 2 ^ (E - e))) by lia.
    rewrite Z.div_mul_cancel_l by nia.
    rewrite Z.div_div by lia. reflexivity. }
  split; [apply K_nonneg; nia|]. split; [exact Hc4|]. rewrite Hc4.
  pose proof (Zdigits2_upper (N / D) Hq) as Hu.
  pose proof (Zdigits2_nonneg (N / D)) as Hd0.
  split.
  - apply Z.div_lt_upper_bound; [lia|].
    assert (2 ^ Zdigits2 (N / D) <= 2 ^ (E - e) * 2 ^ prec); [|lia].
    rewrite <- Z.pow_add_r by lia.
    apply Z.pow_le_mono_r; [lia|].
    subst E. unfold fexp. lia.
  - intros HE.
    assert (HEe : E - e = Zdigits2 (N / D) - prec)
      by (subst E; unfold fexp in *; lia).
    destruct (Z.eq_dec (N / D) 0) as [Hz|Hz].
    { rewrite Hz in HEe. simpl in HEe. lia. }
    pose proof (Zdigits2_bounds (N / D) ltac:(lia)) as [B1 _].
    rewrite HEe.
    replace (prec - 1) with (Zdigits2 (N / D) - 1 - (Zdigits2 (N / D) - prec)) by lia.
    apply div_pow2_lower; lia.
Qed.

Lemma Rq_refine (s : bool) (N D e k : Z) :
  0 < D -> D <= N -> 0 <= k ->
  e <= fexp prec emax (Zdigits2 (N / D) + e) ->
  Rq prec emax s (N * 2 ^ k) D (e - k) = Rq prec emax s N D e.
Proof.
  intros HD HN Hk He.
  assert (Hp : 0 < 2 ^ k) by (apply Z.pow_pos_nonneg; lia).
  assert (Hq : 1 <= N / D) by (apply Z.div_le_lower_bound; lia).
  assert (Hd : Zdigits2 (N * 2 ^ k / D) = Zdigits2 (N / D) + k).
  { pose proof (Zdigits2_bounds (N / D) ltac:(lia)) as [B1 B2].
    pose proof (Zdigits2_pos (N / D) ltac:(lia)).
    assert (L : N / D * 2 ^ k <= N * 2 ^ k / D).
    { apply Z.div_le_lower_bound; [lia|].
      pose proof (Z.mul_div_le N D HD). nia. }
    assert (U : N * 2 ^ k / D < (N / D + 1) * 2 ^ k).
    { apply Z.div_lt_upper_bound; [lia|].
      pose proof (Z.mul_succ_div_gt N D HD). nia. }
    apply Zdigits2_unique; [|nia].
    replace (Zdigits2 (N / D) + k - 1) with ((Zdigits2 (N / D) - 1) + k) by lia.
    rewrite !Z.pow_add_r by lia. nia. }
  unfold Rq. rewrite Hd.
  replace (Zdigits2 (N / D) + k + (e - k)) with (Zdigits2 (N / D) + e) by lia.
  set (E := fexp prec emax (Zdigits2 (N / D) + e)) in *.
  replace (E - (e - k)) with ((E - e) + k) by lia.
  rewrite Z.pow_add_r by lia.
  replace (2 * (N * 2 ^ k)) with ((2 * N) * 2 ^ k) by lia.
  replace (D * (2 ^ (E - e) * 2 ^ k)) with ((D * 2 ^ (E - e)) * 2 ^ k) by lia.
  rewrite K_scale; [reflexivity | | lia].
  apply Z.mul_pos_pos; [lia | apply Z.pow_pos_nonneg; lia].
Qed.

Lemma rnd_code_le (c1 E1 c2 E2 : Z) :
  0 <= c1 -> c1 / 4 < 2 ^ prec -> c2 / 4 < 2 ^ prec ->
  (E1 = E2 /\ c1 <= c2) \/ (E1 < E2 /\ 2 ^ (prec - 1) <= c2 / 4) ->
  SFleb (rnd_code prec emax false c1 E1) (rnd_code prec emax false c2 E2) = true.
Proof.
  intros H0 H1 H2 H.
  pose proof (rne_bounds c1) as B1. pose proof (rne_bounds c2) as B2.
  assert (0 <= c1 / 4) by (apply Z.div_pos; lia).
  assert (Hpp : 2 ^ prec = 2 * 2 ^ (prec - 1))
    by (rewrite <- Z.pow_succ_r by lia; f_equal; lia).
  assert (Hp1 : 0 < 2 ^ (prec - 1)) by (apply Z.pow_pos_nonneg; lia).
  assert (HM : rne c2 = 0 -> rne c1 = 0).
  { destruct H as [[_ Hc]|[_ Hc]]; [|lia].
    pose proof (rne_mono _ _ Hc). lia. }
  unfold rnd_code.
  destruct (Z.eqb_spec (rne c1) 0) as [Z1|Z1].
  { destruct (rne c2 =? 0); [reflexivity|].
    destruct (rne c2 =? 2 ^ prec).
    - destruct (E2 + 1 <=? emax - prec); reflexivity.
    - destruct (E2 <=? emax - prec); reflexivity. }
  destruct (Z.eqb_spec (rne c2) 0) as [Z2|Z2]; [tauto|].
  assert (HM12 : E1 = E2 -> rne c1 <= rne c2).
  { destruct H as [[_ Hc]|[Hc _]]; [|lia]. intros _. apply rne_mono; exact Hc. }
  assert (HM2 : E1 < E2 -> 2 ^ (prec - 1) <= rne c2).
  { destruct H as [[Hc _]|[_ Hc]]; lia. }
  assert (HE : E1 <= E2) by (destruct H as [[? _]|[? _]]; lia).
  assert (Hpos : forall z, 0 < z -> Zpos (Z.to_pos z) = z)
    by (intros; apply Z2Pos.id; assumption).
  destruct (Z.eqb_spec (rne c1) (2 ^ prec)) as [P1|P1];
    destruct (Z.eqb_spec (rne c2) (2 ^ prec)) as [P2|P2];
    repeat match goal with
           | |- context [?a <=? ?b] => destruct (Z.leb_spec a b)
           end; try reflexivity; try lia;
    apply SFleb_fin; rewrite ?Hpos by lia; lia.
Qed.

Lemma rnd_code_valid (s : bool) (c E : Z) :
  0 <= c -> c / 4 < 2 ^ prec -> emin prec emax <= E ->
  (emin prec emax < E -> 2 ^ (prec - 1) <= c / 4) ->
  valid_binary prec emax (rnd_code prec emax s c E) = true.
Proof.
  intros H0 H1 HE Hn.
  pose proof (rne_bounds c) as B.
  assert (0 <= c / 4) by (apply Z.div_pos; lia).
  assert (Hpp : 2 ^ prec = 2 * 2 ^ (prec - 1))
    by (rewrite <- Z.pow_succ_r by lia; f_equal; lia).
  assert (Hp1 : 0 < 2 ^ (prec - 1)) by (apply Z.pow_pos_nonneg; lia).
  unfold rnd_code.
  destruct (Z.eqb_spec (rne c) 0) as [Z1|Z1]; [reflexivity|].
  destruct (Z.eqb_spec (rne c) (2 ^ prec)) as [P1|P1].
  - destruct (Z.leb_spec (E + 1) (emax - prec)); [|reflexivity].
    simpl. unfold bounded, canonical_mantissa.
    apply andb_true_intro; split; [|apply Z.leb_le; lia].
    apply Z.eqb_eq.
    change (Zpos (digits2_pos (Z.to_pos (2 ^ (prec - 1)))))
      with (Zdigits2 (Zpos (Z.to_pos (2 ^ (prec - 1))))).
    rewrite Z2Pos.id by lia.
    rewrite (Zdigits2_unique (2 ^ (prec - 1)) prec) by lia.
    unfold fexp. lia.
  - destruct (Z.leb_spec E (emax - prec)); [|reflexivity].
    simpl. unfold bounded, canonical_mantissa.
    apply andb_true_intro; split; [|apply Z.leb_le; lia].
    apply Z.eqb_eq.
    change (Zpos (digits2_pos (Z.to_pos (rne c))))
      with (Zdigits2 (Zpos (Z.to_pos (rne c)))).
    rewrite Z2Pos.id by lia.
    pose proof (Zdigits2_bounds (rne c) ltac:(lia)) as [D1 D2].
    assert (Zdigits2 (rne c) <= prec).
    { destruct (Z_lt_le_dec prec (Zdigits2 (rne c))); [|lia].
      assert (2 ^ prec <= 2 ^ (Zdigits2 (rne c) - 1)) by (apply Z.pow_le_mono_r; lia).
      lia. }
    destruct (Z.eq_dec E (emin prec emax)) as [Em|Em].
    + unfold fexp. lia.
    + assert (prec <= Zdigits2 (rne c)).
      { destruct (Z_lt_le_dec (Zdigits2 (rne c)) prec); [|lia].
        assert (2 ^ Zdigits2 (rne c) <= 2 ^ (prec - 1)) by (apply Z.pow_le_mono_r; lia).
        specialize (Hn ltac:(lia)). lia. }
      unfold fexp. lia.
Qed.

Lemma Rq_valid (s : bool) (N D e : Z) :
  0 <= N -> 0 < D -> e <= fexp prec emax (Zdigits2 (N / D) + e) ->
  valid_binary prec emax (Rq prec emax s N D e) = true.
Proof.
  intros HN HD He.
  destruct (Rq_facts N D e HN HD He) as (F0 & _ & F1 & F2).
  unfold Rq. apply rnd_code_valid; try assumption.
  apply fexp_ge_emin.
Qed.

Lemma Rq_mono (N1 N2 D e : Z) :
  0 <= N1 -> N1 <= N2 -> 0 < D ->
  e <= fexp prec emax (Zdigits2 (N1 / D) + e) ->
  SFleb (Rq prec emax false N1 D e) (Rq prec emax false N2 D e) = true.
Proof.
  intros H0 H12 HD He.
  assert (Hq : N1 / D <= N2 / D) by (apply Z.div_le_mono; lia).
  assert (Hq0 : 0 <= N1 / D) by (apply Z.div_pos; lia).
  pose proof (Zdigits2_le _ _ Hq0 Hq) as Hd.
  assert (HE : fexp prec emax (Zdigits2 (N1 / D) + e) <=
               fexp prec emax (Zdigits2 (N2 / D) + e))
    by (apply fexp_mono; lia).
  destruct (Rq_facts N1 D e H0 HD He) as (A0 & A1 & A2 & A3).
  destruct (Rq_facts N2 D e ltac:(lia) HD ltac:(lia)) as (B0 & B1 & B2 & B3).
  unfold Rq. apply rnd_code_le; try assumption.
  destruct (Z.eq_dec (fexp prec emax (Zdigits2 (N1 / D) + e))
                     (fexp prec emax (Zdigits2 (N2 / D) + e))) as [EE|EE].
  - left. split; [exact EE|]. rewrite EE. apply K_mono; [|lia].
    apply Z.mul_pos_pos; [lia | apply Z.pow_pos_nonneg; lia].
  - right. split; [lia|]. apply B3.
    pose proof (fexp_ge_emin (Zdigits2 (N1 / D) + e)). lia.
Qed.

Lemma binary_round_Rq (s : bool) (m : positive) (e e0 : Z) :
  e0 <= e -> e0 <= fexp prec emax (Zpos (digits2_pos m) + e) ->
  binary_round prec emax s m e = Rq prec emax s (Zpos m * 2 ^ (e - e0)) 1 e0.
Proof.
  intros H1 H2. unfold binary_round.
  pose proof (shl_align_spec m e (fexp prec emax (Zpos (digits2_pos m) + e))) as Hs.
  destruct (shl_align m e (fexp prec emax (Zpos (digits2_pos m) + e))) as [mz ez].
  destruct Hs as [Hez Hmz].
  assert (Hd : Zdigits2 (Zpos mz) + ez = Zpos (digits2_pos m) + e).
  { rewrite Hmz, Zdigits2_mul_pow2 by lia.
    change (Zdigits2 (Zpos m)) with (Zpos (digits2_pos m)). lia. }
  assert (Hfine : ez <= fexp prec emax (Zdigits2 (Zpos mz / 1) + ez)).
  { rewrite Z.div_1_r, Hd. lia. }
  rewrite (bra_Rq s (Zpos mz) ez loc_Exact (Zpos mz) 1);
    [ | lia | lia | rewrite K_one; simpl; lia | exact Hfine ].
  rewrite <- (Rq_refine s (Zpos mz) 1 ez (ez - e0));
    [ | lia | lia | lia | exact Hfine ].
  f_equal; [|lia].
  rewrite Hmz, <- Z.mul_assoc, <- Z.pow_add_r by lia. f_equal. f_equal. lia.
Qed.

Lemma binary_round_mono (m1 m2 : positive) (e1 e2 : Z) :
  dle (Zpos m1) e1 (Zpos m2) e2 ->
  SFleb (binary_round prec emax false m1 e1) (binary_round prec emax false m2 e2) = true.
Proof.
  intros H.
  set (f1 := fexp prec emax (Zpos (digits2_pos m1) + e1)).
  set (f2 := fexp prec emax (Zpos (digits2_pos m2) + e2)).
  set (e0 := Z.min (Z.min e1 e2) (Z.min f1 f2)).
  rewrite (binary_round_Rq false m1 e1 e0) by (subst e0 f1; lia).
  rewrite (binary_round_Rq false m2 e2 e0) by (subst e0 f2; lia).
  assert (Hp : 0 < 2 ^ (e1 - e0)) by (apply Z.pow_pos_nonneg; lia).
  apply Rq_mono; try lia.
  - apply dle_scale; [lia | lia | exact H].
  - rewrite Z.div_1_r, Zdigits2_mul_pow2 by lia.
    change (Zdigits2 (Zpos m1)) with (Zpos (digits2_pos m1)).
    replace (Zpos (digits2_pos m1) + (e1 - e0) + e0) with (Zpos (digits2_pos m1) + e1) by lia.
    fold f1. lia.
Qed.

Lemma binary_round_valid (s : bool) (m : positive) (e : Z) :
  valid_binary prec emax (binary_round prec emax s m e) = true.
Proof.
  set (f := fexp prec emax (Zpos (digits2_pos m) + e)).
  rewrite (binary_round_Rq s m e (Z.min e f)) by (subst f; lia).
  assert (Hp : 0 < 2 ^ (e - Z.min e f)) by (apply Z.pow_pos_nonneg; lia).
  apply Rq_valid; try lia.
  rewrite Z.div_1_r, Zdigits2_mul_pow2 by lia. change (Zdigits2 (Zpos m)) with (Zpos (digits2_pos m)).
  replace (Zpos (digits2_pos m) + (e - Z.min e f) + Z.min e f)
    with (Zpos (digits2_pos m) + e) by lia.
  fold f. lia.
Qed.

Lemma bounded_digits (m : positive) (e : Z) :
  bounded prec emax m e = true ->
  fexp prec emax (Zpos (digits2_pos m) + e) = e /\ e <= emax - prec /\
  Zpos m < 2 ^ prec /\ (emin prec emax < e -> 2 ^ (prec - 1) <= Zpos m).
Proof.
  unfold bounded, canonical_mantissa. intros H.
  apply andb_prop in H. destruct H as [H1 H2].
  apply Z.eqb_eq in H1. apply Z.leb_le in H2.
  pose proof (digits2_pos_bounds m) as [B1 B2].
  split; [exact H1|]. split; [exact H2|]. split.
  - assert (2 ^ Zpos (digits2_pos m) <= 2 ^ prec); [|lia].
    apply Z.pow_le_mono_r; [lia|]. unfold fexp in H1. lia.
  - intros He.
    assert (2 ^ (prec - 1) <= 2 ^ (Zpos (digits2_pos m) - 1)); [|lia].
    apply Z.pow_le_mono_r; [lia|]. unfold fexp in H1. lia.
Qed.

Lemma binary_round_id (s : bool) (m : positive) (e : Z) :
  bounded prec emax m e = true ->
  binary_round prec emax s m e = S754_finite s m e.
Proof.
  intros Hb. destruct (bounded_digits m e Hb) as (Hc & He & Hm & _).
  rewrite (binary_round_Rq s m e e) by lia.
  rewrite Z.sub_diag. change (2 ^ 0) with 1. rewrite Z.mul_1_r.
  unfold Rq. rewrite Z.div_1_r.
  change (Zdigits2 (Zpos m)) with (Zpos (digits2_pos m)).
  rewrite Hc, Z.sub_diag. change (1 * 2 ^ 0) with 1.
  rewrite K_one. replace (2 * (2 * Zpos m)) with (4 * Zpos m) by lia.
  unfold rnd_code. rewrite rne_exact.
  destruct (Z.eqb_spec (Zpos m) 0); [lia|].
  destruct (Z.eqb_spec (Zpos m) (2 ^ prec)); [lia|].
  destruct (Z.leb_spec e (emax - prec)); [|lia].
  reflexivity.
Qed.

Lemma valid_leb_dle (m1 m2 : positive) (e1 e2 : Z) :
  bounded prec emax m1 e1 = true -> bounded prec emax m2 e2 = true ->
  SFleb (S754_finite false m1 e1) (S754_finite false m2 e2) = true ->
  dle (Zpos m1) e1 (Zpos m2) e2.
Proof.
  intros V1 V2 H. apply SFleb_fin_inv in H.
  destruct (bounded_digits m1 e1 V1) as (C1 & _ & U1 & _).
  destruct (bounded_digits m2 e2 V2) as (C2 & _ & _ & L2).
  unfold dle. destruct H as [H|[H1 H2]].
  - replace (Z.min e1 e2) with e1 by lia. rewrite Z.sub_diag. simpl (2 ^ 0).
    assert (emin prec emax <= e1) by (rewrite <- C1; apply fexp_ge_emin).
    specialize (L2 ltac:(lia)).
    assert (2 ^ 1 <= 2 ^ (e2 - e1)) by (apply Z.pow_le_mono_r; lia).
    assert (Hpp : 2 ^ prec = 2 * 2 ^ (prec - 1))
      by (rewrite <- Z.pow_succ_r by lia; f_equal; lia).
    change (2 ^ 1) with 2 in *. nia.
  - subst e2. rewrite Z.min_id, Z.sub_diag. simpl (2 ^ 0). lia.
Qed.

Lemma nnf_valid x : nnf prec emax x = true -> valid_binary prec emax x = true.
Proof. destruct x as [s|s| |[|] m e]; simpl; intros; try discriminate; auto. Qed.

Lemma nnf_nonneg x : nnf prec emax x = true -> is_nonneg x = true.
Proof. destruct x as [s|s| |[|] m e]; simpl; intros; try discriminate; auto. Qed.

Lemma rnd_code_nonneg c E : is_nonneg (rnd_code prec emax false c E) = true.
Proof.
  unfold rnd_code.
  repeat match goal with
         | |- context [if ?b then _ else _] => destruct b
         end; reflexivity.
Qed.

Lemma binary_round_nonneg (m : positive) (e : Z) :
  is_nonneg (binary_round prec emax false m e) = true.
Proof.
  rewrite (binary_round_Rq false m e
             (Z.min e (fexp prec emax (Zpos (digits2_pos m) + e)))) by lia.
  apply rnd_code_nonneg.
Qed.

Lemma SFleb_zero_nonneg s x : is_nonneg x = true -> SFleb (S754_zero s) x = true.
Proof. destruct x as [s'|[|]| |[|] m e]; simpl; intros; try discriminate; reflexivity. Qed.

Lemma SFleb_refl_nonneg x :
  is_nonneg x = true -> SFleb x x = true.
Proof.
  destruct x as [s'|[|]| |[|] m e]; simpl; intros; try discriminate; try reflexivity.
  apply SFleb_fin. right. split; lia.
Qed.

(** A non-negative canonical value below a finite one is finite. *)
Lemma nnf_below x y :
  is_nonneg x = true -> valid_binary prec emax x = true ->
  nnf prec emax y = true -> SFleb x y = true -> nnf prec emax x = true.
Proof.
  destruct x as [s|[|]| |[|] m e]; simpl; intros Hn Hv Hy Hle; try discriminate; auto.
  destruct y as [s'|[|]| |[|] m' e']; simpl in *; discriminate.
Qed.

Lemma SFleb_dle x1 x2 :
  nnf prec emax x1 = true -> nnf prec emax x2 = true -> SFleb x1 x2 = true ->
  match x1, x2 with
  | S754_finite _ m1 e1, S754_finite _ m2 e2 => dle (Zpos m1) e1 (Zpos m2) e2
  | S754_finite _ _ _, _ => False
  | _, _ => True
  end.
Proof.
  destruct x1 as [s1|s1| |[|] m1 e1]; simpl; try discriminate; auto;
    destruct x2 as [s2|s2| |[|] m2 e2]; simpl; try discriminate; auto.
  intros V1 V2 H. apply valid_leb_dle; assumption.
Qed.

(** Truncation is monotone on non-negative finite values. *)
Lemma trunc_mono x1 x2 :
  nnf prec emax x1 = true -> nnf prec emax x2 = true -> SFleb x1 x2 = true ->
  exists z1 z2, trunc x1 = Some z1 /\ trunc x2 = Some z2 /\ 0 <= z1 <= z2.
Proof.
  intros V1 V2 H. pose proof (SFleb_dle x1 x2 V1 V2 H) as Hd.
  destruct x1 as [s1|s1| |[|] m1 e1]; simpl in V1; try discriminate;
    destruct x2 as [s2|s2| |[|] m2 e2]; simpl in V2; try discriminate;
    try contradiction; simpl.
  - exists 0, 0. repeat split; lia.
  - exists 0, (Z.shiftl (Zpos m2) e2). repeat split; try lia.
    apply Z.shiftl_nonneg. lia.
  - exists (Z.shiftl (Zpos m1) e1), (Z.shiftl (Zpos m2) e2). repeat split.
    + apply Z.shiftl_nonneg. lia.
    + apply dle_shiftl. exact Hd.
Qed.

(** Multiplication by a positive normal constant. *)
Lemma SFmul_round (mx mc : positive) (ex ec : Z) :
  prec <= Zpos (digits2_pos mc) ->
  SFmul prec emax (S754_finite false mx ex) (S754_finite false mc ec) =
  binary_round prec emax false (mx * mc) (ex + ec).
Proof.
  intros Hc. unfold SFmul, binary_round. simpl xorb.
  assert (Hd : Zpos (digits2_pos mc) <= Zpos (digits2_pos (mx * mc))).
  { apply (Zdigits2_le (Zpos mc) (Zpos (mx * mc))); [lia|].
    rewrite Pos2Z.inj_mul. nia. }
  unfold shl_align.
  destruct (fexp prec emax (Zpos (digits2_pos (mx * mc)) + (ex + ec)) - (ex + ec))
    as [|d|d] eqn:E; try reflexivity.
  unfold fexp in E. lia.
Qed.

Lemma SFmul_mono x1 x2 (mc : positive) (ec : Z) :
  prec <= Zpos (digits2_pos mc) ->
  nnf prec emax x1 = true -> nnf prec emax x2 = true -> SFleb x1 x2 = true ->
  SFleb (SFmul prec emax x1 (S754_finite false mc ec))
        (SFmul prec emax x2 (S754_finite false mc ec)) = true.
Proof.
  intros Hc V1 V2 H. pose proof (SFleb_dle x1 x2 V1 V2 H) as Hd.
  destruct x1 as [s1|s1| |[|] m1 e1]; simpl in V1; try discriminate;
    destruct x2 as [s2|s2| |[|] m2 e2]; simpl in V2; try discriminate;
    try contradiction.
  - reflexivity.
  - rewrite SFmul_round by exact Hc. simpl SFmul.
    apply SFleb_zero_nonneg, binary_round_nonneg.
  - rewrite !SFmul_round by exact Hc.
    apply binary_round_mono.
    apply (dle_of_scaled _ _ _ _ (Z.min e1 e2 + ec)); try lia.
    replace (e1 + ec - (Z.min e1 e2 + ec)) with (e1 - Z.min e1 e2) by lia.
    replace (e2 + ec - (Z.min e1 e2 + ec)) with (e2 - Z.min e1 e2) by lia.
    unfold dle in Hd. rewrite !Pos2Z.inj_mul. nia.
Qed.

Lemma SFmul_nonneg_valid x (mc : positive) (ec : Z) :
  prec <= Zpos (digits2_pos mc) -> nnf prec emax x = true ->
  is_nonneg (SFmul prec emax x (S754_finite false mc ec)) = true /\
  valid_binary prec emax (SFmul prec emax x (S754_finite false mc ec)) = true.
Proof.
  intros Hc V. destruct x as [s1|s1| |[|] m1 e1]; simpl in V; try discriminate.
  - simpl. auto.
  - rewrite SFmul_round by exact Hc.
    split; [apply binary_round_nonneg | apply binary_round_valid].
Qed.

(** Addition of a positive constant. *)
Lemma SFadd_round (mx mc : positive) (ex ec : Z) :
  SFadd prec emax (S754_finite false mx ex) (S754_finite false mc ec) =
  binary_round prec emax false
    (Z.to_pos (Zpos mx * 2 ^ (ex - Z.min ex ec) + Zpos mc * 2 ^ (ec - Z.min ex ec)))
    (Z.min ex ec).
Proof.
  unfold SFadd.
  pose proof (shl_align_spec mx ex (Z.min ex ec)) as H1.
  pose proof (shl_align_spec mc ec (Z.min ex ec)) as H2.
  destruct (shl_align mx ex (Z.min ex ec)) as [a ea].
  destruct (shl_align mc ec (Z.min ex ec)) as [b eb].
  destruct H1 as [H1e H1m]. destruct H2 as [H2e H2m].
  replace ea with (Z.min ex ec) in H1m by lia.
  replace eb with (Z.min ex ec) in H2m by lia.
  rewrite <- H1m, <- H2m. simpl. reflexivity.
Qed.

Lemma SFadd_mono x1 x2 (mc : positive) (ec : Z) :
  bounded prec emax mc ec = true ->
  nnf prec emax x1 = true -> nnf prec emax x2 = true -> SFleb x1 x2 = true ->
  SFleb (SFadd prec emax x1 (S754_finite false mc ec))
        (SFadd prec emax x2 (S754_finite false mc ec)) = true.
Proof.
  intros Hc V1 V2 H. pose proof (SFleb_dle x1 x2 V1 V2 H) as Hd.
  destruct x1 as [s1|s1| |[|] m1 e1]; simpl in V1; try discriminate;
    destruct x2 as [s2|s2| |[|] m2 e2]; simpl in V2; try discriminate;
    try contradiction.
  - simpl. apply SFleb_fin. right. split; lia.
  - rewrite SFadd_round. simpl SFadd at 1.
    rewrite <- (binary_round_id false mc ec Hc).
    apply binary_round_mono.
    assert (0 < 2 ^ (e2 - Z.min e2 ec)) by (apply Z.pow_pos_nonneg; lia).
    assert (0 < 2 ^ (ec - Z.min e2 ec)) by (apply Z.pow_pos_nonneg; lia).
    apply (dle_of_scaled _ _ _ _ (Z.min e2 ec)); try lia.
    rewrite Z2Pos.id by nia.
    rewrite Z.sub_diag. change (2 ^ 0) with 1. nia.
  - rewrite !SFadd_round.
    apply binary_round_mono.
    set (e0 := Z.min (Z.min e1 e2) ec).
    assert (e0 <= e1 /\ e0 <= e2 /\ e0 <= ec) as (A1 & A2 & A3) by (subst e0; lia).
    clearbody e0.
    assert (P1 : 0 < 2 ^ (e1 - Z.min e1 ec)) by (apply Z.pow_pos_nonneg; lia).
    assert (P2 : 0 < 2 ^ (ec - Z.min e1 ec)) by (apply Z.pow_pos_nonneg; lia).
    assert (P3 : 0 < 2 ^ (e2 - Z.min e2 ec)) by (apply Z.pow_pos_nonneg; lia).
    assert (P4 : 0 < 2 ^ (ec - Z.min e2 ec)) by (apply Z.pow_pos_nonneg; lia).
    apply (dle_of_scaled _ _ _ _ e0); try lia.
    rewrite !Z2Pos.id by nia.
    rewrite !Z.mul_add_distr_r, <- !Z.mul_assoc, <- !Z.pow_add_r by lia.
    replace (e1 - Z.min e1 ec + (Z.min e1 ec - e0)) with (e1 - e0) by lia.
    replace (ec - Z.min e1 ec + (Z.min e1 ec - e0)) with (ec - e0) by lia.
    replace (e2 - Z.min e2 ec + (Z.min e2 ec - e0)) with (e2 - e0) by lia.
    replace (ec - Z.min e2 ec + (Z.min e2 ec - e0)) with (ec - e0) by lia.
    pose proof (dle_scale _ _ _ _ e0 A1 A2 Hd).
    lia.
Qed.

Lemma SFadd_nonneg_valid x (mc : positive) (ec : Z) :
  bounded prec emax mc ec = true -> nnf prec emax x = true ->
  is_nonneg (SFadd prec emax x (S754_finite false mc ec)) = true /\
  valid_binary prec emax (SFadd prec emax x (S754_finite false mc ec)) = true.
Proof.
  intros Hc V. destruct x as [s1|s1| |[|] m1 e1]; simpl in V; try discriminate.
  - simpl. auto.
  - rewrite SFadd_round.
    split; [apply binary_round_nonneg | apply binary_round_valid].
Qed.

(** Conversion of a non-negative integer. *)
Lemma of_Z_mono (n1 n2 : Z) :
  0 <= n1 <= n2 ->
  SFleb (binary_normalize prec emax n1 0 false) (binary_normalize prec emax n2 0 false) = true.
Proof.
  intros [H1 H2].
  destruct n1 as [|p1|p1]; try lia; destruct n2 as [|p2|p2]; try lia; simpl.
  - reflexivity.
  - apply SFleb_zero_nonneg, binary_round_nonneg.
  - apply binary_round_mono. unfold dle. rewrite Z.min_id, Z.sub_diag. simpl. lia.
Qed.

Lemma of_Z_nonneg_valid (n : Z) :
  0 <= n ->
  is_nonneg (binary_normalize prec emax n 0 false) = true /\
  valid_binary prec emax (binary_normalize prec emax n 0 false) = true.
Proof.
  intros H. destruct n as [|p|p]; try lia; simpl.
  - auto.
  - split; [apply binary_round_nonneg | apply binary_round_valid].
Qed.

(** Exact cases of the rounding. *)
Lemma Rq_exact (s : bool) (N e Y : Z) :
  let E := fexp prec emax (Zdigits2 N + e) in
  0 < Y -> e <= E -> N = Y * 2 ^ (E - e) -> E <= emax - prec ->
  Rq prec emax s N 1 e = S754_finite s (Z.to_pos Y) E.
Proof.
  intros E HY He HN HE.
  assert (Hp : 0 < 2 ^ (E - e)) by (apply Z.pow_pos_nonneg; lia).
  destruct (Rq_facts N 1 e ltac:(nia) ltac:(lia)) as (_ & F1 & F2 & _).
  { rewrite Z.div_1_r. exact He. }
  unfold Rq. rewrite Z.div_1_r in *. fold E in F1, F2 |- *.
  rewrite Z.mul_1_l in *.
  assert (Hc : K (2 * N) (2 ^ (E - e)) = 4 * Y).
  { rewrite HN. replace (2 * (Y * 2 ^ (E - e))) with ((2 * Y) * 2 ^ (E - e)) by lia.
    rewrite K_exact by lia. lia. }
  rewrite Hc in *. unfold rnd_code. rewrite rne_exact.
  replace (4 * Y / 4) with Y in F2
    by (apply Z.div_unique with (r := 0); lia).
  destruct (Z.eqb_spec Y 0); [lia|].
  destruct (Z.eqb_spec Y (2 ^ prec)); [lia|].
  destruct (Z.leb_spec E (emax - prec)); [reflexivity|lia].
Qed.

(** The mantissa has room: the value is kept, with a normalized mantissa. *)
Lemma binary_round_exact_up (s : bool) (m : positive) (e : Z) :
  let E := fexp prec emax (Zpos (digits2_pos m) + e) in
  E <= e -> E <= emax - prec ->
  binary_round prec emax s m e = S754_finite s (Z.to_pos (Zpos m * 2 ^ (e - E))) E.
Proof.
  intros E He HE.
  assert (Hp : 0 < 2 ^ (e - E)) by (apply Z.pow_pos_nonneg; lia).
  rewrite (binary_round_Rq s m e E) by (fold E; lia).
  assert (Hd : fexp prec emax (Zdigits2 (Zpos m * 2 ^ (e - E)) + E) = E).
  { rewrite Zdigits2_mul_pow2 by lia.
    change (Zdigits2 (Zpos m)) with (Zpos (digits2_pos m)).
    replace (Zpos (digits2_pos m) + (e - E) + E) with (Zpos (digits2_pos m) + e) by lia.
    reflexivity. }
  pose proof (Rq_exact s (Zpos m * 2 ^ (e - E)) E (Zpos m * 2 ^ (e - E))) as H.
  cbv zeta in H. rewrite Hd in H. apply H; try lia.
  rewrite Z.sub_diag. change (2 ^ 0) with 1. lia.
Qed.

(** The low bits of the mantissa are zero: they are dropped. *)
Lemma binary_round_exact_down (s : bool) (m : positive) (e Y : Z) :
  let E := fexp prec emax (Zpos (digits2_pos m) + e) in
  e <= E -> Zpos m = Y * 2 ^ (E - e) -> E <= emax - prec ->
  binary_round prec emax s m e = S754_finite s (Z.to_pos Y) E.
Proof.
  intros E He HY HE.
  assert (Hp : 0 < 2 ^ (E - e)) by (apply Z.pow_pos_nonneg; lia).
  rewrite (binary_round_Rq s m e e) by (fold E; lia).
  rewrite Z.sub_diag. change (2 ^ 0) with 1. rewrite Z.mul_1_r.
  pose proof (Rq_exact s (Zpos m) e Y) as H. cbv zeta in H.
  change (Zdigits2 (Zpos m)) with (Zpos (digits2_pos m)) in H. fold E in H.
  apply H; try lia; nia.
Qed.

(** Without underflow the rounding of a positive number is not zero. *)
Lemma binary_round_nonzero (s : bool) (m : positive) (e : Z) :
  emin prec emax < fexp prec emax (Zpos (digits2_pos m) + e) ->
  match binary_round prec emax s m e with
  | S754_finite _ _ _ | S754_infinity _ => True
  | _ => False
  end.
Proof.
  intros HE.
  set (f := fexp prec emax (Zpos (digits2_pos m) + e)) in *.
  rewrite (binary_round_Rq s m e (Z.min e f)) by (fold f; lia).
  assert (Hp : 0 < 2 ^ (e - Z.min e f)) by (apply Z.pow_pos_nonneg; lia).
  assert (Hd : Zdigits2 (Zpos m * 2 ^ (e - Z.min e f) / 1) + Z.min e f =
               Zpos (digits2_pos m) + e).
  { rewrite Z.div_1_r, Zdigits2_mul_pow2 by lia.
    change (Zdigits2 (Zpos m)) with (Zpos (digits2_pos m)). lia. }
  destruct (Rq_facts (Zpos m * 2 ^ (e - Z.min e f)) 1 (Z.min e f))
    as (_ & _ & F2 & F3); try lia.
  { rewrite Hd. fold f. lia. }
  rewrite Hd in F2, F3. fold f in F2, F3. specialize (F3 HE).
  unfold Rq. rewrite Hd. fold f.
  set (c := K _ _) in *. pose proof (rne_bounds c) as B.
  assert (0 < 2 ^ (prec - 1)) by (apply Z.pow_pos_nonneg; lia).
  unfold rnd_code.
  destruct (Z.eqb_spec (rne c) 0); [lia|].
  repeat match goal with
         | |- context [if ?b then _ else _] => destruct b
         end; exact I.
Qed.

(** The code of the quotient and the remainder of a division. *)
Lemma K_eval (N D q r : Z) :
  0 <= r < D -> N = D * q + r -> K N D = 2 * q + (if r =? 0 then 0 else 1).
Proof.
  intros Hr HN. unfold K.
  rewrite <- (Z.div_unique N D q r) by (auto; lia).
  rewrite <- (Z.mod_unique N D q r) by (auto; lia).
  reflexivity.
Qed.

Lemma new_location_code (m2 q r : Z) :
  0 < m2 -> 0 <= r < m2 ->
  4 * q + loc_code (new_location m2 r) = K (2 * (m2 * q + r)) m2.
Proof.
  intros Hm Hr.
  assert (Hloc : loc_code (new_location m2 r) =
                 if r =? 0 then 0
                 else match 2 * r ?= m2 with Lt => 1 | Eq => 2 | Gt => 3 end).
  { unfold new_location, new_location_even, new_location_odd.
    destruct (Z.even m2) eqn:Ev; destruct (Z.eqb_spec r 0); try reflexivity.
    assert (Z.odd m2 = true) as Ho by (rewrite <- Z.negb_even, Ev; reflexivity).
    apply Z.odd_spec in Ho. destruct Ho as [k Hk].
    destruct (Z.compare_spec (2 * r + 1) m2);
      destruct (Z.compare_spec (2 * r) m2); try reflexivity; lia. }
  rewrite Hloc.
  destruct (Z.eqb_spec r 0) as [R0|R0].
  - subst r. rewrite (K_eval _ m2 (2 * q) 0) by lia. rewrite Z.eqb_refl. lia.
  - destruct (Z.compare_spec (2 * r) m2).
    + rewrite (K_eval _ m2 (2 * q + 1) 0) by lia. rewrite Z.eqb_refl. lia.
    + rewrite (K_eval _ m2 (2 * q) (2 * r)) by lia.
      destruct (Z.eqb_spec (2 * r) 0); lia.
    + rewrite (K_eval _ m2 (2 * q + 1) (2 * r - m2)) by lia.
      destruct (Z.eqb_spec (2 * r - m2) 0); lia.
Qed.

Lemma Zdigits2_div_refine (N D k : Z) :
  0 < D -> D <= N -> 0 <= k -> Zdigits2 (N * 2 ^ k / D) = Zdigits2 (N / D) + k.
Proof.
  intros HD HN Hk.
  assert (Hp : 0 < 2 ^ k) by (apply Z.pow_pos_nonneg; lia).
  assert (Hq : 1 <= N / D) by (apply Z.div_le_lower_bound; lia).
  pose proof (Zdigits2_bounds (N / D) ltac:(lia)) as [B1 B2].
  pose proof (Zdigits2_pos (N / D) ltac:(lia)).
  assert (L : N / D * 2 ^ k <= N * 2 ^ k / D).
  { apply Z.div_le_lower_bound; [lia|].
    pose proof (Z.mul_div_le N D HD). nia. }
  assert (U : N * 2 ^ k / D < (N / D + 1) * 2 ^ k).
  { apply Z.div_lt_upper_bound; [lia|].
    pose proof (Z.mul_succ_div_gt N D HD). nia. }
  apply Zdigits2_unique; [|nia].
  replace (Zdigits2 (N / D) + k - 1) with ((Zdigits2 (N / D) - 1) + k) by lia.
  rewrite !Z.pow_add_r by lia. nia.
Qed.

Lemma div_quotient_digits (mx my : positive) (ex ey : Z) :
  let e' := div_exp prec emax mx my ex ey in
  Zpos (digits2_pos mx) + ex - (Zpos (digits2_pos my) + ey) <=
  Zdigits2 (Zpos mx * 2 ^ (ex - ey - e') / Zpos my) + e'.
Proof.
  intros e'.
  assert (Hs : 0 <= ex - ey - e') by (subst e'; unfold div_exp; lia).
  set (s := ex - ey - e') in *.
  pose proof (digits2_pos_bounds mx) as [X1 X2].
  pose proof (digits2_pos_bounds my) as [Y1 Y2].
  set (dx := Zpos (digits2_pos mx)) in *. set (dy := Zpos (digits2_pos my)) in *.
  assert (Hp : 0 < 2 ^ s) by (apply Z.pow_pos_nonneg; lia).
  pose proof (Zdigits2_nonneg (Zpos mx * 2 ^ s / Zpos my)) as Hd0.
  destruct (Z_lt_le_dec (dx - 1 + s - dy) 0) as [Hneg|Hpos]; [lia|].
  assert (Hq : 2 ^ (dx - 1 + s - dy) <= Zpos mx * 2 ^ s / Zpos my).
  { apply Z.div_le_lower_bound; [lia|].
    assert (Zpos my * 2 ^ (dx - 1 + s - dy) <= 2 ^ dy * 2 ^ (dx - 1 + s - dy)).
    { assert (0 < 2 ^ (dx - 1 + s - dy)) by (apply Z.pow_pos_nonneg; lia). nia. }
    rewrite <- Z.pow_add_r in H by lia.
    replace (dy + (dx - 1 + s - dy)) with ((dx - 1) + s) in H by lia.
    rewrite Z.pow_add_r in H by lia. nia. }
  assert (0 < 2 ^ (dx - 1 + s - dy)) by (apply Z.pow_pos_nonneg; lia).
  pose proof (Zdigits2_bounds (Zpos mx * 2 ^ s / Zpos my) ltac:(lia)) as [_ B2].
  destruct (Z_lt_le_dec (Zdigits2 (Zpos mx * 2 ^ s / Zpos my)) (dx + s - dy)); [|lia].
  assert (2 ^ Zdigits2 (Zpos mx * 2 ^ s / Zpos my) <= 2 ^ (dx - 1 + s - dy))
    by (apply Z.pow_le_mono_r; lia).
  lia.
Qed.

Lemma SFdiv_Rq (mx my : positive) (ex ey : Z) :
  let e' := div_exp prec emax mx my ex ey in
  SFdiv prec emax (S754_finite false mx ex) (S754_finite false my ey) =
  Rq prec emax false (Zpos mx * 2 ^ (ex - ey - e')) (Zpos my) e'.
Proof.
  intros e'. unfold SFdiv, SFdiv_core_binary. simpl xorb.
  change (Zdigits2 (Zpos mx)) with (Zpos (digits2_pos mx)).
  change (Zdigits2 (Zpos my)) with (Zpos (digits2_pos my)).
  fold (div_exp prec emax mx my ex ey). fold e'.
  assert (Hs : 0 <= ex - ey - e') by (subst e'; unfold div_exp; lia).
  set (m' := match ex - ey - e' with
             | 0 => Zpos mx
             | Zpos _ => Z.shiftl (Zpos mx) (ex - ey - e')
             | Zneg _ => 0
             end).
  assert (Hm' : m' = Zpos mx * 2 ^ (ex - ey - e')).
  { subst m'. destruct (ex - ey - e') as [|p|p] eqn:E; try lia.
    rewrite Z.shiftl_mul_pow2 by lia. reflexivity. }
  pose proof (Z_div_mod m' (Zpos my) ltac:(lia)) as Hdm.
  destruct (Z.div_eucl m' (Zpos my)) as [q r]. destruct Hdm as [Hq Hr].
  assert (Hp : 0 < 2 ^ (ex - ey - e')) by (apply Z.pow_pos_nonneg; lia).
  apply bra_Rq; try lia.
  - rewrite <- Hm', Hq. apply new_location_code; lia.
  - pose proof (div_quotient_digits mx my ex ey) as Hd. cbv zeta in Hd. fold e' in Hd.
    assert (e' <= fexp prec emax (Zpos (digits2_pos mx) + ex - (Zpos (digits2_pos my) + ey)))
      by (subst e'; unfold div_exp; lia).
    pose proof (fexp_mono _ _ Hd). lia.
Qed.

Lemma SFdiv_nonneg_valid x (my : positive) (ey : Z) :
  nnf prec emax x = true ->
  is_nonneg (SFdiv prec emax x (S754_finite false my ey)) = true /\
  valid_binary prec emax (SFdiv prec emax x (S754_finite false my ey)) = true.
Proof.
  intros V. destruct x as [s1|s1| |[|] m1 e1]; simpl in V; try discriminate.
  - simpl. auto.
  - rewrite SFdiv_Rq. split; [apply rnd_code_nonneg|].
    pose proof (div_quotient_digits m1 my e1 ey) as Hd. cbv zeta in Hd.
    set (e' := div_exp prec emax m1 my e1 ey) in *.
    assert (Hs : 0 <= e1 - ey - e') by (subst e'; unfold div_exp; lia).
    assert (Hp : 0 < 2 ^ (e1 - ey - e')) by (apply Z.pow_pos_nonneg; lia).
    apply Rq_valid; try lia.
    assert (e' <= fexp prec emax (Zpos (digits2_pos m1) + e1 - (Zpos (digits2_pos my) + ey)))
      by (subst e'; unfold div_exp; lia).
    pose proof (fexp_mono _ _ Hd). lia.
Qed.

Lemma div_normal_quotient (mx my : positive) (ex ey : Z) :
  div_normal prec emax (S754_finite false mx ex) my ey ->
  Zpos (digits2_pos mx) <= prec ->
  let e' := div_exp prec emax mx my ex ey in
  Zpos my <= Zpos mx * 2 ^ (ex - ey - e').
Proof.
  unfold div_normal. intros Hn Hdx. cbv zeta.
  set (e' := div_exp prec emax mx my ex ey).
  pose proof (digits2_pos_bounds mx) as [X1 X2].
  pose proof (digits2_pos_bounds my) as [Y1 Y2].
  set (dx := Zpos (digits2_pos mx)) in *. set (dy := Zpos (digits2_pos my)) in *.
  assert (He' : e' = dx + ex - (dy + ey) - prec).
  { subst e'. unfold div_exp, fexp. fold dx dy. lia. }
  replace (ex - ey - e') with (prec - dx + dy) by lia.
  assert (2 ^ dy <= 2 ^ (dx - 1) * 2 ^ (prec - dx + dy)).
  { rewrite <- Z.pow_add_r by lia. apply Z.pow_le_mono_r; lia. }
  assert (0 < 2 ^ (prec - dx + dy)) by (apply Z.pow_pos_nonneg; lia).
  nia.
Qed.

Lemma SFdiv_mono x1 x2 (my : positive) (ey : Z) :
  nnf prec emax x1 = true -> nnf prec emax x2 = true -> SFleb x1 x2 = true ->
  div_normal prec emax x1 my ey -> div_normal prec emax x2 my ey ->
  SFleb (SFdiv prec emax x1 (S754_finite false my ey))
        (SFdiv prec emax x2 (S754_finite false my ey)) = true.
Proof.
  intros V1 V2 H N1 N2. pose proof (SFleb_dle x1 x2 V1 V2 H) as Hd.
  destruct x1 as [s1|s1| |[|] m1 e1]; simpl in V1; try discriminate;
    destruct x2 as [s2|s2| |[|] m2 e2]; simpl in V2; try discriminate;
    try contradiction.
  - reflexivity.
  - simpl SFdiv at 1. rewrite SFdiv_Rq.
    apply SFleb_zero_nonneg, rnd_code_nonneg.
  - rewrite !SFdiv_Rq.
    destruct (bounded_digits m1 e1 V1) as (C1 & _ & _ & _).
    destruct (bounded_digits m2 e2 V2) as (C2 & _ & _ & _).
    assert (D1 : Zpos (digits2_pos m1) <= prec) by (unfold fexp in C1; lia).
    assert (D2 : Zpos (digits2_pos m2) <= prec) by (unfold fexp in C2; lia).
    pose proof (div_normal_quotient m1 my e1 ey N1 D1) as Q1.
    pose proof (div_normal_quotient m2 my e2 ey N2 D2) as Q2.
    pose proof (div_quotient_digits m1 my e1 ey) as G1.
    pose proof (div_quotient_digits m2 my e2 ey) as G2.
    cbv zeta in Q1, Q2, G1, G2.
    set (a1 := div_exp prec emax m1 my e1 ey) in *. set (a2 := div_exp prec emax m2 my e2 ey) in *.
    assert (F1 : a1 <= fexp prec emax (Zdigits2 (Zpos m1 * 2 ^ (e1 - ey - a1) / Zpos my) + a1)).
    { assert (a1 <= fexp prec emax (Zpos (digits2_pos m1) + e1 - (Zpos (digits2_pos my) + ey)))
        by (subst a1; unfold div_exp; lia).
      pose proof (fexp_mono _ _ G1). lia. }
    assert (F2 : a2 <= fexp prec emax (Zdigits2 (Zpos m2 * 2 ^ (e2 - ey - a2) / Zpos my) + a2)).
    { assert (a2 <= fexp prec emax (Zpos (digits2_pos m2) + e2 - (Zpos (digits2_pos my) + ey)))
        by (subst a2; unfold div_exp; lia).
      pose proof (fexp_mono _ _ G2). lia. }
    assert (S1 : 0 <= e1 - ey - a1) by (subst a1; unfold div_exp; lia).
    assert (S2 : 0 <= e2 - ey - a2) by (subst a2; unfold div_exp; lia).
    set (e0 := Z.min a1 a2).
    assert (e0 <= a1 /\ e0 <= a2) as [A1 A2] by (subst e0; lia).
    clearbody e0 a1 a2.
    rewrite <- (Rq_refine false (Zpos m1 * 2 ^ (e1 - ey - a1)) (Zpos my) a1 (a1 - e0))
      by (try assumption; lia).
    rewrite <- (Rq_refine false (Zpos m2 * 2 ^ (e2 - ey - a2)) (Zpos my) a2 (a2 - e0))
      by (try assumption; lia).
    replace (a1 - (a1 - e0)) with e0 by lia.
    replace (a2 - (a2 - e0)) with e0 by lia.
    rewrite <- !Z.mul_assoc, <- !Z.pow_add_r by lia.
    replace (e1 - ey - a1 + (a1 - e0)) with (e1 - (ey + e0)) by lia.
    replace (e2 - ey - a2 + (a2 - e0)) with (e2 - (ey + e0)) by lia.
    assert (P1 : 0 < 2 ^ (e1 - (ey + e0))) by (apply Z.pow_pos_nonneg; lia).
    apply Rq_mono; try lia.
    + apply dle_scale; [lia | lia | exact Hd].
    + replace (e1 - (ey + e0)) with ((e1 - ey - a1) + (a1 - e0)) by lia.
      rewrite Z.pow_add_r, Z.mul_assoc by lia.
      rewrite Zdigits2_div_refine by lia.
      match goal with
      | |- context [fexp prec emax ?t] =>
          replace t with (Zdigits2 (Zpos m1 * 2 ^ (e1 - ey - a1) / Zpos my) + a1) by lia
      end.
      lia.
Qed.

Lemma SFltb_pred x (m : positive) (e : Z) :
  nnf prec emax x = true -> bounded prec emax m e = true -> emin prec emax < e ->
  SFltb x (S754_finite false m e) = true ->
  SFleb x (pred_pos prec m e) = true.
Proof.
  intros V Vb He H.
  assert (Hpp : 2 ^ prec = 2 * 2 ^ (prec - 1))
    by (rewrite <- Z.pow_succ_r by lia; f_equal; lia).
  assert (Hp1 : 0 < 2 ^ (prec - 1)) by (apply Z.pow_pos_nonneg; lia).
  destruct (bounded_digits m e Vb) as (_ & _ & U & L). specialize (L He).
  unfold pred_pos.
  destruct x as [s1|s1| |[|] m1 e1]; simpl in V; try discriminate.
  - destruct (Zpos m =? 2 ^ (prec - 1)); reflexivity.
  - destruct (bounded_digits m1 e1 V) as (C1 & _ & U1 & L1).
    assert (Hlt : e1 < e \/ (e1 = e /\ Zpos m1 < Zpos m)).
    { revert H. unfold SFltb, SFcompare.
      destruct (Z.compare_spec e1 e); try discriminate; try lia.
      change (Pos.compare_cont Eq m1 m) with (Pos.compare m1 m).
      destruct (Pos.compare_spec m1 m); try discriminate; lia. }
    destruct (Z.eqb_spec (Zpos m) (2 ^ (prec - 1))) as [Em|Em];
      apply SFleb_fin; rewrite Z2Pos.id by lia.
    + destruct Hlt as [Hlt|[Hlt1 Hlt2]]; [lia|].
      subst e1. specialize (L1 He). lia.
    + lia.
Qed.
End Round.

(** ** Comparisons *)

Lemma SFcompare_antisym (x y : spec_float) :
  SFcompare y x = option_map CompOpp (SFcompare x y).
Proof.
  destruct x as [sx|sx| |sx mx ex], y as [sy|sy| |sy my ey];
    try destruct sx; try destruct sy; try reflexivity; simpl;
    rewrite (Z.compare_antisym ex ey);
    destruct (ex ?= ey); simpl; try reflexivity;
    change (Pos.compare_cont Eq my mx) with (Pos.compare my mx);
    change (Pos.compare_cont Eq mx my) with (Pos.compare mx my);
    rewrite (Pos.compare_antisym mx my); destruct (mx ?= my)%positive; reflexivity.
Qed.

Lemma SFcompare_nan (x y : spec_float) :
  is_nan x = false -> is_nan y = false -> SFcompare x y <> None.
Proof.
  destruct x as [sx|sx| |sx mx ex], y as [sy|sy| |sy my ey]; simpl; intros; congruence.
Qed.

Lemma SFltb_negb_leb (x y : spec_float) :
  is_nan x = false -> is_nan y = false -> SFltb x y = negb (SFleb y x).
Proof.
  intros Hx Hy. unfold SFltb, SFleb. rewrite (SFcompare_antisym x y).
  pose proof (SFcompare_nan x y Hx Hy).
  destruct (SFcompare x y) as [[| |]|]; simpl; congruence.
Qed.

Lemma SFcompare_rank (x y : spec_float) :
  is_nan x = false -> is_nan y = false ->
  SFcompare x y = Some (lex_compare (rank x) (rank y)).
Proof.
  destruct x as [sx|sx| |sx mx ex], y as [sy|sy| |sy my ey];
    try destruct sx; try destruct sy; simpl; intros; try discriminate; try reflexivity;
    unfold lex_compare; simpl.
  rewrite Z.compare_opp, (Z.compare_antisym ex ey).
  destruct (ex ?= ey); reflexivity.
Qed.

Lemma lex_compare_le_trans a b c :
  lex_compare a b <> Gt -> lex_compare b c <> Gt -> lex_compare a c <> Gt.
Proof.
  destruct a as [a1 [a2 a3]], b as [b1 [b2 b3]], c as [c1 [c2 c3]].
  unfold lex_compare; simpl.
  destruct (Z.compare_spec a1 b1); destruct (Z.compare_spec b1 c1);
    destruct (Z.compare_spec a1 c1); try congruence; try lia;
    destruct (Z.compare_spec a2 b2); destruct (Z.compare_spec b2 c2);
    destruct (Z.compare_spec a2 c2); try congruence; try lia;
    destruct (Z.compare_spec a3 b3); destruct (Z.compare_spec b3 c3);
    destruct (Z.compare_spec a3 c3); try congruence; try lia.
Qed.

Lemma lex_compare_lt_le_trans a b c :
  lex_compare a b = Lt -> lex_compare b c <> Gt -> lex_compare a c = Lt.
Proof.
  destruct a as [a1 [a2 a3]], b as [b1 [b2 b3]], c as [c1 [c2 c3]].
  unfold lex_compare; simpl.
  destruct (Z.compare_spec a1 b1); destruct (Z.compare_spec b1 c1);
    destruct (Z.compare_spec a1 c1); try congruence; try lia;
    destruct (Z.compare_spec a2 b2); destruct (Z.compare_spec b2 c2);
    destruct (Z.compare_spec a2 c2); try congruence; try lia;
    destruct (Z.compare_spec a3 b3); destruct (Z.compare_spec b3 c3);
    destruct (Z.compare_spec a3 c3); try congruence; try lia.
Qed.

Lemma lex_compare_le_lt_trans a b c :
  lex_compare a b <> Gt -> lex_compare b c = Lt -> lex_compare a c = Lt.
Proof.
  destruct a as [a1 [a2 a3]], b as [b1 [b2 b3]], c as [c1 [c2 c3]].
  unfold lex_compare; simpl.
  destruct (Z.compare_spec a1 b1); destruct (Z.compare_spec b1 c1);
    destruct (Z.compare_spec a1 c1); try congruence; try lia;
    destruct (Z.compare_spec a2 b2); destruct (Z.compare_spec b2 c2);
    destruct (Z.compare_spec a2 c2); try congruence; try lia;
    destruct (Z.compare_spec a3 b3); destruct (Z.compare_spec b3 c3);
    destruct (Z.compare_spec a3 c3); try congruence; try lia.
Qed.

Lemma SFleb_not_nan (x y : spec_float) :
  SFleb x y = true -> is_nan x = false /\ is_nan y = false.
Proof.
  destruct x as [sx|sx| |sx mx ex], y as [sy|sy| |sy my ey]; simpl; intros;
    try discriminate; auto.
Qed.

Lemma SFltb_not_nan (x y : spec_float) :
  SFltb x y = true -> is_nan x = false /\ is_nan y = false.
Proof.
  destruct x as [sx|sx| |sx mx ex], y as [sy|sy| |sy my ey]; simpl; intros;
    try discriminate; auto.
Qed.

Lemma SFleb_rank (x y : spec_float) :
  SFleb x y = true <->
  is_nan x = false /\ is_nan y = false /\ lex_compare (rank x) (rank y) <> Gt.
Proof.
  split.
  - intros H. destruct (SFleb_not_nan x y H) as [Hx Hy].
    split; [exact Hx|]. split; [exact Hy|].
    unfold SFleb in H. rewrite (SFcompare_rank x y Hx Hy) in H.
    destruct (lex_compare (rank x) (rank y)); congruence.
  - intros (Hx & Hy & H). unfold SFleb. rewrite (SFcompare_rank x y Hx Hy).
    destruct (lex_compare (rank x) (rank y)); congruence.
Qed.

Lemma SFltb_rank (x y : spec_float) :
  SFltb x y = true <->
  is_nan x = false /\ is_nan y = false /\ lex_compare (rank x) (rank y) = Lt.
Proof.
  split.
  - intros H. destruct (SFltb_not_nan x y H) as [Hx Hy].
    split; [exact Hx|]. split; [exact Hy|].
    unfold SFltb in H. rewrite (SFcompare_rank x y Hx Hy) in H.
    destruct (lex_compare (rank x) (rank y)); congruence.
  - intros (Hx & Hy & H). unfold SFltb. rewrite (SFcompare_rank x y Hx Hy), H.
    reflexivity.
Qed.

Lemma SFleb_trans (x y z : spec_float) :
  SFleb x y = true -> SFleb y z = true -> SFleb x z = true.
Proof.
  rewrite !SFleb_rank. intros (Hx & Hy & H1) (_ & Hz & H2).
  repeat split; auto. eapply lex_compare_le_trans; eauto.
Qed.

Lemma SFltb_leb_trans (x y z : spec_float) :
  SFltb x y = true -> SFleb y z = true -> SFltb x z = true.
Proof.
  rewrite !SFltb_rank, SFleb_rank. intros (Hx & Hy & H1) (_ & Hz & H2).
  repeat split; auto. eapply lex_compare_lt_le_trans; eauto.
Qed.

Lemma SFleb_ltb_trans (x y z : spec_float) :
  SFleb x y = true -> SFltb y z = true -> SFltb x z = true.
Proof.
  rewrite !SFltb_rank, SFleb_rank. intros (Hx & Hy & H1) (_ & Hz & H2).
  repeat split; auto. eapply lex_compare_le_lt_trans; eauto.
Qed.

Lemma SFltb_leb (x y : spec_float) : SFltb x y = true -> SFleb x y = true.
Proof.
  unfold SFltb, SFleb. destruct (SFcompare x y) as [[| |]|]; congruence.
Qed.

(** ** Machine integers *)

Lemma wrap64_small (z : Z) : in_int64 z = true -> wrap64 z = z.
Proof.
  unfold in_int64, wrap64, min_int64, max_int64. intros H.
  apply andb_prop in H. destruct H as [H1 H2].
  apply Z.leb_le in H1. apply Z.leb_le in H2.
  rewrite Z.mod_small by lia. lia.
Qed.

Lemma wrap64_range (z : Z) : in_int64 (wrap64 z) = true.
Proof.
  unfold in_int64, wrap64, min_int64, max_int64.
  pose proof (Z.mod_pos_bound (z + 2 ^ 63) (2 ^ 64) ltac:(lia)).
  apply andb_true_intro. split; apply Z.leb_le; lia.
Qed.

Lemma wrap64_add_l (a b : Z) : wrap64 (wrap64 a + b) = wrap64 (a + b).
Proof.
  unfold wrap64.
  replace ((a + 2 ^ 63) mod 2 ^ 64 - 2 ^ 63 + b + 2 ^ 63)
    with ((a + 2 ^ 63) mod 2 ^ 64 + b) by lia.
  rewrite Z.add_mod_idemp_l by lia.
  replace (a + 2 ^ 63 + b) with (a + b + 2 ^ 63) by lia. reflexivity.
Qed.

Lemma wrap64_add_r (a b : Z) : wrap64 (a + wrap64 b) = wrap64 (a + b).
Proof. rewrite Z.add_comm, wrap64_add_l, Z.add_comm. reflexivity. Qed.

(** ** Bin counter *)

Lemma band_consts :
  SFltb low_bound lo_bound = true /\ SFltb low_bound hi_bound = true /\
  SFleb low_bound lo_bound = true /\
  is_nan lo_bound = false /\ is_nan hi_bound = false /\ is_nan low_bound = false.
Proof. vm_compute. repeat split. Qed.

Lemma out_of_band (d : float32) :
  is_nan d = false ->
  F32.ltb d lo_bound || F32.gtb d hi_bound = negb (in_band d).
Proof.
  intros Hd. destruct band_consts as (_ & _ & _ & N1 & N2 & _).
  unfold in_band, F32.ltb, F32.gtb, F32.leb.
  rewrite (SFltb_negb_leb d lo_bound Hd N1), (SFltb_negb_leb hi_bound d N2 Hd).
  rewrite negb_andb. reflexivity.
Qed.

Lemma low_not_hi (d : float32) :
  F32.ltb d low_bound = true -> F32.gtb d hi_bound = false.
Proof.
  unfold F32.ltb, F32.gtb. intros H.
  destruct band_consts as (_ & H2 & _).
  destruct (SFltb hi_bound d) eqn:E; [|reflexivity].
  pose proof (SFltb_leb_trans _ _ _ E (SFltb_leb _ _ H)) as H3.
  pose proof (SFltb_leb_trans _ _ _ H2 (SFltb_leb _ _ H3)) as H4.
  revert H4. vm_compute. discriminate.
Qed.

Lemma low_not_band (d : float32) :
  F32.ltb d low_bound = true -> in_band d = false.
Proof.
  unfold F32.ltb, in_band, F32.leb. intros H.
  destruct band_consts as (_ & _ & H3 & _).
  destruct (SFleb lo_bound d) eqn:E; [|reflexivity]. exfalso.
  pose proof (SFltb_leb_trans _ _ _ H H3) as H4.
  pose proof (SFltb_leb_trans _ _ _ H4 E) as H5.
  destruct (SFltb_not_nan _ _ H) as [Nd _].
  rewrite (SFltb_negb_leb d d Nd Nd) in H5.
  assert (SFleb d d = true) by (apply SFltb_leb in H4; eapply SFleb_trans; eauto).
  rewrite H0 in H5. discriminate.
Qed.

Lemma hi_not_band (d : float32) :
  is_nan d = false -> F32.gtb d hi_bound = true -> in_band d = false.
Proof.
  intros Hd H. destruct band_consts as (_ & _ & _ & _ & N2 & _).
  unfold F32.gtb in H. unfold in_band, F32.leb.
  rewrite (SFltb_negb_leb hi_bound d N2 Hd) in H.
  destruct (SFleb d hi_bound); [discriminate|]. apply andb_false_r.
Qed.

Lemma count_where_cons (p : float32 -> bool) (d : float32) (l : list float32) :
  count_where p (d :: l) = (if p d then 1 else 0) + count_where p l.
Proof.
  unfold count_where, len. simpl. destruct (p d); simpl length; lia.
Qed.

Lemma fold_count1 (depths : list float32) (c : counter) :
  Forall (fun d => is_nan d = false) depths ->
  let c' := fold_left count1 depths c in
  wrap64 (out c') = wrap64 (out c + count_where (fun d => negb (in_band d)) depths) /\
  wrap64 (low c') = wrap64 (low c + count_where (fun d => F32.ltb d low_bound) depths) /\
  wrap64 (hi c') = wrap64 (hi c + count_where (fun d => F32.gtb d hi_bound) depths) /\
  wrap64 (in_ c') = wrap64 (in_ c + count_where in_band depths) /\
  (counter_ok c -> counter_ok c').
Proof.
  intros H. revert c. induction H as [|d l Hd Hl IH]; intros c.
  - simpl. unfold count_where, len. simpl. rewrite !Z.add_0_r. tauto.
  - simpl fold_left. cbv zeta. specialize (IH (count1 c d)). cbv zeta in IH.
    destruct IH as (I1 & I2 & I3 & I4 & I5).
    rewrite !count_where_cons.
    assert (Hc : count1 c d =
                 if in_band d then mkCounter (out c) (low c) (hi c) (int_add (in_ c) 1)
                 else if F32.gtb d hi_bound
                      then mkCounter (int_add (out c) 1) (low c) (int_add (hi c) 1) (in_ c)
                      else if F32.ltb d low_bound
                           then mkCounter (int_add (out c) 1) (int_add (low c) 1) (hi c) (in_ c)
                           else mkCounter (int_add (out c) 1) (low c) (hi c) (in_ c)).
    { unfold count1. rewrite (out_of_band d Hd).
      destruct (in_band d); simpl; [reflexivity|].
      destruct (F32.gtb d hi_bound); [reflexivity|].
      destruct (F32.ltb d low_bound); reflexivity. }
    rewrite Hc in *. clear Hc.
    destruct (in_band d) eqn:B.
    + assert (G : F32.gtb d hi_bound = false).
      { destruct (F32.gtb d hi_bound) eqn:G; [|reflexivity].
        rewrite (hi_not_band d Hd G) in B. discriminate. }
      assert (L : F32.ltb d low_bound = false).
      { destruct (F32.ltb d low_bound) eqn:L; [|reflexivity].
        rewrite (low_not_band d L) in B. discriminate. }
      rewrite G, L. simpl negb. simpl in I1, I2, I3, I4, I5.
      rewrite I1, I2, I3, I4. unfold int_add in *. rewrite !wrap64_add_l.
      do 4 (split; [f_equal; lia|]).
      intros (O1 & O2 & O3 & O4). apply I5. unfold counter_ok. simpl.
      repeat split; auto using wrap64_range.
    + simpl negb. destruct (F32.gtb d hi_bound) eqn:G.
      * assert (L : F32.ltb d low_bound = false).
        { destruct (F32.ltb d low_bound) eqn:L; [|reflexivity].
          rewrite (low_not_hi d L) in G. discriminate. }
        rewrite L. simpl in I1, I2, I3, I4, I5.
        rewrite I1, I2, I3, I4. unfold int_add in *. rewrite !wrap64_add_l.
        do 4 (split; [f_equal; lia|]).
        intros (O1 & O2 & O3 & O4). apply I5. unfold counter_ok. simpl.
        repeat split; auto using wrap64_range.
      * destruct (F32.ltb d low_bound) eqn:L; simpl in I1, I2, I3, I4, I5;
          rewrite I1, I2, I3, I4; unfold int_add in *; rewrite !wrap64_add_l;
          (do 4 (split; [f_equal; lia|]));
          intros (O1 & O2 & O3 & O4); apply I5; unfold counter_ok; simpl;
          repeat split; auto using wrap64_range.
Qed.

(** C3. The bin counter adds to [in] the depths of the closed interval
    [0.85, 1.15], to [hi] the depths above 1.15, to [low] the depths below
    0.15, to [out] the depths outside the interval, and then [n - k] to both
    [out] and [low] and to nothing else; the depths [1.0, 0.9, 2.0] with
    [n = 5] give in = 2, hi = 1, out = 3, low = 2.  The sums are Go ints
    (they wrap around); the equations hold for every [n], so also for
    [n >= k]. *)
Theorem count_bins (c : counter) (depths : list float32) (n : Z) :
  counter_ok c ->
  Forall (fun d => is_nan d = false) depths ->
  count c depths n =
    mkCounter
      (wrap64 (out c + count_where (fun d => negb (in_band d)) depths + (n - len depths)))
      (wrap64 (low c + count_where (fun d => F32.ltb d low_bound) depths + (n - len depths)))
      (wrap64 (hi c + count_where (fun d => F32.gtb d hi_bound) depths))
      (wrap64 (in_ c + count_where in_band depths))
  /\ count (mkCounter 0 0 0 0) [F32.of_Z 1; F32.const 9 10; F32.of_Z 2] 5
     = mkCounter 3 2 1 2.
Proof.
  intros Hc Hd. split; [|vm_compute; reflexivity].
  destruct (fold_count1 depths c Hd) as (I1 & I2 & I3 & I4 & I5).
  specialize (I5 Hc). destruct I5 as (O1 & O2 & O3 & O4).
  unfold count. f_equal.
  - unfold int_add, int_sub. rewrite wrap64_add_r, <- wrap64_add_l, I1, wrap64_add_l.
    f_equal; lia.
  - unfold int_add, int_sub. rewrite wrap64_add_r, <- wrap64_add_l, I2, wrap64_add_l.
    f_equal; lia.
  - rewrite <- I3. symmetry. apply wrap64_small. exact O3.
  - rewrite <- I4. symmetry. apply wrap64_small. exact O4.
Qed.

Lemma count_bins_witness :
  counter_ok (mkCounter 0 0 0 0) /\
  Forall (fun d => is_nan d = false) [F32.of_Z 1; F32.const 1 10] /\
  count (mkCounter 0 0 0 0) [F32.of_Z 1; F32.const 1 10] 4 = mkCounter 3 3 0 1.
Proof.
  assert (H1 : counter_ok (mkCounter 0 0 0 0)) by (vm_compute; repeat split).
  assert (H2 : Forall (fun d => is_nan d = false) [F32.of_Z 1; F32.const 1 10])
    by (repeat constructor).
  split; [exact H1|]. split; [exact H2|].
  rewrite (proj1 (count_bins (mkCounter 0 0 0 0) [F32.of_Z 1; F32.const 1 10] 4 H1 H2)).
  vm_compute. reflexivity.
Defined.

(** ** ROC of an empty histogram *)

Lemma totals_of_zeros (n : nat) : totals_of (repeat 0 n) = repeat 0 n.
Proof.
  induction n as [|n IH]; [reflexivity|].
  simpl. rewrite IH. destruct n; reflexivity.
Qed.

(** C10. [CountsROC] divides by the grand total without a guard: on counts
    that are all zero, which is what an empty depth vector leaves in a
    zeroed histogram, every entry is the NaN that [0 / 0] gives, so no entry
    lies in [0, 1] and the first entry is not 1. *)
Theorem CountsROC_all_zero (n : nat) :
  CountsAtDepth [] (repeat 0 70) = Some (repeat 0 70) /\
  F32.div (F32.of_Z 0) (F32.of_Z 0) = S754_nan /\
  exists roc,
    CountsROC (repeat 0 (S n)) = Some roc /\ length roc = S n /\
    (forall r, In r roc ->
       r = F32.div (F32.of_Z 0) (F32.of_Z 0) /\
       F32.leb (F32.of_Z 0) r = false /\ F32.leb r (F32.of_Z 1) = false) /\
    (forall r0, nth_error roc 0 = Some r0 -> F32.eqb r0 (F32.of_Z 1) = false).
Proof.
  split; [reflexivity|]. split; [reflexivity|].
  exists (repeat S754_nan (S n)).
  assert (E : CountsROC (repeat 0 (S n)) = Some (repeat S754_nan (S n))).
  { unfold CountsROC. rewrite totals_of_zeros.
    change (repeat 0 (S n)) with (0 :: repeat 0 n).
    cbv iota beta. f_equal.
    change (0 :: repeat 0 n) with (repeat 0 (S n)).
    generalize (S n). intros k. induction k as [|k IH]; [reflexivity|].
    cbn [repeat map]. rewrite IH. reflexivity. }
  split; [exact E|]. split; [apply repeat_length|]. split.
  - intros r Hr. apply repeat_spec in Hr. subst r. repeat split.
  - simpl. intros r0 H. injection H as <-. reflexivity.
Qed.

(** ** sort.Slice *)

Section SortFacts.
Context {A : Type}.
Variable less : A -> A -> bool.
Variable le : A -> A -> Prop.
Variable P : A -> Prop.
Hypothesis le_trans : forall x y z, le x y -> le y z -> le x z.
Hypothesis less_le : forall x y, less x y = true -> le x y.
Hypothesis not_less_le : forall x y, P x -> P y -> less x y = false -> le y x.

Lemma insert_by_perm (x : A) (l : list A) : Permutation (insert_by less x l) (x :: l).
Proof.
  induction l as [|y t IH]; simpl; [reflexivity|].
  destruct (less x y); [reflexivity|].
  rewrite IH. apply perm_swap.
Qed.

Lemma sort_Slice_perm (l : list A) : Permutation (sort_Slice less l) l.
Proof.
  induction l as [|x t IH]; simpl; [reflexivity|].
  rewrite insert_by_perm. constructor. exact IH.
Qed.

Lemma sort_Slice_length (l : list A) : length (sort_Slice less l) = length l.
Proof. apply Permutation_length, sort_Slice_perm. Qed.

Lemma insert_by_sorted (x : A) (l : list A) :
  P x -> Forall P l -> StronglySorted le l -> StronglySorted le (insert_by less x l).
Proof.
  intros Px Pl Hs. induction Hs as [|y t Ht IH Hy]; simpl.
  - constructor; constructor.
  - inversion Pl as [|? ? Py Pt]; subst.
    destruct (less x y) eqn:E.
    + constructor; [constructor; assumption|].
      constructor; [apply less_le; exact E|].
      apply Forall_forall. intros z Hz.
      apply le_trans with y; [apply less_le; exact E|].
      rewrite Forall_forall in Hy. apply Hy. exact Hz.
    + constructor; [apply IH; exact Pt|].
      apply Forall_forall. intros z Hz.
      apply (Permutation_in _ (insert_by_perm x t)) in Hz.
      destruct Hz as [<-|Hz].
      * apply not_less_le; assumption.
      * rewrite Forall_forall in Hy. apply Hy. exact Hz.
Qed.

Lemma sort_Slice_sorted (l : list A) :
  Forall P l -> StronglySorted le (sort_Slice less l).
Proof.
  intros Pl. induction Pl as [|x t Px Pt IH]; simpl; [constructor|].
  apply insert_by_sorted; try assumption.
  apply Forall_forall. intros z Hz.
  apply (Permutation_in _ (sort_Slice_perm t)) in Hz.
  rewrite Forall_forall in Pt. apply Pt. exact Hz.
Qed.
End SortFacts.

Lemma sort_int64_sorted (l : list Z) : StronglySorted Z.le (sort_Slice Z.ltb l).
Proof.
  apply (sort_Slice_sorted Z.ltb Z.le (fun _ => True)).
  - intros; lia.
  - intros x y H. apply Z.ltb_lt in H. lia.
  - intros x y _ _ H. apply Z.ltb_ge in H. exact H.
  - apply Forall_forall. intros; exact I.
Qed.

Lemma sorted_nth_le (l : list Z) (i j : nat) :
  StronglySorted Z.le l -> (i <= j < length l)%nat -> nth i l 0 <= nth j l 0.
Proof.
  intros Hs. revert i j. induction Hs as [|x t Ht IH Hx]; intros i j Hij.
  - simpl in Hij. lia.
  - destruct i as [|i], j as [|j]; simpl in *; try lia.
    + rewrite Forall_forall in Hx. apply Hx. apply nth_In. lia.
    + apply IH. lia.
Qed.

(** ** Median tile size *)

Lemma ref_sizes_spec (r : list Z) :
  ref_sizes r = map (fun i => wrap64 (nth (S i) r 0 - nth i r 0)) (seq 0 (length r - 1)).
Proof.
  unfold ref_sizes, len, int_sub.
  destruct r as [|a t]; [reflexivity|].
  destruct t as [|b t]; [reflexivity|].
  replace (Z.of_nat (length (a :: b :: t)) <? 2) with false
    by (symmetry; apply Z.ltb_ge; simpl length; lia).
  simpl tl.
  replace (length (a :: b :: t) - 1)%nat with (length (b :: t)) by (simpl; lia).
  generalize (b :: t) as l. intros l. revert a.
  induction l as [|c l IH]; intros a; [reflexivity|].
  simpl combine. simpl map. simpl length. simpl seq.
  cbn [map nth]. f_equal.
  rewrite IH. rewrite <- seq_shift, map_map. reflexivity.
Qed.

Lemma firstn_removelast {A : Type} (l : list A) :
  firstn (length l - 1) l = removelast l.
Proof.
  induction l as [|x t IH]; [reflexivity|].
  destruct t as [|y t]; [reflexivity|].
  replace (length (x :: y :: t) - 1)%nat with (S (length (y :: t) - 1)) by (simpl; lia).
  cbn [firstn]. rewrite IH. reflexivity.
Qed.

Lemma tile_sizes_spec (refs : list (list Z)) : tile_sizes refs = spec_sizes refs.
Proof.
  unfold tile_sizes, spec_sizes. rewrite firstn_removelast.
  induction (removelast refs) as [|r t IH]; [reflexivity|].
  simpl. rewrite IH, ref_sizes_spec. reflexivity.
Qed.

(** [float64(m) == 0] holds for [m = 0] only. *)
Lemma f64_of_Z_eq0 (m : Z) : F64.eqb (F64.of_Z m) (S754_zero false) = (m =? 0).
Proof.
  unfold F64.eqb, F64.of_Z, binary_normalize.
  destruct m as [|p|p]; [reflexivity| |];
    (pose proof (binary_round_nonzero F64.prec F64.emax ltac:(reflexivity)) as H;
     match goal with
     | |- SFeqb (binary_round _ _ ?s _ _) _ = _ => specialize (H s p 0)
     end;
     pose proof (digits2_pos_bounds p);
     assert (0 < Zpos (digits2_pos p)) by lia;
     specialize (H ltac:(unfold fexp, emin, F64.prec, F64.emax; lia));
     destruct (binary_round F64.prec F64.emax _ p 0) as [s|[|]| |[|] m e];
     try contradiction; reflexivity).
Qed.

Lemma skip_zeros_spec (sizes : list Z) (fuel i : nat) :
  (i <= length sizes)%nat -> (length sizes - i <= fuel)%nat ->
  let j := skip_zeros sizes i fuel in
  (i <= j <= length sizes)%nat /\
  (forall k, (i <= k < j)%nat -> nth k sizes 0 = 0) /\
  ((j < length sizes)%nat -> nth j sizes 0 <> 0).
Proof.
  revert i. induction fuel as [|fuel IH]; intros i Hi Hf; simpl.
  - repeat split; try lia; intros; lia.
  - destruct (nth_error sizes i) as [v|] eqn:E.
    + assert (Hlt : (i < length sizes)%nat) by (apply nth_error_Some; congruence).
      pose proof (nth_error_nth _ _ 0 E) as Hv.
      destruct (Z.eqb_spec v 0) as [V|V].
      * destruct (IH (S i) ltac:(lia) ltac:(lia)) as (J1 & J2 & J3).
        split; [lia|]. split; [|exact J3].
        intros k Hk. destruct (Nat.eq_dec k i) as [->|]; [lia|].
        apply J2. lia.
      * repeat split; try lia; intros; lia.
    + apply nth_error_None in E. repeat split; try lia; intros; lia.
Qed.

Lemma filter_pos_skipn (l : list Z) (j : nat) :
  (j <= length l)%nat ->
  (forall k, (k < j)%nat -> nth k l 0 <= 0) ->
  (forall k, (j <= k < length l)%nat -> 0 < nth k l 0) ->
  positive_sizes l = skipn j l.
Proof.
  revert j. induction l as [|x t IH]; intros j Hj Hlow Hhigh.
  - destruct j; reflexivity.
  - destruct j as [|j].
    + cbn [skipn]. unfold positive_sizes. cbn [filter].
      pose proof (Hhigh 0%nat ltac:(simpl; lia)) as H0. cbn [nth] in H0.
      replace (0 <? x) with true by (symmetry; apply Z.ltb_lt; lia).
      f_equal. apply (IH 0%nat); [lia | intros; lia |].
      intros k Hk. apply (Hhigh (S k)). simpl. lia.
    + cbn [skipn]. unfold positive_sizes. cbn [filter].
      pose proof (Hlow 0%nat ltac:(lia)) as H0. cbn [nth] in H0.
      replace (0 <? x) with false by (symmetry; apply Z.ltb_ge; lia).
      apply IH.
      * simpl in Hj. lia.
      * intros k Hk. apply (Hlow (S k)). lia.
      * intros k Hk. apply (Hhigh (S k)). simpl. lia.
Qed.

Lemma median_size_cases (unsorted : list Z) :
  let sizes := sort_Slice Z.ltb unsorted in
  let mid := (length sizes / 2)%nat in
  match nth_error sizes mid with
  | None => unsorted = [] /\ median_size unsorted = None
  | Some m =>
      if m =? 0 then
        let rest := positive_sizes sizes in
        median_size unsorted = nth_error rest (length rest / 2)
      else median_size unsorted = Some m
  end.
Proof.
  intros sizes mid. unfold median_size. fold sizes. fold mid.
  destruct (nth_error sizes mid) as [m|] eqn:E.
  - rewrite f64_of_Z_eq0.
    destruct (Z.eqb_spec m 0) as [M0|M0]; [|reflexivity].
    cbv zeta.
    assert (Hmid : (mid < length sizes)%nat) by (apply nth_error_Some; congruence).
    pose proof (skip_zeros_spec sizes (length sizes) mid ltac:(lia) ltac:(lia)) as H.
    cbv zeta in H. set (j := skip_zeros sizes mid (length sizes)) in *.
    destruct H as (J1 & J2 & J3).
    pose proof (sort_int64_sorted unsorted) as Hs. fold sizes in Hs.
    pose proof (nth_error_nth _ _ 0 E) as Em. subst m.
    rewrite (filter_pos_skipn sizes j); try lia; try reflexivity.
    + intros k Hk. destruct (Nat.le_gt_cases mid k).
      * rewrite J2 by lia. lia.
      * pose proof (sorted_nth_le sizes k mid Hs ltac:(lia)). lia.
    + intros k Hk. specialize (J3 ltac:(lia)).
      pose proof (sorted_nth_le sizes mid j Hs ltac:(lia)).
      pose proof (sorted_nth_le sizes j k Hs ltac:(lia)). lia.
  - split; [|reflexivity].
    apply nth_error_None in E.
    assert (L : length sizes = length unsorted) by apply sort_Slice_length.
    destruct unsorted as [|x t]; [reflexivity|].
    exfalso. subst mid. rewrite L in *. simpl length in *.
    pose proof (Nat.div_lt (S (length t)) 2 ltac:(lia) ltac:(lia)). lia.
Qed.

Lemma nth_error_mid_none {A : Type} (l : list A) :
  nth_error l (length l / 2) = None <-> l = [].
Proof.
  split.
  - intros H. apply nth_error_None in H.
    destruct l as [|x t]; [reflexivity|]. exfalso.
    pose proof (Nat.div_lt (length (x :: t)) 2 ltac:(simpl; lia) ltac:(lia)). lia.
  - intros ->. reflexivity.
Qed.

Lemma positive_sizes_pos (l : list Z) (m : Z) : In m (positive_sizes l) -> 0 < m.
Proof.
  unfold positive_sizes. intros H. apply filter_In in H.
  destruct H as [_ H]. apply Z.ltb_lt in H. exact H.
Qed.

(** A median that is returned is never zero. *)
Lemma median_size_nonzero (unsorted : list Z) (m : Z) :
  median_size unsorted = Some m -> m <> 0.
Proof.
  intros Hm. pose proof (median_size_cases unsorted) as Hc. cbv zeta in Hc.
  destruct (nth_error (sort_Slice Z.ltb unsorted) _) as [m0|].
  - destruct (Z.eqb_spec m0 0) as [M0|M0].
    + rewrite Hc in Hm. apply nth_error_In in Hm.
      apply positive_sizes_pos in Hm. lia.
    + congruence.
  - destruct Hc as [_ H2]. congruence.
Qed.

(** C2, as the code has it.  The differences are taken over the references
    except the last, a reference with fewer than two entries gives none, and
    they are sorted.  When the middle entry is not zero it is the median;
    when it is zero, the median is retaken over what follows the zeros,
    which is the list of the differences greater than zero.  The computation
    fails (an index out of range; there is no error value) exactly when
    there is no difference at all, or when the middle entry is zero and no
    difference is greater than zero; a median that is returned is never
    zero.  Nothing asks for three non-zero differences. *)
Theorem median_tile_size (refs : list (list Z)) :
  let sizes := sort_Slice Z.ltb (tile_sizes refs) in
  let mid := (length sizes / 2)%nat in
  let rest := positive_sizes sizes in
  tile_sizes refs = spec_sizes refs /\
  StronglySorted Z.le sizes /\ Permutation sizes (spec_sizes refs) /\
  match nth_error sizes mid with
  | None => spec_sizes refs = [] /\ median_size (tile_sizes refs) = None
  | Some m =>
      if m =? 0 then median_size (tile_sizes refs) = nth_error rest (length rest / 2)
      else median_size (tile_sizes refs) = Some m
  end /\
  (median_size (tile_sizes refs) = None <->
   spec_sizes refs = [] \/ (nth_error sizes mid = Some 0 /\ rest = [])) /\
  (forall m, median_size (tile_sizes refs) = Some m -> m <> 0) /\
  (forall b x, init (mkIndex (Some refs) b x) =
               option_map (fun m => mkIndex None (F64.of_Z m) refs)
                          (median_size (tile_sizes refs))).
Proof.
  intros sizes mid rest.
  pose proof (tile_sizes_spec refs) as Hspec.
  pose proof (median_size_cases (tile_sizes refs)) as Hc.
  cbv zeta in Hc. fold sizes in Hc. fold mid in Hc. fold rest in Hc.
  split; [exact Hspec|].
  split; [apply sort_int64_sorted|].
  split; [rewrite <- Hspec; apply sort_Slice_perm|].
  rewrite <- Hspec.
  split; [exact Hc|].
  assert (Hlen : length sizes = length (tile_sizes refs)) by apply sort_Slice_length.
  split; [|split].
  - destruct (nth_error sizes mid) as [m|] eqn:E.
    + destruct (Z.eqb_spec m 0) as [M0|M0].
      * rewrite Hc, nth_error_mid_none. subst m. split.
        -- intros R. right. split; [reflexivity | exact R].
        -- intros [H|[_ H]]; [|exact H].
           rewrite H in Hlen.
           assert (mid < length sizes)%nat by (apply nth_error_Some; congruence).
           simpl in Hlen. lia.
      * rewrite Hc. split; [discriminate|].
        intros [H|[H _]]; [|congruence].
        rewrite H in Hlen.
        assert (mid < length sizes)%nat by (apply nth_error_Some; congruence).
        simpl in Hlen. lia.
    + destruct Hc as [H1 H2]. split; [intros _; left; exact H1 | intros _; exact H2].
  - intros m Hm. exact (median_size_nonzero _ m Hm).
  - intros b x. unfold init. simpl bai. unfold getRefs.
    destruct (median_size (tile_sizes refs)); reflexivity.
Qed.

(** C2, the sentence of the spec refuted: the references
    [[0; 0; 0; 7]] and [[]] give the differences [0; 0; 7], one of which is
    not zero, and the median is 7, not a failure. *)
Lemma median_without_three_nonzero :
  count_nonzero (tile_sizes [[0; 0; 0; 7]; []]) = 1 /\
  median_size (tile_sizes [[0; 0; 0; 7]; []]) = Some 7 /\
  init (mkIndex (Some [[0; 0; 0; 7]; []]) (S754_zero false) []) =
  Some (mkIndex None (F64.of_Z 7) [[0; 0; 0; 7]; []]).
Proof. vm_compute. repeat split. Qed.

(** ** Normalized depth *)

Lemma index_nth {A : Type} (s : list A) (k : nat) (d : A) :
  (k < length s)%nat -> index s (Z.of_nat k) = Some (nth k s d).
Proof.
  intros H. unfold index.
  replace (Z.of_nat k <? 0) with false by (symmetry; apply Z.ltb_ge; lia).
  rewrite Nat2Z.id. apply nth_error_nth'. exact H.
Qed.

Lemma firstn_skipn_cons {A : Type} (l : list A) (k n : nat) (d : A) :
  (k < length l)%nat ->
  firstn (S n) (skipn k l) = nth k l d :: firstn n (skipn (S k) l).
Proof.
  revert k. induction l as [|x t IH]; intros k Hk; [simpl in Hk; lia|].
  destruct k as [|k]; [reflexivity|].
  cbn [skipn nth]. apply IH. simpl in Hk. lia.
Qed.

Lemma depth_loop_spec (M : float64) (ref : list Z) (si i : Z) (n k : nat) :
  si + i = Z.of_nat k -> (k + n < length ref)%nat ->
  depth_loop M ref si i (firstn n (skipn k ref)) =
  Some (map (fun j => tile_depth M (nth (S j) ref 0) (nth j ref 0)) (seq k n)).
Proof.
  revert i k. induction n as [|n IH]; intros i k Hk Hn; [reflexivity|].
  rewrite (firstn_skipn_cons ref k n 0) by lia.
  cbn [depth_loop seq map].
  replace (si + i + 1) with (Z.of_nat (S k)) by lia.
  rewrite (index_nth ref (S k) 0) by lia.
  rewrite (IH (i + 1) (S k)) by lia.
  reflexivity.
Qed.

Lemma tile_depth_clamped (M : float64) (next o : Z) :
  F32.gtb (tile_depth M next o) MaxCN = false.
Proof.
  unfold tile_depth.
  destruct (F32.gtb (F32.of_f64 (F64.div (F64.of_Z (int_sub next o)) M)) MaxCN) eqn:E.
  - reflexivity.
  - exact E.
Qed.

Lemma ensure_init_median (x x' : Index) :
  ensure_init x = Some x' -> F64.eqb (medianSizePerTile x') (S754_zero false) = false.
Proof.
  unfold ensure_init.
  destruct (F64.eqb (medianSizePerTile x) (S754_zero false)) eqn:E.
  - unfold init. destruct (bai x) as [b|]; [|discriminate].
    destruct (median_size (tile_sizes (getRefs b))) as [m|] eqn:Em; [|discriminate].
    intros H. injection H as <-. simpl medianSizePerTile.
    rewrite f64_of_Z_eq0.
    apply Z.eqb_neq. exact (median_size_nonzero _ m Em).
  - intros H. injection H as <-. exact E.
Qed.

(** The value that the loop of [NormalizedDepth] computes for a tile is the
    quotient of the spec, clamped, when the offsets are not negative. *)
Lemma tile_depth_quotient (M : float64) (next o : Z) :
  0 <= o < 2 ^ 63 -> 0 <= next < 2 ^ 63 ->
  tile_depth M next o = spec_clamp (spec_quotient M o next).
Proof.
  intros Ho Hn. unfold tile_depth, spec_clamp, spec_quotient, int_sub.
  rewrite wrap64_small
    by (unfold in_int64, min_int64, max_int64; apply andb_true_intro;
        split; apply Z.leb_le; lia).
  reflexivity.
Qed.

Lemma nth_bounded (ref : list Z) (i : nat) :
  Forall (fun v => 0 <= v < 2 ^ 63) ref -> 0 <= nth i ref 0 < 2 ^ 63.
Proof.
  intros H. destruct (Nat.lt_ge_cases i (length ref)) as [Hi|Hi].
  - rewrite Forall_forall in H. apply H. apply nth_In. exact Hi.
  - rewrite nth_overflow by exact Hi. lia.
Qed.

Lemma spec_depths_window (M : float64) (ref : list Z) (start end_ : Z) :
  Forall (fun v => 0 <= v < 2 ^ 63) ref ->
  spec_depths M ref start end_ = spec_normalized M ref start end_.
Proof.
  intros Hb. unfold spec_depths, spec_normalized.
  assert (E : Z.min (if end_ =? 0 then len ref else end_ / TileWidth) (len ref - 1) =
              (if end_ =? 0 then len ref - 1 else Z.min (end_ / TileWidth) (len ref - 1))).
  { destruct (end_ =? 0); lia. }
  rewrite E. cbv zeta.
  destruct (_ <=? _); [reflexivity|].
  apply map_ext. intros i. symmetry.
  apply tile_depth_quotient; apply nth_bounded; exact Hb.
Qed.

(** C5. [NormalizedDepth] returns the vector that the spec describes: with
    [s = floor(start / T)] and [e = min(floor(end / T), len(ref) - 1)]
    ([end = 0] standing for the whole reference) it is empty when [e <= s]
    and otherwise holds [(ref[i+1] - ref[i]) / M_s], clamped at [C_max = 6],
    for [i] in [[s, e)]: entry [i - s] is that quotient, and no entry is
    above [C_max]; with [start = 0] and [end = 0] it has [len(ref) - 1]
    entries.  [M_s] is the median of the index, computed on the first call,
    and is not zero.  Positions are not negative, and the tile offsets are
    offsets in a file: not negative. *)
Theorem NormalizedDepth_spec (x x' : Index) (refID start end_ : Z) (ref : list Z) :
  ensure_init x = Some x' ->
  index (refs x') refID = Some ref ->
  0 <= start -> 0 <= end_ ->
  Forall (fun v => 0 <= v < 2 ^ 63) ref ->
  let M := medianSizePerTile x' in
  let s := start / TileWidth in
  let e := Z.min (if end_ =? 0 then len ref else end_ / TileWidth) (len ref - 1) in
  NormalizedDepth x refID start end_ = Some (x', spec_depths M ref start end_) /\
  (e <= s -> spec_depths M ref start end_ = []) /\
  (s < e -> length (spec_depths M ref start end_) = Z.to_nat (e - s)) /\
  (forall i, s <= i < e ->
     nth (Z.to_nat (i - s)) (spec_depths M ref start end_) S754_nan =
     spec_clamp (F32.of_f64
       (F64.div (F64.of_Z (nth (Z.to_nat (i + 1)) ref 0 - nth (Z.to_nat i) ref 0)) M))) /\
  F64.eqb M (S754_zero false) = false /\
  (forall d, In d (spec_depths M ref start end_) -> F32.gtb d MaxCN = false) /\
  MaxCN = F32.of_Z 6 /\ C_max = MaxCN /\
  length (spec_depths M ref 0 0) = (length ref - 1)%nat.
Proof.
  intros Hi Hr Hs He Hb M s e.
  assert (HT : 0 < TileWidth) by reflexivity.
  pose proof (Z.div_pos start TileWidth Hs HT) as Hs0. fold s in Hs0.
  assert (Ew : forall a b, spec_depths M ref a b = spec_normalized M ref a b)
    by (intros; apply spec_depths_window; exact Hb).
  assert (Es : spec_depths M ref start end_ =
               if e <=? s then []
               else map (fun i => spec_clamp (spec_quotient M (nth i ref 0) (nth (S i) ref 0)))
                        (seq (Z.to_nat s) (Z.to_nat (e - s)))) by reflexivity.
  split; [|split; [|split; [|split; [|split; [|split; [|split; [|split]]]]]]].
  - rewrite Ew. unfold NormalizedDepth. rewrite Hi, Hr. fold M.
    unfold spec_normalized.
    rewrite !Z.quot_div_nonneg by lia.
    pose proof (Z.div_pos end_ TileWidth He HT) as He0.
    fold s. set (e0 := end_ / TileWidth) in *.
    assert (Hei : (if (end_ =? 0) || (len ref <=? e0) then len ref - 1 else e0) =
                  (if end_ =? 0 then len ref - 1 else Z.min e0 (len ref - 1))).
    { destruct (end_ =? 0); [reflexivity|]. simpl orb.
      destruct (Z.leb_spec (len ref) e0); lia. }
    rewrite Hei. clear Hei.
    set (e1 := if end_ =? 0 then len ref - 1 else Z.min e0 (len ref - 1)).
    assert (Hel : e1 <= len ref - 1) by (subst e1; destruct (end_ =? 0); lia).
    destruct (Z.leb_spec e1 s) as [Hes|Hes]; [reflexivity|].
    unfold slice.
    replace ((0 <=? s) && (s <=? e1) && (e1 <=? len ref)) with true
      by (symmetry; rewrite !andb_true_iff, !Z.leb_le; lia).
    unfold len in Hel.
    rewrite (depth_loop_spec M ref s 0 (Z.to_nat (e1 - s)) (Z.to_nat s)) by lia.
    reflexivity.
  - intros H. rewrite Es.
    replace (e <=? s) with true by (symmetry; apply Z.leb_le; exact H). reflexivity.
  - intros H. rewrite Es.
    replace (e <=? s) with false by (symmetry; apply Z.leb_gt; exact H).
    rewrite length_map, length_seq. reflexivity.
  - intros i Hie. rewrite Es.
    replace (e <=? s) with false by (symmetry; apply Z.leb_gt; lia).
    set (f := fun i0 => spec_clamp (spec_quotient M (nth i0 ref 0) (nth (S i0) ref 0))).
    rewrite (nth_indep _ S754_nan (f 0%nat))
      by (rewrite length_map, length_seq; lia).
    rewrite (map_nth f), seq_nth by lia.
    subst f. cbv beta. unfold spec_quotient.
    replace (Z.to_nat s + Z.to_nat (i - s))%nat with (Z.to_nat i) by lia.
    replace (S (Z.to_nat i)) with (Z.to_nat (i + 1)) by lia.
    reflexivity.
  - eapply ensure_init_median; eauto.
  - rewrite Ew. unfold spec_normalized. intros d Hd.
    match type of Hd with context [if ?c then _ else _] => destruct c end;
      [contradiction|].
    apply in_map_iff in Hd. destruct Hd as (i & <- & _).
    apply tile_depth_clamped.
  - reflexivity.
  - reflexivity.
  - rewrite Ew. unfold spec_normalized. change (0 =? 0) with true. cbv iota.
    change (0 / TileWidth) with 0.
    unfold len. destruct (Z.leb_spec (Z.of_nat (length ref) - 1) 0) as [H|H].
    + simpl. lia.
    + rewrite length_map, length_seq. lia.
Qed.

Lemma NormalizedDepth_spec_witness :
  let x := mkIndex (Some [[0; 100; 200; 350; 1000]; [0; 100; 200; 300]; [1; 2]])
                   (S754_zero false) [] in
  let x' := mkIndex None (F64.of_Z 100)
                    [[0; 100; 200; 350; 1000]; [0; 100; 200; 300]; [1; 2]] in
  ensure_init x = Some x' /\
  index (refs x') 0 = Some [0; 100; 200; 350; 1000] /\
  0 <= 16384 /\ 0 <= 49152 /\
  Forall (fun v => 0 <= v < 2 ^ 63) [0; 100; 200; 350; 1000] /\
  NormalizedDepth x 0 16384 49152 =
  Some (x', spec_depths (F64.of_Z 100) [0; 100; 200; 350; 1000] 16384 49152).
Proof.
  intros x x'.
  assert (H1 : ensure_init x = Some x') by (vm_compute; reflexivity).
  assert (H2 : index (refs x') 0 = Some [0; 100; 200; 350; 1000]) by reflexivity.
  assert (H3 : 0 <= 16384) by lia.
  assert (H4 : 0 <= 49152) by lia.
  assert (H5 : Forall (fun v => 0 <= v < 2 ^ 63) [0; 100; 200; 350; 1000])
    by (repeat constructor; lia).
  split; [exact H1|]. split; [exact H2|]. split; [exact H3|]. split; [exact H4|].
  split; [exact H5|].
  exact (proj1 (NormalizedDepth_spec x x' 0 16384 49152 _ H1 H2 H3 H4 H5)).
Defined.

(** ** Copy number *)

Lemma Zdigits2_le_pow2 (n k : Z) : 0 < n -> n < 2 ^ k -> 0 <= k -> Zdigits2 n <= k.
Proof.
  intros Hn Hk Hk0. pose proof (Zdigits2_bounds n Hn) as [B _].
  destruct (Z_lt_le_dec k (Zdigits2 n)); [|lia].
  assert (2 ^ k <= 2 ^ (Zdigits2 n - 1)) by (apply Z.pow_le_mono_r; lia). lia.
Qed.

(** An integer below [2 ^ 53] converts to [float64] without rounding. *)
Lemma f64_of_Z_exact (n : Z) :
  0 < n < 2 ^ 53 ->
  F64.of_Z n = S754_finite false (Z.to_pos (n * 2 ^ (53 - Zdigits2 n))) (Zdigits2 n - 53).
Proof.
  intros [H0 H1]. destruct n as [|p|p]; try lia.
  unfold F64.of_Z, binary_normalize.
  pose proof (Zdigits2_le_pow2 (Zpos p) 53 H0 H1 ltac:(lia)) as Hd.
  pose proof (Zdigits2_pos (Zpos p) H0) as Hd0.
  change (Zdigits2 (Zpos p)) with (Zpos (digits2_pos p)) in *.
  pose proof (binary_round_exact_up F64.prec F64.emax ltac:(reflexivity) false p 0) as H.
  cbv zeta in H.
  assert (HE : fexp F64.prec F64.emax (Zpos (digits2_pos p) + 0) = Zpos (digits2_pos p) - 53).
  { unfold fexp, emin, F64.prec, F64.emax. lia. }
  rewrite HE in H. rewrite H by (unfold F64.prec, F64.emax; lia).
  f_equal. f_equal. f_equal. f_equal. lia.
Qed.

Lemma half64_eq : half64 = S754_finite false (2 ^ 52) (-53).
Proof. vm_compute. reflexivity. Qed.

(** [int(float64(n) * 0.5)] is [n / 2]. *)
Lemma median_index (n : Z) :
  0 <= n < 2 ^ 53 -> int_of_float (F64.mul (F64.of_Z n) half64) = n / 2.
Proof.
  intros [H0 H1]. destruct (Z.eq_dec n 0) as [->|Hn]; [reflexivity|].
  assert (Hpos : 0 < n) by lia.
  rewrite f64_of_Z_exact by lia. rewrite half64_eq.
  pose proof (Zdigits2_le_pow2 n 53 Hpos H1 ltac:(lia)) as Hd.
  pose proof (Zdigits2_pos n Hpos) as Hd0.
  set (d := Zdigits2 n) in *.
  assert (Hp : 0 < 2 ^ (53 - d)) by (apply Z.pow_pos_nonneg; lia).
  set (mx := Z.to_pos (n * 2 ^ (53 - d))).
  assert (Hmx : Zpos mx = n * 2 ^ (53 - d)) by (subst mx; apply Z2Pos.id; nia).
  assert (Hdx : Zdigits2 (Zpos mx) = 53).
  { rewrite Hmx, Zdigits2_mul_pow2 by lia. fold d. lia. }
  unfold F64.mul. rewrite SFmul_round by (vm_compute; discriminate).
  assert (Hdm : Zpos (digits2_pos (mx * 2 ^ 52)) = 105).
  { change (Zpos (digits2_pos (mx * 2 ^ 52))) with (Zdigits2 (Zpos (mx * 2 ^ 52))).
    rewrite Pos2Z.inj_mul. change (Zpos (2 ^ 52)) with (2 ^ 52).
    rewrite Zdigits2_mul_pow2 by lia. lia. }
  pose proof (binary_round_exact_down F64.prec F64.emax ltac:(reflexivity)
                false (mx * 2 ^ 52) (d - 53 + -53) (Zpos mx)) as H.
  cbv zeta in H. rewrite Hdm in H.
  assert (HE : fexp F64.prec F64.emax (105 + (d - 53 + -53)) = d - 54).
  { unfold fexp, emin, F64.prec, F64.emax. lia. }
  rewrite HE in H.
  rewrite H.
  - rewrite Pos2Z.id. unfold int_of_float, trunc. unfold cond_Zopp.
    assert (Ht : Z.shiftl (Zpos mx) (d - 54) = n / 2).
    { rewrite Hmx.
      replace (53 - d) with (-1 - (d - 54)) by lia.
      rewrite shiftl_scale by lia.
      rewrite Z.shiftl_div_pow2 by lia. reflexivity. }
    rewrite Ht.
    assert (0 <= n / 2 < 2 ^ 53).
    { split; [apply Z.div_pos; lia|]. apply Z.div_lt_upper_bound; lia. }
    replace (in_int64 (n / 2)) with true; [reflexivity|].
    symmetry. unfold in_int64, min_int64, max_int64.
    apply andb_true_intro. split; apply Z.leb_le; lia.
  - lia.
  - rewrite Pos2Z.inj_mul. change (Zpos (2 ^ 52)) with (2 ^ 52).
    replace (d - 54 - (d - 53 + -53)) with 52 by lia. reflexivity.
  - unfold F64.prec, F64.emax. lia.
Qed.

Lemma sort_f32_sorted (l : list float32) :
  Forall (fun d => is_nan d = false) l ->
  StronglySorted (fun a b => F32.leb a b = true) (sort_Slice F32.ltb l).
Proof.
  apply (sort_Slice_sorted F32.ltb (fun a b => F32.leb a b = true)
                           (fun d => is_nan d = false)).
  - intros x y z. apply SFleb_trans.
  - intros x y. apply SFltb_leb.
  - intros x y Hx Hy H. unfold F32.ltb in H. unfold F32.leb.
    rewrite (SFltb_negb_leb x y Hx Hy) in H.
    destruct (SFleb y x); [reflexivity | discriminate].
Qed.

Lemma sample_CN_spec (d : list float32) :
  len d < 2 ^ 53 ->
  let tmp := sort_Slice F32.ltb (filter (fun dp => F32.neqb dp (S754_zero false)) d) in
  sample_CN d = Some (match nth_error tmp (length tmp / 2) with
                      | Some v => F64.of_f32 (F32.mul (F32.of_Z Ploidy) v)
                      | None => F64.of_Z (-1)
                      end).
Proof.
  intros Hl tmp. unfold sample_CN.
  set (tmp0 := filter (fun dp => F32.neqb dp (S754_zero false)) d) in *.
  assert (Hlen : length tmp = length tmp0) by apply sort_Slice_length.
  assert (Hle : (length tmp0 <= length d)%nat) by apply filter_length_le.
  unfold len in *.
  destruct (Z.ltb_spec 0 (Z.of_nat (length tmp0))) as [Hpos|Hz].
  - fold tmp. rewrite median_index by lia.
    unfold index.
    assert (0 <= Z.of_nat (length tmp) / 2) by (apply Z.div_pos; lia).
    replace (Z.of_nat (length tmp) / 2 <? 0) with false
      by (symmetry; apply Z.ltb_ge; lia).
    replace (Z.to_nat (Z.of_nat (length tmp) / 2)) with (length tmp / 2)%nat.
    + destruct (nth_error tmp (length tmp / 2)) eqn:E; [reflexivity|].
      apply nth_error_mid_none in E. rewrite E in Hlen. simpl in Hlen. lia.
    + change 2 with (Z.of_nat 2). rewrite <- Nat2Z.inj_div, Nat2Z.id. reflexivity.
  - assert (E0 : tmp0 = []) by (destruct tmp0; [reflexivity | simpl in Hz; lia]).
    subst tmp. rewrite E0. reflexivity.
Qed.

(** [GetCN] returns, with one entry per sample, when no depth vector has
    [2 ^ 53] entries or more. *)
Lemma GetCN_total (depths : list (list float32)) :
  Forall (fun d => len d < 2 ^ 53) depths ->
  exists cns,
    GetCN depths = Some cns /\ length cns = length depths /\
    forall k d, nth_error depths k = Some d -> nth_error cns k = sample_CN d.
Proof.
  induction 1 as [|d rest Hd Hrest IH].
  - exists []. repeat split. intros [|k] d; discriminate.
  - destruct IH as (cns & E & L & N).
    pose proof (sample_CN_spec d Hd) as Hs. cbv zeta in Hs.
    cbn [GetCN]. rewrite Hs, E. cbn [option_map].
    eexists. split; [reflexivity|]. split; [simpl; rewrite L; reflexivity|].
    intros [|k] d' Hk.
    + injection Hk as <-. rewrite Hs. reflexivity.
    + cbn [nth_error] in *. apply N. exact Hk.
Qed.

(** C4. [GetCN] returns one value per sample; for the depth vector of every
    sample it discards the entries equal to zero, sorts the rest in ascending
    order, and returns the ploidy, 2, times the entry at index
    [floor(n * 0.5)] of the [n] entries kept, or the sentinel -1 when none is
    kept; [1.0, 0.0, 0.0, 0.95, 1.05, 1.02] gives 2.04 (the [float32] 2.04,
    widened). *)
Theorem GetCN_spec (depths : list (list float32)) :
  Forall (fun d => len d < 2 ^ 53) depths ->
  exists cns,
    GetCN depths = Some cns /\ length cns = length depths /\
    (forall k d,
       nth_error depths k = Some d -> Forall (fun v => is_nan v = false) d ->
       exists tmp,
         Permutation tmp (filter (fun dp => F32.neqb dp (S754_zero false)) d) /\
         StronglySorted (fun a b => F32.leb a b = true) tmp /\
         (forall v, In v tmp -> F32.eqb v (S754_zero false) = false) /\
         nth_error cns k =
           Some (match nth_error tmp (length tmp / 2) with
                 | Some v => F64.of_f32 (F32.mul (F32.of_Z Ploidy) v)
                 | None => F64.of_Z (-1)
                 end) /\
         (tmp = [] <-> nth_error tmp (length tmp / 2) = None)) /\
    Ploidy = 2 /\
    GetCN [[F32.of_Z 1; F32.of_Z 0; F32.of_Z 0; F32.const 95 100; F32.const 105 100;
            F32.const 102 100]] = Some [F64.of_f32 (F32.const 204 100)].
Proof.
  intros Hl.
  destruct (GetCN_total depths Hl) as (cns & E & L & N).
  exists cns. split; [exact E|]. split; [exact L|].
  split; [|split; [reflexivity | vm_compute; reflexivity]].
  intros k d Hk Hn.
  exists (sort_Slice F32.ltb (filter (fun dp => F32.neqb dp (S754_zero false)) d)).
  split; [apply sort_Slice_perm|].
  split.
  { apply sort_f32_sorted. rewrite Forall_forall in *. intros v Hv.
    apply filter_In in Hv. apply Hn. tauto. }
  split.
  { intros v Hv. apply (Permutation_in _ (sort_Slice_perm F32.ltb _)) in Hv.
    apply filter_In in Hv. destruct Hv as [_ Hv]. unfold F32.neqb in Hv.
    unfold F32.eqb. destruct (SFeqb v (S754_zero false)); [discriminate | reflexivity]. }
  split.
  { rewrite (N k d Hk). apply sample_CN_spec.
    rewrite Forall_forall in Hl. apply Hl. eapply nth_error_In; eassumption. }
  symmetry; apply nth_error_mid_none.
Qed.

Lemma GetCN_spec_witness :
  let d := [F32.of_Z 1; F32.of_Z 0; F32.const 3 2] in
  Forall (fun d => len d < 2 ^ 53) [d] /\
  exists cns, GetCN [d] = Some cns /\ length cns = 1%nat.
Proof.
  intros d.
  assert (H1 : Forall (fun d => len d < 2 ^ 53) [d])
    by (repeat constructor; vm_compute; reflexivity).
  split; [exact H1|].
  destruct (GetCN_spec [d] H1) as (cns & E & L & _).
  exists cns. split; [exact E | exact L].
Defined.

(** ** Histogram slots *)

Lemma set_nth_spec {A : Type} (s : list A) (i : nat) (v d : A) :
  (i < length s)%nat ->
  exists s', set_nth s i v = Some s' /\ length s' = length s /\
             forall j, nth j s' d = if (j =? i)%nat then v else nth j s d.
Proof.
  revert i. induction s as [|x t IH]; intros i Hi; [simpl in Hi; lia|].
  destruct i as [|i].
  - exists (v :: t). repeat split. intros [|j]; reflexivity.
  - destruct (IH i ltac:(simpl in Hi; lia)) as (t' & E & L & N).
    exists (x :: t'). simpl. rewrite E. repeat split.
    + simpl. rewrite L. reflexivity.
    + intros [|j]; [reflexivity|]. simpl. apply N.
Qed.

Lemma incr_spec (counts : list Z) (s : Z) :
  0 <= s < len counts ->
  exists counts', incr counts s = Some counts' /\ len counts' = len counts /\
    forall i, nth i counts' 0 =
              if Z.of_nat i =? s then int_add (nth i counts 0) 1 else nth i counts 0.
Proof.
  intros Hs. unfold incr, update, index, len in *.
  replace (s <? 0) with false by (symmetry; apply Z.ltb_ge; lia).
  assert (Hlt : (Z.to_nat s < length counts)%nat) by lia.
  rewrite (nth_error_nth' counts 0 Hlt).
  destruct (set_nth_spec counts (Z.to_nat s) (int_add (nth (Z.to_nat s) counts 0) 1) 0 Hlt)
    as (c' & E & L & N).
  exists c'. split; [exact E|]. split; [rewrite L; reflexivity|].
  intros i. rewrite N.
  destruct (Nat.eqb_spec i (Z.to_nat s)) as [->|Hne].
  - rewrite Z2Nat.id by lia. rewrite Z.eqb_refl. reflexivity.
  - destruct (Z.eqb_spec (Z.of_nat i) s); [lia | reflexivity].
Qed.

Lemma f32_nnf (d L : float32) :
  F32.valid d = true -> F32.leb (S754_zero false) d = true ->
  nnf F32.prec F32.emax L = true -> F32.leb d L = true ->
  nnf F32.prec F32.emax d = true.
Proof.
  unfold F32.valid, F32.leb.
  destruct d as [s|[|]| |[|] m e]; simpl; intros V H0 HL H; try discriminate; auto.
  destruct L as [s'|[|]| |[|] m' e']; simpl in *; discriminate.
Qed.

Lemma slot_consts :
  slot_scale = S754_finite false 12233387 (-18) /\
  half32 = S754_finite false 8388608 (-24) /\
  nnf F32.prec F32.emax depth_limit = true /\
  nnf F32.prec F32.emax (F32.mul depth_limit slot_scale) = true /\
  nnf F32.prec F32.emax (F32.add (F32.mul depth_limit slot_scale) half32) = true /\
  trunc (F32.add (F32.mul depth_limit slot_scale) half32) = Some 6725375626791878656.
Proof. vm_compute. repeat split. Qed.

(** The slot value of a depth is monotone in the depth. *)
Lemma slot_value_mono (d1 d2 : float32) :
  nnf F32.prec F32.emax d1 = true -> nnf F32.prec F32.emax d2 = true ->
  F32.leb d2 depth_limit = true -> F32.leb d1 d2 = true ->
  let v1 := F32.add (F32.mul d1 slot_scale) half32 in
  let v2 := F32.add (F32.mul d2 slot_scale) half32 in
  nnf F32.prec F32.emax v1 = true /\ nnf F32.prec F32.emax v2 = true /\
  SFleb v1 v2 = true.
Proof.
  intros N1 N2 HL H12.
  destruct slot_consts as (Es & Eh & NL & NLm & NLv & _).
  assert (Hp : 0 < F32.prec) by reflexivity.
  assert (Hc : F32.prec <= Zpos (digits2_pos 12233387)) by (vm_compute; discriminate).
  assert (Hb : bounded F32.prec F32.emax 8388608 (-24) = true) by reflexivity.
  assert (H1L : F32.leb d1 depth_limit = true) by (eapply SFleb_trans; eauto).
  assert (M : forall d, nnf F32.prec F32.emax d = true -> F32.leb d depth_limit = true ->
              nnf F32.prec F32.emax (F32.mul d slot_scale) = true /\
              SFleb (F32.mul d slot_scale) (F32.mul depth_limit slot_scale) = true).
  { intros d Nd Hd.
    assert (Hle : SFleb (F32.mul d slot_scale) (F32.mul depth_limit slot_scale) = true).
    { rewrite Es. apply SFmul_mono; assumption. }
    split; [|exact Hle].
    destruct (SFmul_nonneg_valid F32.prec F32.emax Hp d 12233387 (-18) Hc Nd) as [A B].
    rewrite <- Es in A, B.
    apply (nnf_below F32.prec F32.emax _ (F32.mul depth_limit slot_scale)); assumption. }
  destruct (M d1 N1 H1L) as [Nm1 Lm1]. destruct (M d2 N2 HL) as [Nm2 Lm2].
  assert (Lm12 : SFleb (F32.mul d1 slot_scale) (F32.mul d2 slot_scale) = true).
  { rewrite Es. apply SFmul_mono; assumption. }
  assert (Av : forall x, nnf F32.prec F32.emax x = true ->
               SFleb x (F32.mul depth_limit slot_scale) = true ->
               nnf F32.prec F32.emax (F32.add x half32) = true).
  { intros x Nx Hx.
    assert (Hle : SFleb (F32.add x half32) (F32.add (F32.mul depth_limit slot_scale) half32) = true).
    { rewrite Eh. apply SFadd_mono; assumption. }
    destruct (SFadd_nonneg_valid F32.prec F32.emax Hp x 8388608 (-24) Hb Nx) as [A B].
    rewrite <- Eh in A, B.
    apply (nnf_below F32.prec F32.emax _
             (F32.add (F32.mul depth_limit slot_scale) half32)); assumption. }
  cbv zeta. split; [apply Av; assumption|]. split; [apply Av; assumption|].
  rewrite Eh. apply SFadd_mono; assumption.
Qed.

Lemma nnf_int_of_float (v : spec_float) (z : Z) :
  trunc v = Some z -> 0 <= z < 2 ^ 63 -> nnf F32.prec F32.emax v = true ->
  int_of_float v = z /\ floorZ v = z.
Proof.
  intros Ht Hz Hn. unfold int_of_float. rewrite Ht.
  replace (in_int64 z) with true
    by (symmetry; unfold in_int64, min_int64, max_int64;
        apply andb_true_intro; split; apply Z.leb_le; lia).
  split; [reflexivity|].
  destruct v as [s|[|]| |[|] m e]; simpl in *; try discriminate; congruence.
Qed.

Lemma depth_ok_nnf (d : float32) : depth_ok d -> nnf F32.prec F32.emax d = true.
Proof.
  intros (V & H0 & HL). destruct slot_consts as (_ & _ & NL & _).
  eapply f32_nnf; eauto.
Qed.

Lemma depth_ok_slot (d : float32) :
  depth_ok d ->
  let v := F32.add (F32.mul d slot_scale) half32 in
  exists z, trunc v = Some z /\ 0 <= z < 2 ^ 63 /\ int_of_float v = z /\ floorZ v = z /\
            slot_of d = spec_slot d /\ 0 <= spec_slot d <= 69 /\
            spec_slot d = Z.max 0 (Z.min 69 z).
Proof.
  intros Hd v. pose proof (depth_ok_nnf d Hd) as Nd.
  destruct Hd as (V & H0 & HL).
  destruct slot_consts as (_ & _ & NL & _ & _ & TL).
  destruct (slot_value_mono d depth_limit Nd NL
              (SFleb_refl_nonneg _ (nnf_nonneg _ _ _ NL)) HL) as (Nv & NvL & Hle).
  fold v in Nv, Hle.
  destruct (trunc_mono F32.prec F32.emax ltac:(reflexivity) _ _ Nv NvL Hle)
    as (z1 & z2 & T1 & T2 & Hz).
  rewrite TL in T2. injection T2 as <-.
  assert (Hz1 : 0 <= z1 < 2 ^ 63) by lia.
  destruct (nnf_int_of_float v z1 T1 Hz1 Nv) as [I F].
  exists z1. repeat split; try assumption; try lia.
  - unfold slot_of, tint, spec_slot. fold v. rewrite I, F.
    unfold slots. destruct (Z.ltb_spec z1 70); lia.
  - unfold spec_slot. lia.
  - unfold spec_slot. lia.
  - unfold spec_slot. fold v. rewrite F. reflexivity.
Qed.

Lemma count_depths_ok (depths : list float32) (counts : list Z) :
  len counts = slots -> Forall depth_ok depths ->
  exists counts', count_depths depths counts = Some counts' /\ len counts' = slots.
Proof.
  intros Hl Hd. revert counts Hl. induction Hd as [|d t Hd Ht IH]; intros counts Hl.
  - exists counts. split; [reflexivity | exact Hl].
  - destruct (depth_ok_slot d Hd) as (z & _ & _ & _ & _ & Es & Hr & _).
    destruct (incr_spec counts (slot_of d)) as (c1 & E1 & L1 & _).
    { rewrite Es, Hl. unfold slots. lia. }
    simpl. rewrite E1. apply IH. rewrite L1. exact Hl.
Qed.




(** C9, as the code has it.  With a counts slice whose length is not 70
    [CountsAtDepth] panics, whatever the depths; with a counts slice of
    length 70 and depths in [[0, 2 ^ 57]] it does not panic, every slot index
    being in [[0, 69]]. *)
Theorem CountsAtDepth_panic (depths : list float32) (counts : list Z) :
  (len counts <> slots -> CountsAtDepth depths counts = None) /\
  (len counts = slots -> Forall depth_ok depths ->
   Forall (fun d => 0 <= slot_of d <= 69) depths /\
   exists counts', CountsAtDepth depths counts = Some counts' /\ len counts' = slots).
Proof.
  split.
  - intros H. unfold CountsAtDepth.
    destruct (Z.eqb_spec (len counts) slots); [contradiction | reflexivity].
  - intros Hl Hd. split.
    + rewrite Forall_forall in *. intros d Hi.
      destruct (depth_ok_slot d (Hd d Hi)) as (z & _ & _ & _ & _ & Es & Hr & _).
      rewrite Es. exact Hr.
    + unfold CountsAtDepth. rewrite Hl, Z.eqb_refl. simpl.
      apply count_depths_ok; assumption.
Qed.

Lemma CountsAtDepth_panic_witness :
  len (repeat 0 70) = slots /\
  Forall depth_ok [F32.of_Z 1; F32.of_Z 6; F32.of_Z 0] /\
  len [0; 0; 0] <> slots /\
  CountsAtDepth [F32.of_Z 1] [0; 0; 0] = None /\
  exists counts',
    CountsAtDepth [F32.of_Z 1; F32.of_Z 6; F32.of_Z 0] (repeat 0 70) = Some counts' /\
    len counts' = slots.
Proof.
  assert (H1 : len (repeat 0 70) = slots) by reflexivity.
  assert (H2 : Forall depth_ok [F32.of_Z 1; F32.of_Z 6; F32.of_Z 0])
    by (repeat constructor; vm_compute; reflexivity).
  assert (H3 : len [0; 0; 0] <> slots) by (vm_compute; discriminate).
  split; [exact H1|]. split; [exact H2|]. split; [exact H3|]. split.
  - exact (proj1 (CountsAtDepth_panic [F32.of_Z 1] [0; 0; 0]) H3).
  - exact (proj2 (proj2 (CountsAtDepth_panic _ _) H1 H2)).
Defined.

(** C9, the sentence refuted: the depth [2 ^ 64] is not negative and the
    counts slice has length 70, yet [CountsAtDepth] panics: the slot value
    does not fit an int, the conversion gives the most negative int, and
    [tint] returns it as the index. *)
Lemma CountsAtDepth_huge_depth_panics :
  len (repeat 0 70) = slots /\
  F32.valid (F32.of_Z (2 ^ 64)) = true /\
  F32.leb (S754_zero false) (F32.of_Z (2 ^ 64)) = true /\
  slot_of (F32.of_Z (2 ^ 64)) = min_int64 /\
  CountsAtDepth [F32.of_Z (2 ^ 64)] (repeat 0 70) = None.
Proof. vm_compute. repeat split. Qed.

(** ** ROC *)

Lemma sumZ_app (a b : list Z) : sumZ (a ++ b) = sumZ a + sumZ b.
Proof. induction a as [|x t IH]; simpl; [reflexivity|]. rewrite IH. lia. Qed.

Lemma sumZ_nonneg (l : list Z) : Forall (fun c => 0 <= c) l -> 0 <= sumZ l.
Proof. induction 1; simpl; lia. Qed.

Lemma sumZ_repeat0 (n : nat) : sumZ (repeat 0 n) = 0.
Proof. induction n; simpl; lia. Qed.

Lemma tail_sum_step (counts : list Z) (i : nat) :
  (i < length counts)%nat ->
  tail_sum counts i = nth i counts 0 + tail_sum counts (S i).
Proof.
  unfold tail_sum. revert i. induction counts as [|c t IH]; intros i Hi.
  - simpl in Hi. lia.
  - destruct i as [|i]; [reflexivity|]. simpl in Hi.
    cbn [skipn nth]. apply IH. lia.
Qed.

Lemma tail_sum_bounds (counts : list Z) (i : nat) :
  Forall (fun c => 0 <= c) counts ->
  0 <= tail_sum counts (S i) <= tail_sum counts i /\ tail_sum counts i <= sumZ counts.
Proof.
  intros H. unfold tail_sum.
  assert (A : forall k, 0 <= sumZ (skipn k counts)).
  { intros k. apply sumZ_nonneg. rewrite Forall_forall in *.
    intros x Hx. apply H. rewrite <- (firstn_skipn k counts).
    apply in_or_app. right. exact Hx. }
  assert (B : forall k, sumZ counts = sumZ (firstn k counts) + sumZ (skipn k counts)).
  { intros k. rewrite <- sumZ_app, firstn_skipn. reflexivity. }
  assert (C : forall k, 0 <= sumZ (firstn k counts)).
  { intros k. apply sumZ_nonneg. rewrite Forall_forall in *.
    intros x Hx. apply H. rewrite <- (firstn_skipn k counts).
    apply in_or_app. left. exact Hx. }
  split; [split; [apply A|] | pose proof (B i); pose proof (C i); lia].
  destruct (Nat.lt_ge_cases i (length counts)) as [Hi|Hi].
  - pose proof (tail_sum_step counts i Hi) as S. unfold tail_sum in S.
    rewrite Forall_forall in H. pose proof (H (nth i counts 0) (nth_In _ _ Hi)). lia.
  - rewrite !skipn_all2 by lia. simpl. lia.
Qed.

(** Without overflow the totals are the sums of the counts from each slot
    on. *)
Lemma totals_of_spec (counts : list Z) :
  histogram_ok counts ->
  totals_of counts = map (tail_sum counts) (seq 0 (length counts)).
Proof.
  intros [Hn Hs]. induction counts as [|c t IH]; [reflexivity|].
  inversion Hn as [|? ? Hc Ht]; subst.
  pose proof (sumZ_nonneg t Ht) as Ht0.
  simpl in Hs. specialize (IH Ht ltac:(lia)).
  cbn [totals_of length seq map]. rewrite IH.
  rewrite <- seq_shift, map_map.
  destruct t as [|c' t'].
  - simpl. unfold tail_sum. simpl. f_equal. lia.
  - cbn [length seq map].
    change (fun x : nat => tail_sum (c :: c' :: t') (S x)) with (tail_sum (c' :: t')).
    change (tail_sum (c :: c' :: t') 1) with (tail_sum (c' :: t') 0).
    f_equal.
    change (tail_sum (c' :: t') 0) with (sumZ (c' :: t')).
    change (tail_sum (c :: c' :: t') 0) with (c + sumZ (c' :: t')).
    unfold int_add. rewrite wrap64_small; [lia|].
    unfold in_int64, min_int64, max_int64.
    change (Z.pow_pos 2 63) with (2 ^ 63) in Hs.
    apply andb_true_intro. split; apply Z.leb_le; lia.
Qed.

Lemma set_nth_inv {A : Type} (s s' : list A) (i : nat) (v : A) :
  set_nth s i v = Some s' ->
  (i < length s)%nat /\ s' = firstn i s ++ v :: skipn (S i) s.
Proof.
  revert i s'. induction s as [|x t IH]; intros i s' H; [discriminate|].
  destruct i as [|i].
  - simpl in H. injection H as <-. split; [simpl; lia | reflexivity].
  - simpl in H. destruct (set_nth t i v) as [t'|] eqn:E; [|discriminate].
    injection H as <-. destruct (IH i t' E) as [Hi Et].
    split; [simpl; lia|]. simpl. rewrite Et. reflexivity.
Qed.

Lemma incr_inv (counts counts' : list Z) (s : Z) :
  incr counts s = Some counts' ->
  exists i, (i < length counts)%nat /\
            counts' = firstn i counts ++ int_add (nth i counts 0) 1 :: skipn (S i) counts.
Proof.
  unfold incr, index, update.
  destruct (s <? 0); [discriminate|].
  destruct (nth_error counts (Z.to_nat s)) as [c|] eqn:E; [|discriminate].
  pose proof (nth_error_nth _ _ 0 E) as Hc. rewrite <- Hc.
  intros H. exists (Z.to_nat s). apply set_nth_inv. exact H.
Qed.

Lemma incr_histogram (counts counts' : list Z) (s : Z) :
  incr counts s = Some counts' ->
  Forall (fun c => 0 <= c) counts -> sumZ counts + 1 < 2 ^ 63 ->
  Forall (fun c => 0 <= c) counts' /\ sumZ counts' = sumZ counts + 1 /\
  length counts' = length counts.
Proof.
  intros H Hn Hs. destruct (incr_inv _ _ _ H) as (i & Hi & ->).
  pose proof (firstn_skipn i counts) as Hsplit.
  assert (Hsk : skipn i counts = nth i counts 0 :: skipn (S i) counts).
  { clear - Hi. revert i Hi. induction counts as [|x t IH]; intros i Hi.
    - simpl in Hi. lia.
    - destruct i as [|i]; [reflexivity|]. cbn [skipn nth]. apply IH. simpl in Hi. lia. }
  assert (Hn1 : Forall (fun c => 0 <= c) (firstn i counts)).
  { rewrite Forall_forall in *. intros x Hx. apply Hn.
    rewrite <- Hsplit. apply in_or_app. left. exact Hx. }
  assert (Hn2 : Forall (fun c => 0 <= c) (skipn (S i) counts)).
  { rewrite Forall_forall in *. intros x Hx. apply Hn.
    rewrite <- Hsplit, Hsk. apply in_or_app. right. right. exact Hx. }
  assert (Hc : 0 <= nth i counts 0).
  { rewrite Forall_forall in Hn. apply Hn. apply nth_In. exact Hi. }
  pose proof (sumZ_nonneg _ Hn1). pose proof (sumZ_nonneg _ Hn2).
  assert (Hsum : sumZ counts = sumZ (firstn i counts) + (nth i counts 0 + sumZ (skipn (S i) counts))).
  { rewrite <- Hsplit at 1. rewrite sumZ_app, Hsk. reflexivity. }
  assert (Hadd : int_add (nth i counts 0) 1 = nth i counts 0 + 1).
  { unfold int_add. apply wrap64_small. unfold in_int64, min_int64, max_int64.
    apply andb_true_intro. split; apply Z.leb_le; lia. }
  rewrite Hadd. split; [|split].
  - apply Forall_app. split; [exact Hn1|]. constructor; [lia | exact Hn2].
  - rewrite sumZ_app.
    change (sumZ (nth i counts 0 + 1 :: skipn (S i) counts))
      with (nth i counts 0 + 1 + sumZ (skipn (S i) counts)).
    lia.
  - assert (L : length counts =
                (length (firstn i counts) + S (length (skipn (S i) counts)))%nat).
    { rewrite <- Hsplit at 1. rewrite length_app, Hsk. reflexivity. }
    rewrite length_app. cbn [length]. lia.
Qed.

Lemma count_depths_histogram (depths : list float32) (counts counts' : list Z) :
  count_depths depths counts = Some counts' ->
  Forall (fun c => 0 <= c) counts -> sumZ counts + len depths < 2 ^ 63 ->
  Forall (fun c => 0 <= c) counts' /\ sumZ counts' = sumZ counts + len depths /\
  length counts' = length counts.
Proof.
  revert counts. induction depths as [|d t IH]; intros counts H Hn Hs.
  - simpl in H. injection H as <-. unfold len. simpl. repeat split; [assumption | lia].
  - simpl in H. destruct (incr counts (slot_of d)) as [c1|] eqn:E; [|discriminate].
    unfold len in *. simpl length in Hs.
    destruct (incr_histogram _ _ _ E Hn ltac:(lia)) as (N1 & S1 & L1).
    destruct (IH c1 H N1 ltac:(lia)) as (N2 & S2 & L2).
    split; [exact N2|]. split; [simpl length; lia | lia].
Qed.

(** A [float32] divided by itself is 1. *)
Lemma f32_div_self (m : positive) (e : Z) :
  F32.div (S754_finite false m e) (S754_finite false m e) = F32.of_Z 1.
Proof.
  unfold F32.div. rewrite (SFdiv_Rq F32.prec F32.emax ltac:(reflexivity)).
  cbv zeta.
  assert (He : div_exp F32.prec F32.emax m m e e = -24).
  { unfold div_exp. rewrite !Z.sub_diag. reflexivity. }
  rewrite He. replace (e - e - -24) with 24 by lia.
  unfold Rq.
  assert (Hq : Zpos m * 2 ^ 24 / Zpos m = 2 ^ 24).
  { rewrite Z.mul_comm. apply Z.div_mul. lia. }
  rewrite Hq.
  change (fexp F32.prec F32.emax (Zdigits2 (2 ^ 24) + -24)) with (-23).
  change (2 ^ (-23 - -24)) with 2.
  replace (2 * (Zpos m * 2 ^ 24)) with (2 ^ 24 * (Zpos m * 2)) by lia.
  rewrite K_exact by lia.
  vm_compute. reflexivity.
Qed.

(** A positive Go int converts to a normal [float32] between 1 and
    [2 ^ 63]. *)
Lemma f32_of_Z_pos (n : Z) :
  0 < n < 2 ^ 63 ->
  exists m e, F32.of_Z n = S754_finite false m e /\
              bounded F32.prec F32.emax m e = true /\
              -23 <= e <= 40 /\ Zpos (digits2_pos m) = 24.
Proof.
  intros [H0 H1].
  assert (Hp : 0 < F32.prec) by reflexivity.
  pose proof (of_Z_mono F32.prec F32.emax Hp 1 n ltac:(lia)) as L1.
  pose proof (of_Z_mono F32.prec F32.emax Hp n (2 ^ 63) ltac:(lia)) as L2.
  destruct (of_Z_nonneg_valid F32.prec F32.emax Hp n ltac:(lia)) as [A B].
  assert (Nb : nnf F32.prec F32.emax (binary_normalize F32.prec F32.emax (2 ^ 63) 0 false) = true)
    by reflexivity.
  pose proof (nnf_below F32.prec F32.emax _ _ A B Nb L2) as Nn.
  unfold F32.of_Z.
  destruct (binary_normalize F32.prec F32.emax n 0 false) as [s|s| |[|] m e];
    try discriminate.
  simpl in Nn. exists m, e. split; [reflexivity|]. split; [exact Nn|].
  change (binary_normalize F32.prec F32.emax 1 0 false)
    with (S754_finite false 8388608 (-23)) in L1.
  change (binary_normalize F32.prec F32.emax (2 ^ 63) 0 false)
    with (S754_finite false 8388608 40) in L2.
  apply SFleb_fin_inv in L1. apply SFleb_fin_inv in L2.
  destruct (bounded_digits F32.prec F32.emax Hp m e Nn) as (C & _ & U & _).
  pose proof (digits2_pos_bounds m) as [D1 D2].
  assert (He : -23 <= e <= 40) by lia.
  split; [exact He|].
  unfold fexp, emin, F32.prec, F32.emax in C. lia.
Qed.

Lemma f32_div_normal (m1 m2 : positive) (e1 e2 : Z) :
  -23 <= e1 <= 40 -> Zpos (digits2_pos m1) = 24 ->
  -23 <= e2 <= 40 -> Zpos (digits2_pos m2) = 24 ->
  div_normal F32.prec F32.emax (S754_finite false m1 e1) m2 e2.
Proof.
  intros H1 D1 H2 D2. unfold div_normal, emin, F32.prec, F32.emax. lia.
Qed.

(** Quotients of Go ints by a positive Go int, in [float32]. *)
Lemma f32_ratio_props (a b t : Z) :
  0 <= a <= b -> b <= t -> 0 < t < 2 ^ 63 ->
  F32.leb (F32.div (F32.of_Z a) (F32.of_Z t)) (F32.div (F32.of_Z b) (F32.of_Z t)) = true /\
  F32.leb (F32.of_Z 0) (F32.div (F32.of_Z a) (F32.of_Z t)) = true /\
  F32.div (F32.of_Z t) (F32.of_Z t) = F32.of_Z 1.
Proof.
  intros Hab Hbt Ht.
  assert (Hp : 0 < F32.prec) by reflexivity.
  destruct (f32_of_Z_pos t Ht) as (mt & et & Et & Bt & Het & Dt).
  assert (N : forall z, 0 <= z <= t ->
              nnf F32.prec F32.emax (F32.of_Z z) = true /\
              div_normal F32.prec F32.emax (F32.of_Z z) mt et).
  { intros z Hz. destruct (Z.eq_dec z 0) as [->|Hz0].
    - split; [reflexivity | exact I].
    - destruct (f32_of_Z_pos z ltac:(lia)) as (mz & ez & Ez & Bz & Hez & Dz).
      rewrite Ez. split; [exact Bz|]. apply f32_div_normal; assumption. }
  destruct (N a ltac:(lia)) as [Na Da]. destruct (N b ltac:(lia)) as [Nb Db].
  rewrite Et. split; [|split].
  - unfold F32.leb, F32.div. apply SFdiv_mono; try assumption.
    apply (of_Z_mono F32.prec F32.emax Hp). lia.
  - unfold F32.leb, F32.div.
    apply SFleb_zero_nonneg.
    apply (SFdiv_nonneg_valid F32.prec F32.emax Hp). exact Na.
  - apply f32_div_self.
Qed.

Lemma nth_map_seq {B : Type} (h : nat -> B) (n i : nat) (d : B) :
  (i < n)%nat -> nth i (map h (seq 0 n)) d = h i.
Proof.
  intros Hi.
  rewrite (nth_indep _ d (h 0%nat)) by (rewrite length_map, length_seq; exact Hi).
  rewrite map_nth, seq_nth by exact Hi. reflexivity.
Qed.

Lemma CountsROC_props (counts : list Z) :
  histogram_ok counts -> 0 < sumZ counts ->
  exists roc,
    CountsROC counts = Some roc /\ length roc = length counts /\
    (forall i, (i < length counts)%nat ->
       nth i roc S754_nan =
       F32.div (F32.of_Z (tail_sum counts i)) (F32.of_Z (sumZ counts))) /\
    nth 0 roc S754_nan = F32.of_Z 1 /\
    (forall i, (S i < length counts)%nat ->
       F32.leb (nth (S i) roc S754_nan) (nth i roc S754_nan) = true) /\
    (forall i, (i < length counts)%nat ->
       F32.leb (F32.of_Z 0) (nth i roc S754_nan) = true /\
       F32.leb (nth i roc S754_nan) (F32.of_Z 1) = true).
Proof.
  intros Hh Hs. pose proof Hh as [Hn Hb].
  assert (Hne : counts <> []) by (intros ->; simpl in Hs; lia).
  pose proof (totals_of_spec counts Hh) as Ht.
  set (f := fun t => F32.div (F32.of_Z t) (F32.of_Z (sumZ counts))).
  exists (map f (map (tail_sum counts) (seq 0 (length counts)))).
  assert (Hnth : forall i, (i < length counts)%nat ->
            nth i (map f (map (tail_sum counts) (seq 0 (length counts)))) S754_nan =
            f (tail_sum counts i)).
  { intros i Hi. rewrite map_map.
    apply (nth_map_seq (fun x => f (tail_sum counts x))). exact Hi. }
  assert (Hlen : (0 < length counts)%nat) by (destruct counts; [congruence | simpl; lia]).
  assert (P : forall i, (i < length counts)%nat ->
            F32.leb (f (tail_sum counts (S i))) (f (tail_sum counts i)) = true /\
            F32.leb (F32.of_Z 0) (f (tail_sum counts i)) = true /\
            F32.leb (f (tail_sum counts i)) (F32.of_Z 1) = true).
  { intros i Hi.
    destruct (tail_sum_bounds counts i Hn) as [[B0 B1] B2].
    destruct (f32_ratio_props (tail_sum counts (S i)) (tail_sum counts i) (sumZ counts))
      as (R1 & _ & R3); try lia.
    destruct (f32_ratio_props (tail_sum counts i) (sumZ counts) (sumZ counts))
      as (R4 & R5 & _); try lia.
    subst f. cbv beta. rewrite R3 in R4. auto. }
  split; [|split; [|split; [|split; [|split]]]].
  - unfold CountsROC. rewrite Ht.
    destruct counts as [|c t]; [congruence|].
    cbn [length seq map]. reflexivity.
  - rewrite !length_map, length_seq. reflexivity.
  - intros i Hi. rewrite Hnth by exact Hi. reflexivity.
  - rewrite Hnth by exact Hlen.
    destruct (f32_ratio_props 0 0 (sumZ counts)) as (_ & _ & R); try lia. exact R.
  - intros i Hi. rewrite !Hnth by lia. apply P. lia.
  - intros i Hi. rewrite Hnth by lia. destruct (P i Hi) as (_ & A & B). auto.
Qed.

(** C7. For the histogram of a non-empty depth vector the ROC has
    [r_i = (sum of h_j for j >= i) / (sum of all h_j)], computed in
    [float32]; [r_0 = 1], the sequence does not increase, and every entry is
    in [[0, 1]]; the counts [1, 1, 1, 1] give [4/4, 3/4, 2/4, 1/4]. *)
Theorem CountsROC_spec (depths : list float32) (counts : list Z) :
  depths <> [] -> len depths < 2 ^ 63 ->
  CountsAtDepth depths (repeat 0 70) = Some counts ->
  sumZ counts = len depths /\
  (exists roc,
    CountsROC counts = Some roc /\ length roc = 70%nat /\
    (forall i, (i < 70)%nat ->
       nth i roc S754_nan =
       F32.div (F32.of_Z (tail_sum counts i)) (F32.of_Z (sumZ counts))) /\
    nth 0 roc S754_nan = F32.of_Z 1 /\
    (forall i, (S i < 70)%nat ->
       F32.leb (nth (S i) roc S754_nan) (nth i roc S754_nan) = true) /\
    (forall i, (i < 70)%nat ->
       F32.leb (F32.of_Z 0) (nth i roc S754_nan) = true /\
       F32.leb (nth i roc S754_nan) (F32.of_Z 1) = true)) /\
  CountsROC [1; 1; 1; 1] =
  Some [F32.const 4 4; F32.const 3 4; F32.const 2 4; F32.const 1 4].
Proof.
  intros Hne Hl H. unfold CountsAtDepth in H. simpl negb in H. cbv iota in H.
  destruct (count_depths_histogram depths (repeat 0 70) counts H) as (N & S & L).
  { apply Forall_forall. intros x Hx. apply repeat_spec in Hx. lia. }
  { rewrite sumZ_repeat0. lia. }
  rewrite sumZ_repeat0 in S. rewrite repeat_length in L.
  split; [lia|]. split; [|vm_compute; reflexivity].
  assert (Hh : histogram_ok counts) by (split; [exact N | lia]).
  assert (Hs : 0 < sumZ counts).
  { rewrite S. unfold len. destruct depths; [congruence | simpl length; lia]. }
  destruct (CountsROC_props counts Hh Hs) as (roc & E & Lr & R1 & R2 & R3 & R4).
  rewrite L in *. exists roc. repeat split; auto; apply R4; assumption.
Qed.

Lemma CountsROC_spec_witness :
  [F32.of_Z 1; F32.const 1 2] <> [] /\ len [F32.of_Z 1; F32.const 1 2] < 2 ^ 63 /\
  exists counts,
    CountsAtDepth [F32.of_Z 1; F32.const 1 2] (repeat 0 70) = Some counts /\
    sumZ counts = 2 /\
    exists roc, CountsROC counts = Some roc /\ nth 0 roc S754_nan = F32.of_Z 1.
Proof.
  assert (H1 : [F32.of_Z 1; F32.const 1 2] <> []) by discriminate.
  assert (H2 : len [F32.of_Z 1; F32.const 1 2] < 2 ^ 63) by (vm_compute; reflexivity).
  split; [exact H1|]. split; [exact H2|].
  destruct (CountsAtDepth [F32.of_Z 1; F32.const 1 2] (repeat 0 70)) as [counts|] eqn:E;
    [|vm_compute in E; discriminate].
  exists counts. split; [reflexivity|].
  destruct (CountsROC_spec _ counts H1 H2 E) as (S & (roc & R & _ & _ & R0 & _) & _).
  split; [exact S|]. exists roc. split; [exact R | exact R0].
Defined.

(** ** The inferred sex *)

Lemma SFadd_comm (prec emax : Z) (x y : spec_float) :
  SFadd prec emax x y = SFadd prec emax y x.
Proof.
  destruct x as [sx|sx| |sx mx ex], y as [sy|sy| |sy my ey];
    try destruct sx; try destruct sy; try reflexivity;
    unfold SFadd; rewrite (Z.min_comm ey ex), Z.add_comm; reflexivity.
Qed.

Lemma SFmul_comm (prec emax : Z) (x y : spec_float) :
  SFmul prec emax x y = SFmul prec emax y x.
Proof.
  destruct x as [sx|sx| |sx mx ex], y as [sy|sy| |sy my ey];
    try destruct sx; try destruct sy; try reflexivity;
    unfold SFmul; rewrite (Pos.mul_comm my mx), (Z.add_comm ey ex); reflexivity.
Qed.

Lemma band_facts_all (k : Z) : 0 <= k <= 12 -> band_facts k.
Proof.
  intros H.
  assert (C : k = 0 \/ k = 1 \/ k = 2 \/ k = 3 \/ k = 4 \/ k = 5 \/ k = 6 \/ k = 7 \/
              k = 8 \/ k = 9 \/ k = 10 \/ k = 11 \/ k = 12) by lia.
  unfold band_facts.
  destruct C as [->|C].
  { split; [vm_compute; repeat split | left; reflexivity]. }
  repeat (destruct C as [->|C]; [split; [|right]; vm_compute; repeat split|]).
  subst k. split; [|right]; vm_compute; repeat split.
Qed.

Lemma f64_widen_nonneg_valid (x : float32) :
  nnf F32.prec F32.emax x = true ->
  is_nonneg (F64.of_f32 x) = true /\ valid_binary F64.prec F64.emax (F64.of_f32 x) = true.
Proof.
  destruct x as [s|s| |[|] m e]; simpl; intros H; try discriminate.
  - auto.
  - split; [apply binary_round_nonneg | apply binary_round_valid]; reflexivity.
Qed.

(** Widening to [float64] keeps the order. *)
Lemma f64_widen_mono (x1 x2 : float32) :
  nnf F32.prec F32.emax x1 = true -> nnf F32.prec F32.emax x2 = true ->
  SFleb x1 x2 = true -> SFleb (F64.of_f32 x1) (F64.of_f32 x2) = true.
Proof.
  intros N1 N2 H.
  pose proof (SFleb_dle F32.prec F32.emax ltac:(reflexivity) x1 x2 N1 N2 H) as Hd.
  destruct x1 as [s1|s1| |[|] m1 e1]; simpl in N1; try discriminate;
    destruct x2 as [s2|s2| |[|] m2 e2]; simpl in N2; try discriminate;
    try contradiction; simpl F64.of_f32.
  - reflexivity.
  - apply SFleb_zero_nonneg, binary_round_nonneg. reflexivity.
  - apply binary_round_mono; [reflexivity | exact Hd].
Qed.

Lemma sex_consts :
  half64 = S754_finite false 4503599627370496 (-53) /\
  bounded F64.prec F64.emax 4503599627370496 (-53) = true /\
  nnf F32.prec F32.emax (F32.of_Z 13) = true /\
  nnf F64.prec F64.emax (F64.of_f32 (F32.of_Z 13)) = true /\
  nnf F64.prec F64.emax (sex_value (F32.of_Z 13)) = true /\
  trunc (sex_value (F32.of_Z 13)) = Some 13 /\
  max_CN = F32.of_Z 12 /\ F32.leb max_CN (F32.of_Z 13) = true /\
  trunc (sex_value max_CN) = Some 12 /\ nnf F32.prec F32.emax max_CN = true.
Proof. vm_compute. repeat split. Qed.

(** [0.5 + float64(x)], truncated, is monotone in [x]. *)
Lemma sex_value_mono (x1 x2 : float32) :
  nnf F32.prec F32.emax x1 = true -> nnf F32.prec F32.emax x2 = true ->
  SFleb x1 x2 = true -> SFleb x2 (F32.of_Z 13) = true ->
  exists z1 z2,
    trunc (sex_value x1) = Some z1 /\ trunc (sex_value x2) = Some z2 /\
    0 <= z1 <= z2 /\ z2 <= 13 /\
    nnf F64.prec F64.emax (F64.of_f32 x1) = true /\
    nnf F64.prec F64.emax (F64.of_f32 x2) = true.
Proof.
  intros N1 N2 H12 H2U.
  destruct sex_consts as (Eh & Bh & NU & NwU & NvU & TU & _).
  assert (Hp : 0 < F64.prec) by reflexivity.
  assert (H1U : SFleb x1 (F32.of_Z 13) = true) by (eapply SFleb_trans; eauto).
  assert (W : forall x, nnf F32.prec F32.emax x = true -> SFleb x (F32.of_Z 13) = true ->
              nnf F64.prec F64.emax (F64.of_f32 x) = true /\
              nnf F64.prec F64.emax (sex_value x) = true /\
              SFleb (sex_value x) (sex_value (F32.of_Z 13)) = true).
  { intros x Nx Hx.
    destruct (f64_widen_nonneg_valid x Nx) as [A B].
    pose proof (f64_widen_mono x (F32.of_Z 13) Nx NU Hx) as Hw.
    pose proof (nnf_below F64.prec F64.emax _ _ A B NwU Hw) as Nw.
    assert (Hle : SFleb (sex_value x) (sex_value (F32.of_Z 13)) = true).
    { unfold sex_value, F64.add. rewrite !(SFadd_comm _ _ half64), Eh.
      apply SFadd_mono; assumption. }
    split; [exact Nw|]. split; [|exact Hle].
    destruct (SFadd_nonneg_valid F64.prec F64.emax Hp (F64.of_f32 x) _ _ Bh Nw) as [A' B'].
    rewrite <- Eh, (SFadd_comm _ _ _ half64) in A', B'.
    exact (nnf_below F64.prec F64.emax _ _ A' B' NvU Hle). }
  destruct (W x1 N1 H1U) as (Nw1 & Nv1 & L1). destruct (W x2 N2 H2U) as (Nw2 & Nv2 & L2).
  assert (L12 : SFleb (sex_value x1) (sex_value x2) = true).
  { unfold sex_value, F64.add. rewrite !(SFadd_comm _ _ half64), Eh.
    apply SFadd_mono; try assumption. apply f64_widen_mono; assumption. }
  destruct (trunc_mono F64.prec F64.emax Hp _ _ Nv1 Nv2 L12) as (z1 & z2 & T1 & T2 & Hz).
  destruct (trunc_mono F64.prec F64.emax Hp _ _ Nv2 NvU L2) as (z2' & z3 & T2' & T3 & Hz').
  rewrite T2 in T2'. injection T2' as <-. rewrite TU in T3. injection T3 as <-.
  exists z1, z2. repeat split; try assumption; lia.
Qed.

Lemma SFleb_total (x y : spec_float) :
  is_nan x = false -> is_nan y = false -> SFleb x y = true \/ SFltb y x = true.
Proof.
  intros Hx Hy. rewrite (SFltb_negb_leb y x Hy Hx).
  destruct (SFleb x y); auto.
Qed.

Lemma nnf_not_nan (prec emax : Z) (x : spec_float) : nnf prec emax x = true -> is_nan x = false.
Proof. destruct x as [s|s| |[|] m e]; simpl; intros; try discriminate; reflexivity. Qed.

(** The inferred sex of a copy number in [[0, Ploidy * MaxCN]] is the copy
    number rounded to the nearest integer. *)
Lemma inferred_sex_nearest (y : float32) :
  F32.valid y = true -> F32.leb (S754_zero false) y = true -> F32.leb y max_CN = true ->
  nearest_int (F64.of_f32 y) (inferred_sex (F64.of_f32 y)) /\
  0 <= inferred_sex (F64.of_f32 y) <= 12.
Proof.
  intros V H0 HU.
  destruct sex_consts as (_ & _ & NU & _ & _ & _ & EM & LM & TM & NM).
  pose proof (f32_nnf y max_CN V H0 NM HU) as Ny.
  assert (HyU : SFleb y (F32.of_Z 13) = true) by (eapply SFleb_trans; eauto).
  destruct (sex_value_mono y max_CN Ny NM HU LM) as (z & z12 & Tz & T12 & Hz & _ & Nwy & _).
  rewrite TM in T12. injection T12 as <-.
  assert (Ez : inferred_sex (F64.of_f32 y) = z).
  { unfold inferred_sex. fold (sex_value y). unfold int_of_float. rewrite Tz.
    replace (in_int64 z) with true; [reflexivity|].
    symmetry. unfold in_int64, min_int64, max_int64.
    apply andb_true_intro. split; apply Z.leb_le; lia. }
  rewrite Ez. split; [|lia].
  destruct (band_facts_all z ltac:(lia)) as [Hup Hlow].
  pose proof (nnf_not_nan _ _ _ Ny) as Nany.
  unfold nearest_int. split.
  - destruct Hlow as [->|Hlow].
    + change (F64.const (2 * 0 - 1) 2) with (S754_finite true 4503599627370496 (-53)).
      unfold F64.leb. destruct (F64.of_f32 y) as [s|s| |[|] m e]; try discriminate; reflexivity.
    + unfold band_lower in Hlow.
      destruct (F32.const (2 * z - 1) 2) as [s|s| |[|] ma ea]; try contradiction.
      destruct Hlow as (Ba & Ea & LaU & Ta & Np & Wa).
      rewrite <- Wa. unfold F64.leb.
      assert (Na : nnf F32.prec F32.emax (S754_finite false ma ea) = true) by exact Ba.
      apply f64_widen_mono; try assumption.
      destruct (SFleb_total (S754_finite false ma ea) y eq_refl Nany) as [L|L]; [exact L|].
      exfalso.
      pose proof (SFltb_pred F32.prec F32.emax ltac:(reflexivity) y ma ea Ny Ba Ea L) as Lp.
      destruct (sex_value_mono y _ Ny Np Lp LaU) as (z1 & z2 & T1 & T2 & Hz12 & _).
      rewrite Tz in T1. injection T1 as <-. rewrite Ta in T2. injection T2 as <-. lia.
  - unfold band_upper in Hup.
    destruct (F32.const (2 * z + 1) 2) as [s|s| |[|] mb eb]; try contradiction.
    destruct Hup as (Bb & Eb & LbU & Tb & Np & Wb).
    assert (Nb : nnf F32.prec F32.emax (S754_finite false mb eb) = true) by exact Bb.
    assert (L : SFltb y (S754_finite false mb eb) = true).
    { destruct (SFleb_total (S754_finite false mb eb) y eq_refl Nany) as [L|L]; [|exact L].
      exfalso.
      destruct (sex_value_mono _ y Nb Ny L HyU) as (z1 & z2 & T1 & T2 & Hz12 & _).
      rewrite Tz in T2. injection T2 as <-. rewrite Tb in T1. injection T1 as <-. lia. }
    pose proof (SFltb_pred F32.prec F32.emax ltac:(reflexivity) y mb eb Ny Bb Eb L) as Lp.
    unfold F64.ltb in *.
    eapply SFleb_ltb_trans; [|exact Wb].
    apply f64_widen_mono; assumption.
Qed.

(** The copy number of a sample is the sentinel or a [float32] in
    [[0, Ploidy * MaxCN]], widened. *)
Lemma sample_CN_range (d : list float32) :
  Forall cn_depth_ok d -> len d < 2 ^ 53 ->
  sample_CN d = Some (F64.of_Z (-1)) \/
  exists y, sample_CN d = Some (F64.of_f32 y) /\ F32.valid y = true /\
            F32.leb (S754_zero false) y = true /\ F32.leb y max_CN = true.
Proof.
  intros Hd Hl.
  rewrite (sample_CN_spec d Hl). cbv zeta.
  set (tmp := sort_Slice F32.ltb (filter (fun dp => F32.neqb dp (S754_zero false)) d)).
  destruct (nth_error tmp (length tmp / 2)) as [v|] eqn:E; [right | left; reflexivity].
  exists (F32.mul (F32.of_Z Ploidy) v). split; [reflexivity|].
  assert (Hv : In v d).
  { apply nth_error_In in E. subst tmp.
    apply (Permutation_in _ (sort_Slice_perm F32.ltb _)) in E.
    apply filter_In in E. tauto. }
  rewrite Forall_forall in Hd. destruct (Hd v Hv) as (V & H0 & HM).
  assert (NM : nnf F32.prec F32.emax MaxCN = true) by reflexivity.
  pose proof (f32_nnf v MaxCN V H0 NM HM) as Nv.
  assert (Hp : 0 < F32.prec) by reflexivity.
  assert (Ec : F32.of_Z Ploidy = S754_finite false 8388608 (-22)) by reflexivity.
  assert (Hc : F32.prec <= Zpos (digits2_pos 8388608)) by (vm_compute; discriminate).
  unfold F32.mul. rewrite Ec, (SFmul_comm _ _ _ v).
  destruct (SFmul_nonneg_valid F32.prec F32.emax Hp v 8388608 (-22) Hc Nv) as [A B].
  split; [exact B|]. split; [apply SFleb_zero_nonneg; exact A|].
  unfold F32.leb, max_CN, F32.mul. rewrite Ec, (SFmul_comm _ _ _ MaxCN).
  apply SFmul_mono; assumption.
Qed.

(** C8, as the code has it.  For every sample the sex column of the pedigree
    file is [int(0.5 + CN)], [CN] being the copy number on the first sex
    chromosome: this is the copy number rounded to the nearest integer when
    the copy number is in [[0, Ploidy * MaxCN]], as every copy number that
    [GetCN] computes from depths in [[0, MaxCN]] is, and it is 0 when the
    copy number is the sentinel -1. *)
Theorem sex_column (depths : list (list float32)) (i : nat) (d : list float32) :
  Forall (fun d => len d < 2 ^ 53) depths ->
  nth_error depths i = Some d -> Forall cn_depth_ok d ->
  exists cns cn row,
    GetCN depths = Some cns /\
    nth_error cns i = Some cn /\
    ped_row_of cns i = Some row /\
    sex row = inferred_sex cn /\
    ((cn = F64.of_Z (-1) /\ sex row = 0) \/
     (nearest_int cn (sex row) /\ 0 <= sex row <= 12)).
Proof.
  intros Hl Hi Hd.
  destruct (GetCN_total depths Hl) as (cns & E & _ & N).
  assert (Hld : len d < 2 ^ 53).
  { rewrite Forall_forall in Hl. apply Hl. eapply nth_error_In; eassumption. }
  exists cns.
  destruct (sample_CN_range d Hd Hld) as [S|(y & S & V & H0 & HU)];
    pose proof (N i d Hi) as Ei; rewrite S in Ei;
    eexists; eexists; (split; [exact E|]); (split; [exact Ei|]);
    unfold ped_row_of; rewrite Ei;
    (split; [reflexivity|]); (split; [reflexivity|]); cbn [sex].
  - left. split; reflexivity.
  - right. apply inferred_sex_nearest; assumption.
Qed.

Lemma sex_column_witness :
  let d := [F32.of_Z 1; F32.const 102 100; F32.of_Z 0] in
  Forall (fun d => len d < 2 ^ 53) [d] /\
  nth_error [d] 0 = Some d /\ Forall cn_depth_ok d /\
  exists cns cn row,
    GetCN [d] = Some cns /\ nth_error cns 0 = Some cn /\
    ped_row_of cns 0 = Some row /\ sex row = inferred_sex cn.
Proof.
  intros d.
  assert (H1 : Forall (fun d => len d < 2 ^ 53) [d])
    by (repeat constructor; vm_compute; reflexivity).
  assert (H2 : nth_error [d] 0 = Some d) by reflexivity.
  assert (H3 : Forall cn_depth_ok d) by (repeat constructor; vm_compute; reflexivity).
  split; [exact H1|]. split; [exact H2|]. split; [exact H3|].
  destruct (sex_column [d] 0 d H1 H2 H3) as (cns & cn & row & A & B & C & D & _).
  exists cns, cn, row. repeat split; assumption.
Defined.

(** C8, the sentence refuted: a sample without a non-zero depth has the
    sentinel -1 as its copy number, and its sex column is 0, which is not -1
    rounded to the nearest integer. *)
Lemma sentinel_sex_is_zero :
  GetCN [[F32.of_Z 0; F32.of_Z 0]] = Some [F64.of_Z (-1)] /\
  inferred_sex (F64.of_Z (-1)) = 0 /\
  ~ nearest_int (F64.of_Z (-1)) (inferred_sex (F64.of_Z (-1))) /\
  nearest_int (F64.of_Z (-1)) (-1) /\
  option_map sex (ped_row_of [F64.of_Z (-1)] 0) = Some 0.
Proof.
  split; [vm_compute; reflexivity|]. split; [vm_compute; reflexivity|].
  split; [|split; [|vm_compute; reflexivity]].
  - intros [H _]. vm_compute in H. discriminate.
  - split; vm_compute; reflexivity.
Qed.

(** ** Matrix rows *)

(** C1, the code evaluated: [run] scales a depth by [65535 / MaxCN] and
    converts the result to a [uint8].  A depth of [1/128] is stored as 85
    where [round(255 * d / 6)] is 0, and a depth of 1 is stored as the low
    byte of 10923, 171, where [round(255 * d / 6)] is 43. *)
Lemma quantize_scale :
  F32.div (F32.of_Z 65535) MaxCN = F32.const 21845 2 /\
  quantize (F32.const 1 128) = 85 /\ spec_quantize (F32.const 1 128) = 0 /\
  quantize (F32.of_Z 1) = 171 /\ spec_quantize (F32.of_Z 1) = 43 /\
  trunc (F32.add (F32.mul (F32.div (F32.of_Z 65535) MaxCN) (F32.of_Z 1)) half32)
  = Some 10923 /\
  extend_row [] [F32.of_Z 1; F32.const 1 128] 3 = [171; 85; 0].
Proof. vm_compute. repeat split. Qed.

(** ** References by name *)

Lemma str_eqb_eq (a b : gostring) : str_eqb a b = true <-> a = b.
Proof.
  revert b. induction a as [|x a IH]; intros [|y b]; simpl; split; intros H;
    try reflexivity; try discriminate.
  - apply andb_true_iff in H. destruct H as [H1 H2].
    apply Ascii.eqb_eq in H1. apply IH in H2. subst. reflexivity.
  - injection H as -> ->. apply andb_true_iff. split.
    + apply Ascii.eqb_eq. reflexivity.
    + apply IH. reflexivity.
Qed.

Lemma str_eqb_neq (a b : gostring) : str_eqb a b = false <-> a <> b.
Proof.
  split.
  - intros H E. apply str_eqb_eq in E. congruence.
  - intros H. destruct (str_eqb a b) eqn:E; [|reflexivity].
    apply str_eqb_eq in E. contradiction.
Qed.

Lemma HasPrefix_app (s prefix : gostring) :
  strings.HasPrefix s prefix = true <-> exists rest, s = prefix ++ rest.
Proof.
  unfold strings.HasPrefix. split.
  - intros H. apply andb_true_iff in H. destruct H as [_ H].
    apply str_eqb_eq in H. exists (skipn (length prefix) s).
    rewrite <- H at 1. symmetry. apply firstn_skipn.
  - intros [rest ->]. apply andb_true_iff. split.
    + apply Nat.leb_le. rewrite length_app. lia.
    + apply str_eqb_eq. rewrite firstn_app, Nat.sub_diag, firstn_all. simpl.
      apply app_nil_r.
Qed.

Lemma HasPrefix_false (s prefix : gostring) :
  strings.HasPrefix s prefix = false <-> forall rest, s <> prefix ++ rest.
Proof.
  split.
  - intros H rest E. assert (strings.HasPrefix s prefix = true) by (apply HasPrefix_app; eauto).
    congruence.
  - intros H. destruct (strings.HasPrefix s prefix) eqn:E; [|reflexivity].
    apply HasPrefix_app in E. destruct E as [rest E]. exfalso. exact (H rest E).
Qed.

(** One iteration of the loop: the reference is returned when its name is
    the query or ["chr"] followed by the query. *)
Lemma getRef_test (c : gostring) (r : Reference) :
  str_eqb c (Name r) || (strings.HasPrefix (Name r) chr && str_eqb c (skipn 3 (Name r))) = true
  <-> Name r = c \/ Name r = chr ++ c.
Proof.
  rewrite orb_true_iff, andb_true_iff, !str_eqb_eq, HasPrefix_app. split.
  - intros [H|[[rest H] H2]]; [left; congruence|].
    right. rewrite H in H2. simpl in H2. subst rest. exact H.
  - intros [H|H]; [left; congruence|].
    right. rewrite H. split; [eauto | reflexivity].
Qed.

Lemma getRef_loop_spec (refs : list Reference) (c : gostring) :
  match getRef_loop refs c with
  | None => forall r, In r refs -> Name r <> c /\ Name r <> chr ++ c
  | Some r =>
      exists before after,
        refs = before ++ r :: after /\
        (Name r = c \/ Name r = chr ++ c) /\
        forall r', In r' before -> Name r' <> c /\ Name r' <> chr ++ c
  end.
Proof.
  induction refs as [|ref rest IH]; cbn [getRef_loop].
  - intros r [].
  - pose proof (getRef_test c ref) as T.
    destruct (str_eqb c (Name ref)) eqn:E1.
    + exists [], rest. split; [reflexivity|]. split; [apply T; reflexivity|].
      intros r' [].
    + destruct (strings.HasPrefix (Name ref) chr && str_eqb c (skipn 3 (Name ref))) eqn:E2.
      * exists [], rest. split; [reflexivity|]. split; [apply T; reflexivity|].
        intros r' [].
      * assert (N : Name ref <> c /\ Name ref <> chr ++ c).
        { split; intros H; assert (false = true) by (apply T; tauto); discriminate. }
        destruct (getRef_loop rest c) as [r|].
        -- destruct IH as (before & after & -> & M & B).
           exists (ref :: before), after. split; [reflexivity|]. split; [exact M|].
           intros r' [<-|H]; [exact N | apply B; exact H].
        -- intros r [<-|H]; [exact N | apply IH; exact H].
Qed.

Lemma getRef_strip (chrom c : gostring) :
  chrom = chr ++ c \/ (chrom = c /\ strings.HasPrefix chrom chr = false) ->
  (if strings.HasPrefix chrom chr then skipn 3 chrom else chrom) = c.
Proof.
  intros [->|[-> H]].
  - replace (strings.HasPrefix (chr ++ c) chr) with true
      by (symmetry; apply HasPrefix_app; eauto).
    reflexivity.
  - rewrite H. reflexivity.
Qed.

Lemma getRef_spec (refs : list Reference) (chrom c : gostring) :
  chrom = chr ++ c \/ (chrom = c /\ strings.HasPrefix chrom chr = false) ->
  match getRef refs chrom with
  | None => forall r, In r refs -> Name r <> c /\ Name r <> chr ++ c
  | Some r =>
      exists before after,
        refs = before ++ r :: after /\
        (Name r = c \/ Name r = chr ++ c) /\
        forall r', In r' before -> Name r' <> c /\ Name r' <> chr ++ c
  end.
Proof.
  intros H. unfold getRef. rewrite (getRef_strip chrom c H).
  apply getRef_loop_spec.
Qed.

(** X3. [getRef] returns the first reference of the header whose name is the
    query, taken without its leading ["chr"], or that query preceded by
    ["chr"]; it returns nil exactly when the header has no such
    reference. *)
Theorem getRef_first_match (refs : list Reference) (chrom c : gostring) :
  chrom = chr ++ c \/ (chrom = c /\ strings.HasPrefix chrom chr = false) ->
  match getRef refs chrom with
  | None => forall r, In r refs -> Name r <> c /\ Name r <> chr ++ c
  | Some r =>
      exists before after,
        refs = before ++ r :: after /\
        (Name r = c \/ Name r = chr ++ c) /\
        forall r', In r' before -> Name r' <> c /\ Name r' <> chr ++ c
  end.
Proof.
  intros H. unfold getRef. rewrite (getRef_strip chrom c H).
  apply getRef_loop_spec.
Qed.

Lemma getRef_first_match_witness :
  let r1 := mkReference ["c"; "h"; "r"; "1"]%char 0 1000 in
  let r2 := mkReference ["2"]%char 1 900 in
  (["c"; "h"; "r"; "2"]%char = chr ++ ["2"]%char \/
   (["c"; "h"; "r"; "2"]%char = ["2"]%char /\
    strings.HasPrefix ["c"; "h"; "r"; "2"]%char chr = false)) /\
  exists before after,
    [r1; r2] = before ++ r2 :: after /\
    (Name r2 = ["2"]%char \/ Name r2 = chr ++ ["2"]%char) /\
    forall r', In r' before -> Name r' <> ["2"]%char /\ Name r' <> chr ++ ["2"]%char.
Proof.
  intros r1 r2.
  assert (H : ["c"; "h"; "r"; "2"]%char = chr ++ ["2"]%char \/
              (["c"; "h"; "r"; "2"]%char = ["2"]%char /\
               strings.HasPrefix ["c"; "h"; "r"; "2"]%char chr = false)) by (left; reflexivity).
  split; [exact H|].
  exact (getRef_first_match [r1; r2] _ _ H).
Defined.

(** X4. A query is answered alike with and without a leading ["chr"]: for a
    name [c] that does not itself begin with ["chr"], [getRef] returns the
    same reference for [c] and for ["chr" ++ c], and it returns one whenever
    the header has a reference named [c] or ["chr" ++ c]. *)
Theorem getRef_chr_insensitive (refs : list Reference) (c : gostring) (r : Reference) :
  strings.HasPrefix c chr = false ->
  getRef refs (chr ++ c) = getRef refs c /\
  (In r refs -> Name r = c \/ Name r = chr ++ c -> getRef refs c <> None).
Proof.
  intros H. split.
  - unfold getRef. rewrite (getRef_strip (chr ++ c) c) by (left; reflexivity).
    rewrite (getRef_strip c c) by (right; split; [reflexivity | exact H]).
    reflexivity.
  - intros Hin Hn E.
    pose proof (getRef_spec refs c c (or_intror (conj eq_refl H))) as G.
    rewrite E in G. destruct (G r Hin) as [A B]. destruct Hn; contradiction.
Qed.

Lemma getRef_chr_insensitive_witness :
  let r1 := mkReference ["c"; "h"; "r"; "X"]%char 0 1000 in
  strings.HasPrefix ["X"]%char chr = false /\
  getRef [r1] (chr ++ ["X"]%char) = getRef [r1] ["X"]%char /\
  getRef [r1] ["X"]%char <> None.
Proof.
  intros r1.
  assert (H : strings.HasPrefix ["X"]%char chr = false) by reflexivity.
  split; [exact H|].
  destruct (getRef_chr_insensitive [r1] ["X"]%char r1 H) as [A B].
  split; [exact A|]. apply B; [left; reflexivity | right; reflexivity].
Defined.

(** X5. With a chromosome on the command line, [Main] passes one entry to
    [run], also when [getRef] finds no reference: the entry is then nil, the
    slice is not, and the panic that reports a chromosome as not found is
    not raised.  [Main] panics there only without a chromosome, on a header
    whose references are nil. *)
Theorem Main_refs_not_found (Chrom : gostring) (header : option (list Reference)) :
  (Chrom <> [] ->
   exists r, Main_refs Chrom header = Some [r] /\
     (r = None <->
      forall c, Chrom = chr ++ c \/ (Chrom = c /\ strings.HasPrefix Chrom chr = false) ->
      forall x l, header = Some l -> In x l -> Name x <> c /\ Name x <> chr ++ c)) /\
  (Main_refs Chrom header = None <-> Chrom = [] /\ header = None).
Proof.
  split.
  - intros Hc. unfold Main_refs.
    replace (str_eqb Chrom []) with false by (symmetry; apply str_eqb_neq; exact Hc).
    cbn [negb]. eexists. split; [reflexivity|].
    set (l0 := match header with Some l => l | None => [] end).
    split.
    + intros E c Hs x l -> Hin.
      pose proof (getRef_spec l0 Chrom c Hs) as G. rewrite E in G.
      apply G. exact Hin.
    + intros H.
      assert (Hs : exists c, Chrom = chr ++ c \/ (Chrom = c /\ strings.HasPrefix Chrom chr = false)).
      { destruct (strings.HasPrefix Chrom chr) eqn:P.
        - apply HasPrefix_app in P. destruct P as [rest P]. exists rest. left. exact P.
        - exists Chrom. right. split; reflexivity. }
      destruct Hs as [c Hs].
      pose proof (getRef_spec l0 Chrom c Hs) as G.
      destruct (getRef l0 Chrom) as [r|]; [|reflexivity].
      destruct G as (before & after & E & M & _).
      destruct header as [l|].
      * subst l0. destruct (H c Hs r l eq_refl) as [A B].
        { rewrite E. apply in_elt. }
        destruct M; contradiction.
      * subst l0. destruct before; discriminate.
  - unfold Main_refs. destruct (str_eqb Chrom []) eqn:E.
    + apply str_eqb_eq in E. subst Chrom. cbn [negb].
      destruct header; simpl; split; try discriminate; try tauto.
      intros [_ H]. discriminate.
    + cbn [negb]. split; [discriminate|].
      intros [H _]. apply str_eqb_neq in E. contradiction.
Qed.

Lemma Main_refs_not_found_witness :
  let r1 := mkReference ["c"; "h"; "r"; "1"]%char 0 1000 in
  ["7"]%char <> [] /\ exists r, Main_refs ["7"]%char (Some [r1]) = Some [r].
Proof.
  intros r1.
  assert (H : ["7"]%char <> []) by discriminate.
  split; [exact H|].
  destruct (proj1 (Main_refs_not_found ["7"]%char (Some [r1])) H) as (r & E & _).
  exists r. exact E.
Defined.

(** ** Virtual offsets *)

Lemma small_bits_above (b n k : Z) : 0 <= b < 2 ^ k -> k <= n -> Z.testbit b n = false.
Proof.
  intros [H0 H1] Hn.
  destruct (Z.eq_dec b 0) as [->|Hb]; [apply Z.bits_0|].
  apply Z.bits_above_log2; [lia|].
  assert (Z.log2 b < k); [|lia].
  apply Z.log2_lt_pow2; lia.
Qed.

Lemma lor_shifted (a b k : Z) :
  0 <= k -> 0 <= b < 2 ^ k -> Z.lor (a * 2 ^ k) b = a * 2 ^ k + b.
Proof.
  intros Hk Hb.
  assert (L : Z.land (a * 2 ^ k) b = 0).
  { apply Z.bits_inj'. intros n Hn. rewrite Z.land_spec, Z.bits_0.
    destruct (Z_lt_le_dec n k) as [H|H].
    - rewrite Z.mul_pow2_bits_low by lia. reflexivity.
    - rewrite (small_bits_above b n k) by lia. apply andb_false_r. }
  rewrite <- Z.lxor_lor by exact L. symmetry. apply Z.add_nocarry_lxor. exact L.
Qed.

Lemma vOffset_value (o : Offset) :
  0 <= File o < 2 ^ 47 -> 0 <= Block o < 2 ^ 16 ->
  vOffset o = File o * 2 ^ 16 + Block o.
Proof.
  intros Hf Hb. unfold vOffset. rewrite Z.shiftl_mul_pow2 by lia.
  rewrite wrap64_small.
  - apply lor_shifted; lia.
  - unfold in_int64, min_int64, max_int64. apply andb_true_intro.
    split; apply Z.leb_le; lia.
Qed.

(** X1. For a block offset below [2 ^ 47] in the file, the virtual offset is
    [File * 65536 + Block], a non-negative int64 from which both fields are
    read back: [File] by a shift and [Block] by a mask. *)
Theorem vOffset_round_trip (o : Offset) :
  0 <= File o < 2 ^ 47 -> 0 <= Block o < 2 ^ 16 ->
  vOffset o = File o * 65536 + Block o /\
  0 <= vOffset o < 2 ^ 63 /\
  Z.shiftr (vOffset o) 16 = File o /\
  Z.land (vOffset o) 65535 = Block o.
Proof.
  intros Hf Hb. rewrite (vOffset_value o Hf Hb).
  change (2 ^ 16) with 65536 in *.
  split; [reflexivity|]. split; [lia|]. split.
  - rewrite Z.shiftr_div_pow2 by lia. change (2 ^ 16) with 65536.
    rewrite Z.div_add_l by lia. rewrite Z.div_small by lia. lia.
  - change 65535 with (Z.ones 16). rewrite Z.land_ones by lia.
    change (2 ^ 16) with 65536.
    rewrite Z.add_comm, Z.mod_add by lia. apply Z.mod_small. lia.
Qed.

Lemma vOffset_round_trip_witness :
  let o := mkOffset 123456 789 in
  0 <= File o < 2 ^ 47 /\ 0 <= Block o < 2 ^ 16 /\
  vOffset o = 123456 * 65536 + 789 /\
  Z.shiftr (vOffset o) 16 = 123456 /\ Z.land (vOffset o) 65535 = 789.
Proof.
  intros o.
  assert (H1 : 0 <= File o < 2 ^ 47) by (vm_compute; split; [discriminate | reflexivity]).
  assert (H2 : 0 <= Block o < 2 ^ 16) by (vm_compute; split; [discriminate | reflexivity]).
  split; [exact H1|]. split; [exact H2|].
  destruct (vOffset_round_trip o H1 H2) as (A & _ & B & C).
  split; [exact A|]. split; [exact B | exact C].
Defined.

(** X2. Virtual offsets are ordered as the pairs (File, Block) are: first by the
    block in the file, then by the position in the block; two offsets with
    the same virtual offset are the same. *)
Theorem vOffset_order (o1 o2 : Offset) :
  0 <= File o1 < 2 ^ 47 -> 0 <= Block o1 < 2 ^ 16 ->
  0 <= File o2 < 2 ^ 47 -> 0 <= Block o2 < 2 ^ 16 ->
  (vOffset o1 < vOffset o2 <->
   File o1 < File o2 \/ (File o1 = File o2 /\ Block o1 < Block o2)) /\
  (vOffset o1 = vOffset o2 <-> o1 = o2).
Proof.
  intros F1 B1 F2 B2.
  rewrite (vOffset_value o1 F1 B1), (vOffset_value o2 F2 B2).
  change (2 ^ 16) with 65536 in *.
  split; [lia|]. split.
  - intros H. destruct o1 as [f1 b1], o2 as [f2 b2]. simpl in *.
    assert (f1 = f2) by lia. assert (b1 = b2) by lia. subst. reflexivity.
  - intros ->. reflexivity.
Qed.

Lemma vOffset_order_witness :
  let o1 := mkOffset 10 65535 in
  let o2 := mkOffset 11 0 in
  0 <= File o1 < 2 ^ 47 /\ 0 <= Block o1 < 2 ^ 16 /\
  0 <= File o2 < 2 ^ 47 /\ 0 <= Block o2 < 2 ^ 16 /\
  vOffset o1 < vOffset o2.
Proof.
  intros o1 o2.
  assert (H1 : 0 <= File o1 < 2 ^ 47) by (vm_compute; split; [discriminate | reflexivity]).
  assert (H2 : 0 <= Block o1 < 2 ^ 16) by (vm_compute; split; [discriminate | reflexivity]).
  assert (H3 : 0 <= File o2 < 2 ^ 47) by (vm_compute; split; [discriminate | reflexivity]).
  assert (H4 : 0 <= Block o2 < 2 ^ 16) by (vm_compute; split; [discriminate | reflexivity]).
  split; [exact H1|]. split; [exact H2|]. split; [exact H3|]. split; [exact H4|].
  apply (proj1 (vOffset_order o1 o2 H1 H2 H3 H4)). left. vm_compute. reflexivity.
Defined.

(** ** Sorted arrangements *)

Section SortUnique.
Context {A : Type}.
Variable le : A -> A -> Prop.
Variable P : A -> Prop.
Hypothesis le_antisym : forall x y, P x -> P y -> le x y -> le y x -> x = y.

(** Two sorted arrangements of the same elements are the same list. *)
Lemma sorted_perm_eq (l1 l2 : list A) :
  Forall P l1 -> StronglySorted le l1 -> StronglySorted le l2 ->
  Permutation l1 l2 -> l1 = l2.
Proof.
  revert l2. induction l1 as [|x t1 IH]; intros l2 HP S1 S2 Hp.
  - apply Permutation_nil in Hp. congruence.
  - destruct l2 as [|y t2].
    + apply Permutation_sym, Permutation_nil in Hp. discriminate.
    + inversion S1 as [|? ? St1 Hx]; subst. inversion S2 as [|? ? St2 Hy]; subst.
      inversion HP as [|? ? Px Pt]; subst.
      assert (E : x = y).
      { assert (I1 : In x (y :: t2)) by (eapply Permutation_in; [exact Hp | left; reflexivity]).
        assert (I2 : In y (x :: t1))
          by (eapply Permutation_in; [apply Permutation_sym; exact Hp | left; reflexivity]).
        destruct I1 as [->|I1]; [reflexivity|].
        destruct I2 as [->|I2]; [reflexivity|].
        rewrite Forall_forall in Hx, Hy, Pt.
        apply le_antisym; auto. }
      subst y. f_equal. apply IH; auto.
      eapply Permutation_cons_inv. exact Hp.
Qed.
End SortUnique.

Lemma sort_int64_perm (l1 l2 : list Z) :
  Permutation l1 l2 -> sort_Slice Z.ltb l1 = sort_Slice Z.ltb l2.
Proof.
  intros Hp.
  apply (sorted_perm_eq Z.le (fun _ => True)).
  - intros x y _ _. lia.
  - apply Forall_forall. intros; exact I.
  - apply sort_int64_sorted.
  - apply sort_int64_sorted.
  - rewrite (sort_Slice_perm Z.ltb l1), (sort_Slice_perm Z.ltb l2). exact Hp.
Qed.

(** ** The median of the tile sizes *)

Lemma positive_sizes_incl (l : list Z) (m : Z) : In m (positive_sizes l) -> In m l.
Proof. unfold positive_sizes. intros H. apply filter_In in H. tauto. Qed.

Lemma median_size_In (unsorted : list Z) (m : Z) :
  median_size unsorted = Some m -> In m unsorted.
Proof.
  intros Hm. pose proof (median_size_cases unsorted) as Hc. cbv zeta in Hc.
  assert (Hin : forall v, In v (sort_Slice Z.ltb unsorted) -> In v unsorted).
  { intros v. apply Permutation_in, sort_Slice_perm. }
  destruct (nth_error (sort_Slice Z.ltb unsorted) _) as [m0|] eqn:E.
  - destruct (Z.eqb_spec m0 0) as [M0|M0].
    + rewrite Hc in Hm. apply nth_error_In in Hm.
      apply Hin, positive_sizes_incl. exact Hm.
    + rewrite Hc in Hm. injection Hm as <-. apply Hin.
      eapply nth_error_In. exact E.
  - destruct Hc as [_ H2]. congruence.
Qed.

(** X7. The median tile size depends on the multiset of the differences only,
    not on their order; a median that is returned is one of the differences
    and is not zero, so it is positive when no difference is negative. *)
Theorem median_size_permutation (l1 l2 : list Z) (m : Z) :
  Permutation l1 l2 ->
  median_size l1 = median_size l2 /\
  (median_size l1 = Some m ->
   In m l1 /\ m <> 0 /\ (Forall (fun v => 0 <= v) l1 -> 0 < m)).
Proof.
  intros Hp. split.
  - unfold median_size. rewrite (sort_int64_perm l1 l2 Hp). reflexivity.
  - intros Hm. pose proof (median_size_In l1 m Hm) as Hin.
    pose proof (median_size_nonzero l1 m Hm) as Hz.
    split; [exact Hin|]. split; [exact Hz|].
    intros Hf. rewrite Forall_forall in Hf. specialize (Hf m Hin). lia.
Qed.

Lemma median_size_permutation_witness :
  Permutation [5; 0; 3; 0; 9] [0; 0; 3; 5; 9] /\
  median_size [5; 0; 3; 0; 9] = median_size [0; 0; 3; 5; 9] /\
  median_size [0; 0; 3; 5; 9] = Some 3.
Proof.
  assert (H : Permutation [5; 0; 3; 0; 9] [0; 0; 3; 5; 9]).
  { apply (perm_trans (l' := [0; 5; 3; 0; 9])); [apply perm_swap|].
    apply perm_skip.
    apply (perm_trans (l' := [3; 5; 0; 9])); [apply perm_swap|].
    apply (perm_trans (l' := [3; 0; 5; 9])); [apply perm_skip, perm_swap|].
    apply (perm_trans (l' := [0; 3; 5; 9])); [apply perm_swap|].
    apply Permutation_refl. }
  split; [exact H|].
  destruct (median_size_permutation _ _ 3 H) as [E _].
  split; [exact E|]. vm_compute. reflexivity.
Defined.

Lemma tile_sizes_last (l : list (list Z)) (r : list Z) :
  tile_sizes (l ++ [r]) = flat_map ref_sizes l.
Proof.
  unfold tile_sizes. rewrite length_app. simpl length.
  replace (length l + 1 - 1)%nat with (length l) by lia.
  rewrite firstn_app, Nat.sub_diag, firstn_all. simpl. rewrite app_nil_r. reflexivity.
Qed.

(** X6. The last reference of an index never contributes to the median: [init]
    computes the same median whatever the tiles of the last reference are,
    and it panics (index out of range) on an index with a single reference
    or with none, as does the first call of [NormalizedDepth] on such an
    index. *)
Theorem init_ignores_last_reference (l : list (list Z)) (r1 r2 : list Z) :
  median_size (tile_sizes (l ++ [r1])) = median_size (tile_sizes (l ++ [r2])) /\
  (forall (b : BamIndex) (M : float64) (rs : list (list Z)) (refID start end_ : Z),
     (length b <= 1)%nat ->
     init (mkIndex (Some b) M rs) = None /\
     NormalizedDepth (mkIndex (Some b) (S754_zero false) rs) refID start end_ = None).
Proof.
  split.
  - rewrite !tile_sizes_last. reflexivity.
  - intros b M rs refID start end_ Hb.
    assert (E : tile_sizes (getRefs b) = []).
    { unfold getRefs, tile_sizes.
      destruct b as [|r [|r' b']]; [reflexivity | reflexivity | simpl in Hb; lia]. }
    assert (I : forall M', init (mkIndex (Some b) M' rs) = None).
    { intros M'. unfold init. cbn [bai]. rewrite E. reflexivity. }
    split; [apply I|].
    unfold NormalizedDepth, ensure_init. cbn [medianSizePerTile].
    change (F64.eqb (S754_zero false) (S754_zero false)) with true.
    cbv iota. rewrite I. reflexivity.
Qed.

Lemma init_ignores_last_reference_witness :
  (length [[0; 100; 250]] <= 1)%nat /\
  init (mkIndex (Some [[0; 100; 250]]) (S754_zero false) []) = None /\
  NormalizedDepth (mkIndex (Some [[0; 100; 250]]) (S754_zero false) []) 0 0 0 = None.
Proof.
  assert (H : (length [[0; 100; 250]] <= 1)%nat) by (simpl; lia).
  split; [exact H|].
  exact (proj2 (init_ignores_last_reference [] [] []) [[0; 100; 250]]
               (S754_zero false) [] 0 0 0 H).
Defined.

(** ** Windows of the normalized depth *)

Lemma NormalizedDepth_init (x x' : Index) (refID start end_ : Z) (d : list float32) :
  NormalizedDepth x refID start end_ = Some (x', d) -> ensure_init x = Some x'.
Proof.
  unfold NormalizedDepth.
  destruct (ensure_init x) as [x0|]; [|discriminate].
  destruct (index (refs x0) refID) as [ref|]; [|discriminate].
  destruct (_ <=? _).
  - intros H. injection H as <- _. reflexivity.
  - destruct (slice ref _ _) as [w|]; [|discriminate].
    destruct (depth_loop _ _ _ _ _); [|discriminate].
    intros H. injection H as <- _. reflexivity.
Qed.

Lemma ensure_init_again (x x' : Index) :
  ensure_init x = Some x' -> ensure_init x' = Some x'.
Proof.
  intros H. pose proof (ensure_init_median x x' H) as M.
  unfold ensure_init. rewrite M. reflexivity.
Qed.

(** X8. The median is computed once: after a call of [NormalizedDepth] that
    returns, the median of the index is not zero, and every later call on
    the index returns what the same call on the index as it was before would
    return. *)
Theorem NormalizedDepth_cached (x x' : Index) (refID start end_ : Z) (d : list float32) :
  NormalizedDepth x refID start end_ = Some (x', d) ->
  F64.eqb (medianSizePerTile x') (S754_zero false) = false /\
  forall r s e, NormalizedDepth x' r s e = NormalizedDepth x r s e.
Proof.
  intros H. apply NormalizedDepth_init in H.
  split; [eapply ensure_init_median; exact H|].
  intros r s e. unfold NormalizedDepth.
  rewrite (ensure_init_again x x' H), H. reflexivity.
Qed.

Lemma NormalizedDepth_cached_witness :
  let x := mkIndex (Some [[0; 100; 200; 350; 1000]; [0; 100; 200; 300]; [1; 2]])
                   (S754_zero false) [] in
  let x' := mkIndex None (F64.of_Z 100)
                    [[0; 100; 200; 350; 1000]; [0; 100; 200; 300]; [1; 2]] in
  let d := spec_normalized (F64.of_Z 100) [0; 100; 200; 350; 1000] 0 0 in
  NormalizedDepth x 0 0 0 = Some (x', d) /\
  NormalizedDepth x' 1 0 0 = NormalizedDepth x 1 0 0.
Proof.
  intros x x' d.
  assert (E : NormalizedDepth x 0 0 0 = Some (x', d)) by (vm_compute; reflexivity).
  split; [exact E|].
  apply (proj2 (NormalizedDepth_cached x x' 0 0 0 d E)).
Defined.

Lemma NormalizedDepth_window (x x' : Index) (refID start end_ : Z) (ref : list Z) :
  ensure_init x = Some x' ->
  index (refs x') refID = Some ref ->
  0 <= start -> 0 <= end_ ->
  NormalizedDepth x refID start end_ =
  Some (x', spec_normalized (medianSizePerTile x') ref start end_).
Proof.
  intros Hi Hr Hs He.
  unfold NormalizedDepth. rewrite Hi, Hr.
  set (M := medianSizePerTile x').
  unfold spec_normalized.
  assert (HT : 0 < TileWidth) by reflexivity.
  rewrite !Z.quot_div_nonneg by lia.
  pose proof (Z.div_pos start TileWidth Hs HT) as Hs0.
  pose proof (Z.div_pos end_ TileWidth He HT) as He0.
  set (s := start / TileWidth) in *. set (e0 := end_ / TileWidth) in *.
  assert (Hei : (if (end_ =? 0) || (len ref <=? e0) then len ref - 1 else e0) =
                (if end_ =? 0 then len ref - 1 else Z.min e0 (len ref - 1))).
  { destruct (end_ =? 0); [reflexivity|]. simpl orb.
    destruct (Z.leb_spec (len ref) e0); lia. }
  rewrite Hei. clear Hei.
  set (e := if end_ =? 0 then len ref - 1 else Z.min e0 (len ref - 1)).
  assert (Hel : e <= len ref - 1) by (subst e; destruct (end_ =? 0); lia).
  destruct (Z.leb_spec e s) as [Hes|Hes]; [reflexivity|].
  unfold slice.
  replace ((0 <=? s) && (s <=? e) && (e <=? len ref)) with true
    by (symmetry; rewrite !andb_true_iff, !Z.leb_le; lia).
  unfold len in Hel.
  rewrite (depth_loop_spec M ref s 0 (Z.to_nat (e - s)) (Z.to_nat s)) by lia.
  reflexivity.
Qed.

(** X9. Adjacent windows compose: for positions [start <= mid <= end] with
    [mid] positive, the depths of [[start, end)] are the depths of
    [[start, mid)] followed by the depths of [[mid, end)]. *)
Theorem NormalizedDepth_concat (x x' : Index) (refID start mid end_ : Z) (ref : list Z) :
  ensure_init x = Some x' ->
  index (refs x') refID = Some ref ->
  0 <= start -> start <= mid -> 0 < mid -> mid <= end_ ->
  exists d1 d2,
    NormalizedDepth x refID start mid = Some (x', d1) /\
    NormalizedDepth x refID mid end_ = Some (x', d2) /\
    NormalizedDepth x refID start end_ = Some (x', d1 ++ d2).
Proof.
  intros Hi Hr H0 H1 H2 H3.
  rewrite !(NormalizedDepth_window x x' refID _ _ ref Hi Hr) by lia.
  eexists. eexists. split; [reflexivity|]. split; [reflexivity|].
  f_equal. f_equal.
  set (M := medianSizePerTile x').
  unfold spec_normalized.
  assert (HT : 0 < TileWidth) by reflexivity.
  replace (mid =? 0) with false by (symmetry; apply Z.eqb_neq; lia).
  replace (end_ =? 0) with false by (symmetry; apply Z.eqb_neq; lia).
  pose proof (Z.div_pos start TileWidth H0 HT) as Hs0.
  pose proof (Z.div_le_mono start mid TileWidth HT H1) as Hsm.
  pose proof (Z.div_le_mono mid end_ TileWidth HT H3) as Hme.
  set (s := start / TileWidth) in *. set (m := mid / TileWidth) in *.
  set (e := end_ / TileWidth) in *.
  set (f := fun i => tile_depth M (nth (S i) ref 0) (nth i ref 0)).
  set (L := len ref - 1).
  destruct (Z.leb_spec (Z.min e L) s) as [A|A].
  - (* the whole window is empty *)
    replace (Z.min m L <=? s) with true by (symmetry; apply Z.leb_le; lia).
    replace (Z.min e L <=? m) with true by (symmetry; apply Z.leb_le; lia).
    reflexivity.
  - destruct (Z.leb_spec (Z.min m L) s) as [B|B].
    + (* the first window is empty: m <= s, so m = s *)
      cbn [app]. assert (m = s) by lia.
      replace (Z.min e L <=? m) with false by (symmetry; apply Z.leb_gt; lia).
      replace m with s by lia. reflexivity.
    + destruct (Z.leb_spec (Z.min e L) m) as [C|C].
      * (* the second window is empty *)
        rewrite app_nil_r. replace (Z.min m L) with (Z.min e L) by lia. reflexivity.
      * rewrite <- map_app. f_equal.
        replace (Z.min m L) with m by lia.
        replace (Z.to_nat (Z.min e L - s))
          with (Z.to_nat (m - s) + Z.to_nat (Z.min e L - m))%nat by lia.
        rewrite seq_app. f_equal. f_equal. lia.
Qed.

Lemma NormalizedDepth_concat_witness :
  let x := mkIndex (Some [[0; 100; 200; 350; 1000]; [0; 100; 200; 300]; [1; 2]])
                   (S754_zero false) [] in
  let x' := mkIndex None (F64.of_Z 100)
                    [[0; 100; 200; 350; 1000]; [0; 100; 200; 300]; [1; 2]] in
  ensure_init x = Some x' /\
  index (refs x') 0 = Some [0; 100; 200; 350; 1000] /\
  0 <= 0 /\ 0 <= 32768 /\ 0 < 32768 /\ 32768 <= 65536 /\
  exists d1 d2,
    NormalizedDepth x 0 0 32768 = Some (x', d1) /\
    NormalizedDepth x 0 32768 65536 = Some (x', d2) /\
    NormalizedDepth x 0 0 65536 = Some (x', d1 ++ d2).
Proof.
  intros x x'.
  assert (H1 : ensure_init x = Some x') by (vm_compute; reflexivity).
  assert (H2 : index (refs x') 0 = Some [0; 100; 200; 350; 1000]) by reflexivity.
  assert (H3 : 0 <= 0) by lia.
  assert (H4 : 0 <= 32768) by lia.
  assert (H5 : 0 < 32768) by lia.
  assert (H6 : 32768 <= 65536) by lia.
  split; [exact H1|]. split; [exact H2|]. split; [exact H3|]. split; [exact H4|].
  split; [exact H5|]. split; [exact H6|].
  exact (NormalizedDepth_concat x x' 0 0 32768 65536 _ H1 H2 H3 H4 H5 H6).
Defined.

(** X10. Arguments out of range.  A reference ID that is negative or not below
    the number of references panics; a start less than one tile below zero
    is read as zero (the division truncates toward zero); a start further
    below zero panics on a reference that is not empty whenever the end is
    above [- TileWidth], the end 0 included, and with an end at or below
    [- TileWidth] it panics exactly when the tile of the end is after the
    tile of the start, the result being empty otherwise; an end at or past
    the last tile is read as the end of the reference. *)
Theorem NormalizedDepth_out_of_range (x x' : Index) (refID start end_ : Z) (ref : list Z) :
  ensure_init x = Some x' ->
  index (refs x') refID = Some ref ->
  (forall r, r < 0 \/ len (refs x') <= r -> NormalizedDepth x r start end_ = None) /\
  (- TileWidth < start < 0 ->
   NormalizedDepth x refID start end_ = NormalizedDepth x refID 0 end_) /\
  (start <= - TileWidth -> 1 <= len ref -> - TileWidth < end_ ->
   NormalizedDepth x refID start end_ = None) /\
  (start <= - TileWidth -> end_ <= - TileWidth ->
   NormalizedDepth x refID start end_ =
   if Z.quot end_ TileWidth <=? Z.quot start TileWidth then Some (x', []) else None) /\
  (len ref * TileWidth <= end_ ->
   NormalizedDepth x refID start end_ = NormalizedDepth x refID start 0).
Proof.
  intros Hi Hr.
  assert (HT : TileWidth = 16384) by reflexivity.
  assert (Hneg : forall p, p <= - TileWidth -> Z.quot p TileWidth <= -1).
  { intros p Hp. rewrite <- (Z.opp_involutive p), Z.quot_opp_l by lia.
    assert (1 <= Z.quot (- p) TileWidth); [|lia].
    rewrite Z.quot_div_nonneg by lia.
    apply Z.div_le_lower_bound; lia. }
  split; [|split; [|split; [|split]]].
  - intros r Hrange. unfold NormalizedDepth. rewrite Hi.
    replace (index (refs x') r) with (@None (list Z)); [reflexivity|].
    symmetry. unfold index. destruct Hrange as [H|H].
    + replace (r <? 0) with true by (symmetry; apply Z.ltb_lt; lia). reflexivity.
    + destruct (r <? 0); [reflexivity|]. apply nth_error_None. unfold len in H. lia.
  - intros Hs. unfold NormalizedDepth.
    replace (Z.quot start TileWidth) with (Z.quot 0 TileWidth); [reflexivity|].
    change (Z.quot 0 TileWidth) with 0. symmetry.
    rewrite <- (Z.opp_involutive start), Z.quot_opp_l by lia.
    rewrite Z.quot_small by lia. reflexivity.
  - intros Hs Hl He. unfold NormalizedDepth. rewrite Hi, Hr.
    pose proof (Hneg start Hs) as Hq.
    assert (Hq0 : 0 <= Z.quot end_ TileWidth).
    { destruct (Z_le_dec 0 end_) as [H0|H0].
      - apply Z.quot_pos; lia.
      - rewrite <- (Z.opp_involutive end_), Z.quot_opp_l by lia.
        rewrite Z.quot_small by lia. lia. }
    set (si := Z.quot start TileWidth) in *.
    set (ei0 := Z.quot end_ TileWidth) in *.
    set (ei := if (end_ =? 0) || (len ref <=? ei0) then len ref - 1 else ei0).
    assert (Hei : 0 <= ei).
    { subst ei. destruct ((end_ =? 0) || (len ref <=? ei0)); lia. }
    replace (ei <=? si) with false by (symmetry; apply Z.leb_gt; lia).
    unfold slice.
    replace (0 <=? si) with false by (symmetry; apply Z.leb_gt; lia).
    reflexivity.
  - intros Hs He. unfold NormalizedDepth. rewrite Hi, Hr.
    pose proof (Hneg start Hs) as Hq. pose proof (Hneg end_ He) as Hq2.
    assert (0 <= len ref) by (unfold len; lia).
    replace (end_ =? 0) with false by (symmetry; apply Z.eqb_neq; lia).
    replace (len ref <=? Z.quot end_ TileWidth) with false
      by (symmetry; apply Z.leb_gt; lia).
    cbn [orb].
    destruct (Z.quot end_ TileWidth <=? Z.quot start TileWidth); [reflexivity|].
    unfold slice.
    replace (0 <=? Z.quot start TileWidth) with false
      by (symmetry; apply Z.leb_gt; lia).
    reflexivity.
  - intros He. unfold NormalizedDepth. rewrite Hi, Hr.
    assert (0 <= len ref) by (unfold len; lia).
    assert (Hq : len ref <= Z.quot end_ TileWidth).
    { rewrite Z.quot_div_nonneg by lia. apply Z.div_le_lower_bound; lia. }
    replace (len ref <=? Z.quot end_ TileWidth) with true
      by (symmetry; apply Z.leb_le; lia).
    rewrite orb_true_r. reflexivity.
Qed.

Lemma NormalizedDepth_out_of_range_witness :
  let x := mkIndex (Some [[0; 100; 200; 350; 1000]; [0; 100; 200; 300]; [1; 2]])
                   (S754_zero false) [] in
  let x' := mkIndex None (F64.of_Z 100)
                    [[0; 100; 200; 350; 1000]; [0; 100; 200; 300]; [1; 2]] in
  ensure_init x = Some x' /\
  index (refs x') 0 = Some [0; 100; 200; 350; 1000] /\
  NormalizedDepth x 3 0 0 = None /\
  NormalizedDepth x 0 (-16384) 0 = None /\
  NormalizedDepth x 0 (-16384) (-16384) = Some (x', []) /\
  NormalizedDepth x 0 (-16383) 0 = NormalizedDepth x 0 0 0.
Proof.
  intros x x'.
  assert (H1 : ensure_init x = Some x') by (vm_compute; reflexivity).
  assert (H2 : index (refs x') 0 = Some [0; 100; 200; 350; 1000]) by reflexivity.
  split; [exact H1|]. split; [exact H2|].
  split; [|split; [|split]].
  - apply (proj1 (NormalizedDepth_out_of_range x x' 0 0 0 _ H1 H2) 3).
    right. vm_compute. discriminate.
  - apply (proj1 (proj2 (proj2 (NormalizedDepth_out_of_range x x' 0 (-16384) 0 _ H1 H2)))).
    + vm_compute. discriminate.
    + vm_compute. discriminate.
    + vm_compute. reflexivity.
  - apply (proj1 (proj2 (proj2 (proj2
             (NormalizedDepth_out_of_range x x' 0 (-16384) (-16384) _ H1 H2))))).
    + vm_compute. discriminate.
    + vm_compute. discriminate.
  - apply (proj1 (proj2 (NormalizedDepth_out_of_range x x' 0 (-16383) 0 _ H1 H2))).
    vm_compute. split; reflexivity.
Defined.

(** ** Depths of a monotone index *)

Lemma f64_of_Z_nnf (n : Z) :
  0 <= n < 2 ^ 63 -> nnf F64.prec F64.emax (F64.of_Z n) = true.
Proof.
  intros [H0 H1].
  assert (Hp : 0 < F64.prec) by reflexivity.
  pose proof (of_Z_mono F64.prec F64.emax Hp n (2 ^ 63) ltac:(lia)) as L2.
  destruct (of_Z_nonneg_valid F64.prec F64.emax Hp n ltac:(lia)) as [A B].
  assert (Nb : nnf F64.prec F64.emax (binary_normalize F64.prec F64.emax (2 ^ 63) 0 false) = true)
    by reflexivity.
  exact (nnf_below F64.prec F64.emax _ _ A B Nb L2).
Qed.

Lemma f64_of_Z_pos (n : Z) :
  0 < n < 2 ^ 63 -> exists m e, F64.of_Z n = S754_finite false m e.
Proof.
  intros [H0 H1].
  assert (Hp : 0 < F64.prec) by reflexivity.
  pose proof (f64_of_Z_nnf n ltac:(lia)) as Nn.
  pose proof (of_Z_mono F64.prec F64.emax Hp 1 n ltac:(lia)) as L1.
  unfold F64.of_Z in *.
  destruct (binary_normalize F64.prec F64.emax n 0 false) as [s|s| |[|] m e];
    try discriminate.
  eauto.
Qed.

Lemma cn_depth_ok_MaxCN : cn_depth_ok MaxCN.
Proof. vm_compute. repeat split. Qed.

(** The depth of a tile whose offsets do not decrease, for a positive
    median, is a [float32] in [[0, MaxCN]]. *)
Lemma tile_depth_ok (m next o : Z) :
  0 < m < 2 ^ 63 -> 0 <= o -> o <= next -> next < 2 ^ 63 ->
  cn_depth_ok (tile_depth (F64.of_Z m) next o).
Proof.
  intros Hm Ho Hon Hn.
  unfold tile_depth, int_sub.
  rewrite wrap64_small
    by (unfold in_int64, min_int64, max_int64; apply andb_true_intro;
        split; apply Z.leb_le; lia).
  destruct (f64_of_Z_pos m Hm) as (mm & ee & Em). rewrite Em.
  pose proof (f64_of_Z_nnf (next - o) ltac:(lia)) as Nn.
  assert (Hp : 0 < F64.prec) by reflexivity.
  destruct (SFdiv_nonneg_valid F64.prec F64.emax Hp (F64.of_Z (next - o)) mm ee Nn)
    as [Q1 Q2].
  unfold F64.div.
  set (q := SFdiv F64.prec F64.emax (F64.of_Z (next - o)) (S754_finite false mm ee)) in *.
  assert (D : is_nonneg (F32.of_f64 q) = true /\ F32.valid (F32.of_f64 q) = true).
  { destruct q as [s|[|]| |[|] mq eq]; try discriminate; try (split; reflexivity).
    unfold F32.of_f64, F32.valid. split.
    - apply binary_round_nonneg. reflexivity.
    - apply binary_round_valid. reflexivity. }
  destruct D as [D1 D2].
  set (d0 := F32.of_f64 q) in *.
  destruct (F32.gtb d0 MaxCN) eqn:G; [apply cn_depth_ok_MaxCN|].
  split; [exact D2|]. split; [apply SFleb_zero_nonneg; exact D1|].
  unfold F32.gtb in G. unfold F32.leb.
  assert (N0 : is_nan d0 = false) by (destruct d0 as [s|s| |s m0 e0]; try reflexivity; discriminate).
  rewrite (SFltb_negb_leb MaxCN d0 ltac:(reflexivity) N0) in G.
  destruct (SFleb d0 MaxCN); [reflexivity | discriminate].
Qed.

Lemma monotone_nth (ref : list Z) (i : nat) :
  monotone_ref ref -> (S i < length ref)%nat ->
  0 <= nth i ref 0 /\ nth i ref 0 <= nth (S i) ref 0 /\ nth (S i) ref 0 < 2 ^ 63.
Proof.
  intros [Hs Hb] Hi. rewrite Forall_forall in Hb.
  pose proof (Hb (nth i ref 0) ltac:(apply nth_In; lia)).
  pose proof (Hb (nth (S i) ref 0) ltac:(apply nth_In; lia)).
  pose proof (sorted_nth_le ref i (S i) Hs ltac:(lia)). lia.
Qed.

Lemma monotone_sizes (refs : list (list Z)) :
  Forall monotone_ref refs -> Forall (fun v => 0 <= v < 2 ^ 63) (tile_sizes refs).
Proof.
  intros Hm. rewrite tile_sizes_spec. unfold spec_sizes.
  apply Forall_forall. intros v Hv.
  apply in_flat_map in Hv. destruct Hv as (r & Hr & Hv).
  apply in_map_iff in Hv. destruct Hv as (i & <- & Hi). apply in_seq in Hi.
  assert (Hmr : monotone_ref r).
  { rewrite Forall_forall in Hm. apply Hm.
    destruct refs as [|r0 t]; [contradiction|].
    rewrite (app_removelast_last (l := r0 :: t) []) by discriminate.
    apply in_or_app. left. exact Hr. }
  destruct (monotone_nth r i Hmr ltac:(lia)) as (A & B & C).
  rewrite wrap64_small
    by (unfold in_int64, min_int64, max_int64; apply andb_true_intro;
        split; apply Z.leb_le; lia).
  lia.
Qed.

(** What a call that returns has computed. *)
Lemma NormalizedDepth_shape (x x' : Index) (refID start end_ : Z) (d : list float32) :
  NormalizedDepth x refID start end_ = Some (x', d) ->
  exists ref, In ref (refs x') /\
    (d = [] \/
     exists k n, (k + n < length ref)%nat /\
       d = map (fun j => tile_depth (medianSizePerTile x') (nth (S j) ref 0) (nth j ref 0))
               (seq k n)).
Proof.
  unfold NormalizedDepth.
  destruct (ensure_init x) as [x0|]; [|discriminate].
  destruct (index (refs x0) refID) as [ref|] eqn:Er; [|discriminate].
  assert (Hin : In ref (refs x0)).
  { unfold index in Er. destruct (refID <? 0); [discriminate|].
    eapply nth_error_In. exact Er. }
  set (si := Z.quot start TileWidth).
  set (ei0 := Z.quot end_ TileWidth).
  set (ei := if (end_ =? 0) || (len ref <=? ei0) then len ref - 1 else ei0).
  assert (Hei : ei <= len ref - 1).
  { subst ei. destruct (end_ =? 0); [simpl; lia|]. simpl.
    destruct (Z.leb_spec (len ref) ei0); lia. }
  destruct (ei <=? si) eqn:Les.
  - intros H. injection H as <- <-. exists ref. split; [exact Hin | left; reflexivity].
  - apply Z.leb_gt in Les. unfold slice.
    destruct ((0 <=? si) && (si <=? ei) && (ei <=? len ref)) eqn:B; [|discriminate].
    apply andb_true_iff in B. destruct B as [B _].
    apply andb_true_iff in B. destruct B as [B0 _]. apply Z.leb_le in B0.
    unfold len in Hei.
    rewrite (depth_loop_spec (medianSizePerTile x0) ref si 0 (Z.to_nat (ei - si))
               (Z.to_nat si)) by lia.
    intros H. injection H as <- <-. exists ref. split; [exact Hin|].
    right. exists (Z.to_nat si), (Z.to_nat (ei - si)). split; [lia | reflexivity].
Qed.

(** X11. On an index that has not been initialised and whose tile offsets are
    not negative and do not decrease, every depth that [NormalizedDepth]
    returns is a [float32] in [[0, MaxCN]]; [CountsAtDepth], called on these
    depths with a histogram of 70 slots as [run] does, does not panic. *)
Theorem NormalizedDepth_monotone (b : BamIndex) (rs : list (list Z)) (x' : Index)
    (refID start end_ : Z) (d : list float32) (counts : list Z) :
  Forall monotone_ref b ->
  NormalizedDepth (mkIndex (Some b) (S754_zero false) rs) refID start end_ = Some (x', d) ->
  len counts = slots ->
  Forall cn_depth_ok d /\
  exists counts', CountsAtDepth d counts = Some counts' /\ len counts' = slots.
Proof.
  intros Hb H Hl.
  pose proof (NormalizedDepth_init _ _ _ _ _ _ H) as Hi.
  unfold ensure_init in Hi. cbn [medianSizePerTile] in Hi.
  change (F64.eqb (S754_zero false) (S754_zero false)) with true in Hi. cbv iota in Hi.
  unfold init in Hi. cbn [bai] in Hi. unfold getRefs in Hi.
  destruct (median_size (tile_sizes b)) as [m|] eqn:Em; [|discriminate].
  injection Hi as <-.
  assert (Hm : 0 < m < 2 ^ 63).
  { pose proof (median_size_In _ m Em) as Hin.
    pose proof (median_size_nonzero _ m Em) as Hz.
    pose proof (monotone_sizes b Hb) as Hs. rewrite Forall_forall in Hs.
    specialize (Hs m Hin). lia. }
  assert (Hd : Forall cn_depth_ok d).
  { destruct (NormalizedDepth_shape _ _ _ _ _ _ H) as (ref & Hin & [->|(k & n & Hkn & ->)]).
    - constructor.
    - cbn [medianSizePerTile refs] in *.
      apply Forall_forall. intros v Hv. apply in_map_iff in Hv.
      destruct Hv as (j & <- & Hj). apply in_seq in Hj.
      rewrite Forall_forall in Hb.
      destruct (monotone_nth ref j (Hb ref Hin) ltac:(lia)) as (A & B & C).
      apply tile_depth_ok; assumption. }
  split; [exact Hd|].
  unfold CountsAtDepth. rewrite Hl, Z.eqb_refl. cbn [negb].
  apply count_depths_ok; [exact Hl|].
  apply Forall_forall. intros v Hv. rewrite Forall_forall in Hd.
  destruct (Hd v Hv) as (V & H0 & HM).
  split; [exact V|]. split; [exact H0|].
  unfold F32.leb in *. eapply SFleb_trans; [exact HM|]. vm_compute. reflexivity.
Qed.

Lemma NormalizedDepth_monotone_witness :
  let b := [[0; 100; 200; 350; 1000]; [0; 100; 200; 300]; [1; 2]] in
  let x' := mkIndex None (F64.of_Z 100) b in
  let d := spec_normalized (F64.of_Z 100) [0; 100; 200; 350; 1000] 0 0 in
  Forall monotone_ref b /\
  NormalizedDepth (mkIndex (Some b) (S754_zero false) []) 0 0 0 = Some (x', d) /\
  len (repeat 0 70) = slots /\
  Forall cn_depth_ok d /\
  exists counts', CountsAtDepth d (repeat 0 70) = Some counts' /\ len counts' = slots.
Proof.
  intros b x' d.
  assert (H1 : Forall monotone_ref b).
  { repeat constructor; try lia; try (vm_compute; discriminate); try (vm_compute; reflexivity). }
  assert (H2 : NormalizedDepth (mkIndex (Some b) (S754_zero false) []) 0 0 0 = Some (x', d))
    by (vm_compute; reflexivity).
  assert (H3 : len (repeat 0 70) = slots) by reflexivity.
  split; [exact H1|]. split; [exact H2|]. split; [exact H3|].
  exact (NormalizedDepth_monotone b [] x' 0 0 0 d (repeat 0 70) H1 H2 H3).
Defined.

(** ** Histograms: reuse and order of the depths *)

Lemma zero_repeat (ints : list Z) : zero ints = repeat 0 (length ints).
Proof. induction ints as [|x t IH]; simpl; [reflexivity|]. rewrite <- IH. reflexivity. Qed.

(** X13. [run] clears the histogram of a sample with [zero] before it counts the
    next reference: whatever the histogram held, [CountsAtDepth] then gives
    what it gives on a fresh histogram, and the counts it leaves are not
    negative and add up to the number of depths. *)
Theorem histogram_reuse (depths : list float32) (counts : list Z) :
  len counts = slots ->
  CountsAtDepth depths (zero counts) = CountsAtDepth depths (repeat 0 70) /\
  (forall h, CountsAtDepth depths (zero counts) = Some h -> len depths < 2 ^ 63 ->
     len h = slots /\ Forall (fun c => 0 <= c) h /\ sumZ h = len depths).
Proof.
  intros Hl.
  assert (E : zero counts = repeat 0 70).
  { rewrite zero_repeat. unfold len, slots in Hl.
    replace (length counts) with 70%nat by lia. reflexivity. }
  rewrite E. split; [reflexivity|].
  intros h H Hd. unfold CountsAtDepth in H. simpl negb in H. cbv iota in H.
  destruct (count_depths_histogram depths (repeat 0 70) h H) as (N & S & L).
  { apply Forall_forall. intros x Hx. apply repeat_spec in Hx. lia. }
  { rewrite sumZ_repeat0. lia. }
  rewrite sumZ_repeat0 in S. rewrite repeat_length in L.
  split; [unfold len, slots; lia|]. split; [exact N | lia].
Qed.

Lemma histogram_reuse_witness :
  len (map Z.of_nat (seq 0 70)) = slots /\
  CountsAtDepth [F32.of_Z 1; F32.of_Z 2] (zero (map Z.of_nat (seq 0 70))) =
  CountsAtDepth [F32.of_Z 1; F32.of_Z 2] (repeat 0 70).
Proof.
  assert (H : len (map Z.of_nat (seq 0 70)) = slots) by reflexivity.
  split; [exact H|].
  exact (proj1 (histogram_reuse [F32.of_Z 1; F32.of_Z 2] _ H)).
Defined.

Lemma incr_None (counts : list Z) (s : Z) :
  ~ (0 <= s < len counts) -> incr counts s = None.
Proof.
  intros H. unfold incr, index.
  destruct (Z.ltb_spec s 0) as [Hs|Hs]; [reflexivity|].
  replace (nth_error counts (Z.to_nat s)) with (@None Z); [reflexivity|].
  symmetry. apply nth_error_None. unfold len in H. lia.
Qed.

Lemma nth_ext_Z (l1 l2 : list Z) :
  length l1 = length l2 -> (forall i, nth i l1 0 = nth i l2 0) -> l1 = l2.
Proof.
  intros HL H. apply (nth_ext l1 l2 0 0 HL). intros i _. apply H.
Qed.

Lemma incr_comm (counts : list Z) (i j : Z) :
  match incr counts i with Some c => incr c j | None => None end =
  match incr counts j with Some c => incr c i | None => None end.
Proof.
  destruct (Z_le_dec 0 i) as [Hi0|Hi0];
    [destruct (Z_lt_dec i (len counts)) as [Hi1|Hi1]|].
  - destruct (incr_spec counts i ltac:(lia)) as (ci & Ei & Li & Ni). rewrite Ei.
    destruct (Z_le_dec 0 j) as [Hj0|Hj0];
      [destruct (Z_lt_dec j (len counts)) as [Hj1|Hj1]|].
    + destruct (incr_spec counts j ltac:(lia)) as (cj & Ej & Lj & Nj). rewrite Ej.
      destruct (incr_spec ci j ltac:(lia)) as (cij & Eij & Lij & Nij). rewrite Eij.
      destruct (incr_spec cj i ltac:(lia)) as (cji & Eji & Lji & Nji). rewrite Eji.
      f_equal. apply nth_ext_Z; [unfold len in *; lia|].
      intros k. rewrite Nij, Nji, Ni, Nj.
      destruct (Z.eqb_spec (Z.of_nat k) j), (Z.eqb_spec (Z.of_nat k) i); reflexivity.
    + rewrite (incr_None counts j) by lia. apply incr_None. lia.
    + rewrite (incr_None counts j) by lia. apply incr_None. lia.
  - rewrite (incr_None counts i) by lia.
    destruct (incr counts j) as [cj|] eqn:Ej; [|reflexivity].
    symmetry. apply incr_None.
    assert (len cj = len counts); [|lia].
    destruct (Z_le_dec 0 j) as [Hj0|Hj0];
      [destruct (Z_lt_dec j (len counts)) as [Hj1|Hj1]|].
    + destruct (incr_spec counts j ltac:(lia)) as (c & E & L & _). congruence.
    + rewrite (incr_None counts j) in Ej by lia. discriminate.
    + rewrite (incr_None counts j) in Ej by lia. discriminate.
  - rewrite (incr_None counts i) by lia.
    destruct (incr counts j) as [cj|] eqn:Ej; [|reflexivity].
    symmetry. apply incr_None. lia.
Qed.

Lemma count_depths_perm (d1 d2 : list float32) :
  Permutation d1 d2 -> forall counts, count_depths d1 counts = count_depths d2 counts.
Proof.
  induction 1 as [|x l1 l2 Hp IH|x y l|l1 l2 l3 H1 IH1 H2 IH2]; intros counts.
  - reflexivity.
  - cbn [count_depths]. destruct (incr counts (slot_of x)); [apply IH | reflexivity].
  - cbn [count_depths].
    pose proof (incr_comm counts (slot_of y) (slot_of x)) as C.
    destruct (incr counts (slot_of y)) as [cy|], (incr counts (slot_of x)) as [cx|].
    + rewrite C. reflexivity.
    + rewrite C. reflexivity.
    + rewrite <- C. reflexivity.
    + reflexivity.
  - rewrite IH1. apply IH2.
Qed.

(** X14. The histogram does not depend on the order of the depths: on two
    arrangements of the same depths [CountsAtDepth] leaves the same counts,
    or panics on both. *)
Theorem CountsAtDepth_permutation (d1 d2 : list float32) (counts : list Z) :
  Permutation d1 d2 -> CountsAtDepth d1 counts = CountsAtDepth d2 counts.
Proof.
  intros H. unfold CountsAtDepth.
  destruct (negb (len counts =? slots)); [reflexivity|].
  apply count_depths_perm. exact H.
Qed.

Lemma CountsAtDepth_permutation_witness :
  Permutation [F32.of_Z 1; F32.of_Z 0; F32.const 3 2] [F32.of_Z 0; F32.const 3 2; F32.of_Z 1] /\
  CountsAtDepth [F32.of_Z 1; F32.of_Z 0; F32.const 3 2] (repeat 0 70) =
  CountsAtDepth [F32.of_Z 0; F32.const 3 2; F32.of_Z 1] (repeat 0 70).
Proof.
  assert (H : Permutation [F32.of_Z 1; F32.of_Z 0; F32.const 3 2]
                          [F32.of_Z 0; F32.const 3 2; F32.of_Z 1]).
  { apply (perm_trans (l' := [F32.of_Z 0; F32.of_Z 1; F32.const 3 2])); [apply perm_swap|].
    apply perm_skip. apply perm_swap. }
  split; [exact H|].
  exact (CountsAtDepth_permutation _ _ (repeat 0 70) H).
Defined.

(** ** ROCs of the samples *)

Lemma totals_of_length (counts : list Z) : length (totals_of counts) = length counts.
Proof.
  induction counts as [|c t IH]; [reflexivity|].
  cbn [totals_of]. destruct (totals_of t) as [|t0 ts] eqn:E.
  - destruct t; [reflexivity | simpl in IH; discriminate].
  - simpl in *. lia.
Qed.

Lemma CountsROC_length (counts : list Z) :
  match CountsROC counts with
  | None => counts = []
  | Some roc => length roc = length counts /\ counts <> []
  end.
Proof.
  unfold CountsROC. pose proof (totals_of_length counts) as L.
  destruct (totals_of counts) as [|t0 ts].
  - destruct counts; [reflexivity | discriminate].
  - rewrite length_map. split; [exact L|]. intros ->. discriminate.
Qed.

(** X15. [getROCs] panics (index out of range in [CountsROC]) exactly when the
    histogram of some sample is empty; otherwise it returns one ROC per
    sample, as long as the histogram of the sample, so that the histograms
    of 70 slots that [run] fills give ROCs of 70 entries, which is what
    [writeROCs] reads. *)
Theorem getROCs_lengths (counts : list (list Z)) :
  (getROCs counts = None <-> In [] counts) /\
  (forall rocs, getROCs counts = Some rocs ->
     length rocs = length counts /\
     Forall2 (fun c r => length r = length c) counts rocs /\
     (Forall (fun c => len c = slots) counts -> Forall (fun r => len r = slots) rocs)).
Proof.
  induction counts as [|c t [IH1 IH2]].
  - split.
    + split; [discriminate | intros []].
    + intros rocs H. injection H as <-. repeat split; constructor.
  - cbn [getROCs]. pose proof (CountsROC_length c) as Hc.
    destruct (CountsROC c) as [r|].
    + destruct Hc as [Lr Hne]. destruct (getROCs t) as [rs|].
      * split.
        -- split; [discriminate|]. intros [H|H]; [congruence|].
           apply IH1 in H. discriminate.
        -- intros rocs H. injection H as <-.
           destruct (IH2 rs eq_refl) as (L & F & G).
           split; [simpl; lia|]. split; [constructor; assumption|].
           intros Hs. inversion Hs as [|? ? Hc0 Ht]; subst.
           constructor; [unfold len in *; lia | apply G; exact Ht].
      * split; [|discriminate].
        split; [intros _; right; apply IH1; reflexivity | reflexivity].
    + subst c. split; [|discriminate].
      split; [intros _; left; reflexivity | reflexivity].
Qed.

Lemma getROCs_lengths_witness :
  exists rocs,
    getROCs [repeat 1 70; repeat 2 70] = Some rocs /\ length rocs = 2%nat /\
    Forall (fun r => len r = slots) rocs.
Proof.
  destruct (getROCs [repeat 1 70; repeat 2 70]) as [rocs|] eqn:E;
    [|vm_compute in E; discriminate].
  exists rocs. split; [reflexivity|].
  destruct (proj2 (getROCs_lengths [repeat 1 70; repeat 2 70]) rocs E) as (L & _ & G).
  split; [exact L|]. apply G. repeat constructor.
Defined.

(** ** The bin counter over the references *)

Lemma in_int64_iff (z : Z) : in_int64 z = true <-> min_int64 <= z <= max_int64.
Proof.
  unfold in_int64. rewrite andb_true_iff, !Z.leb_le. tauto.
Qed.

Lemma count1_inv (T : Z) (c : counter) (d : float32) :
  counter_inv T c -> T + 1 <= max_int64 ->
  counter_inv (T + 1) (count1 c d) /\
  out c <= out (count1 c d) /\ low c <= low (count1 c d) /\
  hi c <= hi (count1 c d) /\ in_ c <= in_ (count1 c d).
Proof.
  intros (L & H & I & B & S & M) HT.
  assert (A : forall v, 0 <= v <= T -> int_add v 1 = v + 1).
  { intros v Hv. apply wrap64_small, in_int64_iff. unfold min_int64. lia. }
  unfold count1.
  destruct (F32.ltb d lo_bound || F32.gtb d hi_bound).
  - cbn [out low hi in_].
    destruct (F32.gtb d hi_bound); [|destruct (F32.ltb d low_bound)];
      unfold counter_inv; cbn [out low hi in_];
      rewrite ?(A (out c)), ?(A (hi c)), ?(A (low c)) by lia; lia.
  - unfold counter_inv; cbn [out low hi in_]. rewrite (A (in_ c)) by lia. lia.
Qed.

Lemma fold_count1_inv (depths : list float32) (T : Z) (c : counter) :
  counter_inv T c -> T + len depths <= max_int64 ->
  counter_inv (T + len depths) (fold_left count1 depths c) /\
  out c <= out (fold_left count1 depths c) /\
  low c <= low (fold_left count1 depths c) /\
  hi c <= hi (fold_left count1 depths c) /\
  in_ c <= in_ (fold_left count1 depths c).
Proof.
  revert T c. induction depths as [|d t IH]; intros T c Hc HT.
  - unfold len in *. simpl in *. rewrite Z.add_0_r. split; [exact Hc | lia].
  - cbn [fold_left]. unfold len in *. cbn [length] in *.
    destruct (count1_inv T c d Hc ltac:(lia)) as (H1 & M1).
    destruct (IH (T + 1) (count1 c d) H1 ltac:(lia)) as (H2 & M2).
    replace (T + Z.of_nat (S (length t))) with (T + 1 + Z.of_nat (length t)) by lia.
    split; [exact H2 | lia].
Qed.

Lemma count_inv (T : Z) (c : counter) (depths : list float32) (n : Z) :
  counter_inv T c -> len depths <= n -> T + n <= max_int64 ->
  counter_inv (T + n) (count c depths n) /\
  out c + (n - len depths) <= out (count c depths n) /\
  low c + (n - len depths) <= low (count c depths n) /\
  hi c <= hi (count c depths n) /\ in_ c <= in_ (count c depths n).
Proof.
  intros Hc Hn HT.
  assert (H0 : 0 <= len depths) by (unfold len; lia).
  destruct (fold_count1_inv depths T c Hc ltac:(lia)) as (F & M).
  unfold count. set (c1 := fold_left count1 depths c) in *.
  destruct F as (L & H & I & B & S & Mx).
  destruct Hc as (L0 & H0' & I0 & B0 & S0 & Mx0).
  assert (A : forall v, 0 <= v <= T + len depths ->
                        int_add v (int_sub n (len depths)) = v + (n - len depths)).
  { intros v Hv. unfold int_add, int_sub.
    rewrite (wrap64_small (n - len depths))
      by (apply in_int64_iff; unfold min_int64, max_int64 in *; lia).
    apply wrap64_small, in_int64_iff. unfold min_int64, max_int64 in *. lia. }
  unfold counter_inv. cbn [out low hi in_].
  rewrite (A (out c1)), (A (low c1)) by lia.
  repeat split; lia.
Qed.

(** X16. The counter keeps its invariant over a reference: when [n] is at least
    the number of depths, as in [run], no field becomes negative or
    decreases, [hi] and [low] together stay at most [out], and [out] and [in]
    together grow by exactly [n], whatever the depths are.  The counter
    [&counter{}] that [run] starts from has the invariant for no bin. *)
Theorem count_invariant (T : Z) (c : counter) (depths : list float32) (n : Z) :
  counter_inv T c -> len depths <= n -> T + n <= max_int64 ->
  counter_inv (T + n) (count c depths n) /\
  out c + (n - len depths) <= out (count c depths n) /\
  low c + (n - len depths) <= low (count c depths n) /\
  hi c <= hi (count c depths n) /\ in_ c <= in_ (count c depths n) /\
  counter_inv 0 (mkCounter 0 0 0 0).
Proof.
  intros Hc Hn HT.
  destruct (count_inv T c depths n Hc Hn HT) as (A & B & C & D & E).
  repeat (split; [assumption|]).
  unfold counter_inv, max_int64. simpl. lia.
Qed.

Lemma count_invariant_witness :
  counter_inv 0 (mkCounter 0 0 0 0) /\
  len [F32.of_Z 1; F32.const 1 10; S754_nan] <= 5 /\ 0 + 5 <= max_int64 /\
  counter_inv (0 + 5) (count (mkCounter 0 0 0 0) [F32.of_Z 1; F32.const 1 10; S754_nan] 5).
Proof.
  assert (H1 : counter_inv 0 (mkCounter 0 0 0 0)).
  { unfold counter_inv, max_int64. simpl. lia. }
  assert (H2 : len [F32.of_Z 1; F32.const 1 10; S754_nan] <= 5)
    by (vm_compute; discriminate).
  assert (H3 : 0 + 5 <= max_int64) by (vm_compute; discriminate).
  split; [exact H1|]. split; [exact H2|]. split; [exact H3|].
  exact (proj1 (count_invariant 0 _ _ 5 H1 H2 H3)).
Defined.

(** X17. The column [p.out] of the pedigree file divides without a guard: for a
    sample without a bin counted in [in] it is [+Inf] when some bin is
    counted in [out] and NaN when none is; otherwise it is not negative and
    not NaN. *)
Theorem p_out_division (T : Z) (c : counter) :
  counter_inv T c ->
  (in_ c = 0 -> 0 < out c -> p_out c = S754_infinity false) /\
  (in_ c = 0 -> out c = 0 -> p_out c = S754_nan) /\
  (0 < in_ c -> is_nonneg (p_out c) = true /\ F64.valid (p_out c) = true).
Proof.
  intros (L & H & I & B & S & M).
  assert (Hmax : max_int64 < 2 ^ 63) by (unfold max_int64; lia).
  unfold p_out. split; [|split].
  - intros E Ho. rewrite E.
    destruct (f64_of_Z_pos (out c) ltac:(lia)) as (m & e & ->). reflexivity.
  - intros E Ho. rewrite E, Ho. reflexivity.
  - intros Hi.
    destruct (f64_of_Z_pos (in_ c) ltac:(lia)) as (m & e & ->).
    apply (SFdiv_nonneg_valid F64.prec F64.emax ltac:(reflexivity)).
    apply f64_of_Z_nnf. lia.
Qed.

Lemma p_out_division_witness :
  counter_inv 7 (mkCounter 7 2 3 0) /\
  p_out (mkCounter 7 2 3 0) = S754_infinity false.
Proof.
  assert (H : counter_inv 7 (mkCounter 7 2 3 0)).
  { unfold counter_inv, max_int64. simpl. lia. }
  split; [exact H|].
  apply (proj1 (p_out_division 7 _ H)); [reflexivity | reflexivity].
Defined.

(** ** The longest sample and the rows of the matrix *)

Lemma longest_loop_spec (depths : list (list float32)) (k l i : Z) :
  let r := longest_loop depths k l i in
  l <= fst r /\
  (forall d, In d depths -> len d <= fst r) /\
  ((fst r = l /\ snd r = i) \/
   (l < fst r /\
    exists j d, nth_error depths j = Some d /\ snd r = k + Z.of_nat j /\
                len d = fst r /\
                forall j' d', (j' < j)%nat -> nth_error depths j' = Some d' ->
                              len d' < fst r)).
Proof.
  revert k l i. induction depths as [|d t IH]; intros k l i; cbn [longest_loop].
  - cbv zeta. cbn [fst snd]. split; [lia|]. split; [intros d []|]. left. split; reflexivity.
  - cbv zeta. destruct (Z.ltb_spec l (len d)) as [Hl|Hl].
    + specialize (IH (k + 1) (len d) k). cbv zeta in IH.
      destruct IH as (A & B & C).
      set (r := longest_loop t (k + 1) (len d) k) in *.
      split; [lia|]. split.
      * intros d0 [<-|H]; [exact A | apply B; exact H].
      * right. split; [lia|].
        destruct C as [[C1 C2]|(C1 & j & d0 & N & E & L & P)].
        -- exists 0%nat, d. split; [reflexivity|]. split; [lia|]. split; [lia|].
           intros j' d' Hj. lia.
        -- exists (S j), d0. split; [exact N|]. split; [lia|]. split; [exact L|].
           intros [|j'] d' Hj Hn.
           ++ injection Hn as <-. lia.
           ++ apply (P j' d'); [lia | exact Hn].
    + specialize (IH (k + 1) l i). cbv zeta in IH.
      destruct IH as (A & B & C).
      set (r := longest_loop t (k + 1) l i) in *.
      split; [lia|]. split.
      * intros d0 [<-|H]; [lia | apply B; exact H].
      * destruct C as [[C1 C2]|(C1 & j & d0 & N & E & L & P)].
        -- left. split; assumption.
        -- right. split; [exact C1|].
           exists (S j), d0. split; [exact N|]. split; [lia|]. split; [exact L|].
           intros [|j'] d' Hj Hn.
           ++ injection Hn as <-. lia.
           ++ apply (P j' d'); [lia | exact Hn].
Qed.

(** X18. [longest] is the greatest number of depths of a sample and [longesti]
    the first sample that has as many; without a depth in any sample both
    are 0.  With at least one sample, [depths[longesti]] is in range and has
    [longest] entries; without samples it is out of range, so [run] panics
    on its first reference. *)
Theorem longest_of_spec (depths : list (list float32)) :
  let longest := fst (longest_of depths) in
  let longesti := snd (longest_of depths) in
  0 <= longest /\
  (forall d, In d depths -> len d <= longest) /\
  ((longest = 0 /\ longesti = 0) \/
   (0 < longest /\
    exists j d, longesti = Z.of_nat j /\ nth_error depths j = Some d /\ len d = longest /\
                forall j' d', (j' < j)%nat -> nth_error depths j' = Some d' ->
                              len d' < longest)) /\
  match index depths longesti with
  | Some d => len d = longest
  | None => depths = []
  end.
Proof.
  intros longest longesti.
  pose proof (longest_loop_spec depths 0 0 0) as H. cbv zeta in H.
  fold (longest_of depths) in H. fold longest in H. fold longesti in H.
  destruct H as (A & B & C).
  split; [exact A|]. split; [exact B|].
  assert (C' : (longest = 0 /\ longesti = 0) \/
   (0 < longest /\
    exists j d, longesti = Z.of_nat j /\ nth_error depths j = Some d /\ len d = longest /\
                forall j' d', (j' < j)%nat -> nth_error depths j' = Some d' ->
                              len d' < longest)).
  { destruct C as [C|(C1 & j & d & N & E & L & P)]; [left; exact C|].
    right. split; [exact C1|]. exists j, d. repeat split; auto. }
  split; [exact C'|].
  destruct C' as [[C1 C2]|(C1 & j & d & E & N & L & P)].
  - rewrite C2. unfold index. cbn.
    destruct depths as [|d t]; [reflexivity|]. cbn.
    assert (0 <= len d) by (unfold len; lia).
    specialize (B d (or_introl eq_refl)). lia.
  - rewrite E. unfold index.
    replace (Z.of_nat j <? 0) with false by (symmetry; apply Z.ltb_ge; lia).
    rewrite Nat2Z.id, N. exact L.
Qed.

Lemma extend_row_length (row : list Z) (d : list float32) (longest : Z) :
  len d <= longest -> len (extend_row row d longest) = len row + longest.
Proof.
  intros H. unfold extend_row, len in *.
  rewrite !length_app, length_map, repeat_length. lia.
Qed.

Lemma quantize_byte (d : float32) : 0 <= quantize d < 256.
Proof.
  unfold quantize, uint8_of_float. cbv zeta. apply Z.mod_pos_bound. lia.
Qed.

Lemma extend_row_bytes (row : list Z) (d : list float32) (longest : Z) :
  Forall (fun v => 0 <= v < 256) row ->
  Forall (fun v => 0 <= v < 256) (extend_row row d longest).
Proof.
  intros H. unfold extend_row. apply Forall_app. split; [exact H|].
  apply Forall_app. split.
  - apply Forall_forall. intros v Hv. apply in_map_iff in Hv.
    destruct Hv as (x & <- & _). apply quantize_byte.
  - apply Forall_forall. intros v Hv. apply repeat_spec in Hv. lia.
Qed.

(** X19. For a reference that is not a sex chromosome, the loop of [run] over
    the samples extends every row of the matrix by exactly [longest]
    entries, all of them bytes, so that rows of equal length stay of equal
    length, which [pca] needs; and every counter grows by [longest] bins and
    keeps its invariant, so that [out + in] is the same for all samples. *)
Theorem non_sex_step_rows (pca8 : list (list Z)) (offs : list counter)
    (depths : list (list float32)) (L T : Z) :
  length pca8 = length depths -> length offs = length depths ->
  Forall (fun row => len row = L /\ Forall (fun v => 0 <= v < 256) row) pca8 ->
  Forall (counter_inv T) offs ->
  T + fst (longest_of depths) <= max_int64 ->
  let longest := fst (longest_of depths) in
  let rows := fst (non_sex_step pca8 offs depths) in
  let cs := snd (non_sex_step pca8 offs depths) in
  length rows = length depths /\
  Forall (fun row => len row = L + longest /\ Forall (fun v => 0 <= v < 256) row) rows /\
  length cs = length depths /\
  Forall (counter_inv (T + longest)) cs.
Proof.
  intros Hp Ho Hr Hc HT longest rows cs.
  pose proof (longest_loop_spec depths 0 0 0) as Hmax. cbv zeta in Hmax.
  destruct Hmax as (_ & Hmax & _). fold (longest_of depths) in Hmax. fold longest in Hmax.
  subst rows cs. unfold non_sex_step. fold longest. cbn [fst snd].
  split; [rewrite length_map, length_combine; lia|].
  split; [|split; [rewrite length_map, length_combine; lia|]].
  - apply Forall_forall. intros row Hrow. apply in_map_iff in Hrow.
    destruct Hrow as ([r d] & <- & Hin). cbn [fst snd].
    pose proof (in_combine_l _ _ _ _ Hin) as Hin1.
    pose proof (in_combine_r _ _ _ _ Hin) as Hin2.
    rewrite Forall_forall in Hr. destruct (Hr r Hin1) as [Hl Hb].
    split.
    + rewrite extend_row_length by (apply Hmax; exact Hin2). lia.
    + apply extend_row_bytes. exact Hb.
  - apply Forall_forall. intros c Hcin. apply in_map_iff in Hcin.
    destruct Hcin as ([c0 d] & <- & Hin). cbn [fst snd].
    pose proof (in_combine_l _ _ _ _ Hin) as Hin1.
    pose proof (in_combine_r _ _ _ _ Hin) as Hin2.
    rewrite Forall_forall in Hc.
    apply count_inv; [apply Hc; exact Hin1 | apply Hmax; exact Hin2 | exact HT].
Qed.

Lemma non_sex_step_rows_witness :
  let pca8 := [[1; 2]; [3; 4]] in
  let offs := [mkCounter 1 0 1 1; mkCounter 0 0 0 2] in
  let depths := [[F32.of_Z 1]; [F32.of_Z 1; F32.const 1 128; F32.of_Z 2]] in
  length pca8 = length depths /\ length offs = length depths /\
  Forall (fun row => len row = 2 /\ Forall (fun v => 0 <= v < 256) row) pca8 /\
  Forall (counter_inv 2) offs /\
  2 + fst (longest_of depths) <= max_int64 /\
  Forall (fun row => len row = 2 + fst (longest_of depths) /\
                     Forall (fun v => 0 <= v < 256) row)
         (fst (non_sex_step pca8 offs depths)) /\
  Forall (counter_inv (2 + fst (longest_of depths))) (snd (non_sex_step pca8 offs depths)).
Proof.
  intros pca8 offs depths.
  assert (H1 : length pca8 = length depths) by reflexivity.
  assert (H2 : length offs = length depths) by reflexivity.
  assert (H3 : Forall (fun row => len row = 2 /\ Forall (fun v => 0 <= v < 256) row) pca8).
  { repeat constructor; lia. }
  assert (H4 : Forall (counter_inv 2) offs).
  { repeat constructor; unfold max_int64; simpl; lia. }
  assert (H5 : 2 + fst (longest_of depths) <= max_int64) by (vm_compute; discriminate).
  split; [exact H1|]. split; [exact H2|]. split; [exact H3|]. split; [exact H4|].
  split; [exact H5|].
  destruct (non_sex_step_rows pca8 offs depths 2 2 H1 H2 H3 H4 H5) as (_ & A & _ & B).
  split; [exact A | exact B].
Defined.

(** ** The copy number and the order of the depths *)

Lemma lex_compare_eq (a b : Z * (Z * Z)) :
  lex_compare a b <> Gt -> lex_compare b a <> Gt -> a = b.
Proof.
  destruct a as [a1 [a2 a3]], b as [b1 [b2 b3]]. unfold lex_compare. cbn [fst snd].
  intros H1 H2.
  assert (a1 = b1).
  { destruct (Z.compare_spec a1 b1), (Z.compare_spec b1 a1); try lia; congruence. }
  subst b1. rewrite Z.compare_refl in H1, H2.
  assert (a2 = b2).
  { destruct (Z.compare_spec a2 b2), (Z.compare_spec b2 a2); try lia; congruence. }
  subst b2. rewrite Z.compare_refl in H1, H2.
  assert (a3 = b3).
  { destruct (Z.compare_spec a3 b3), (Z.compare_spec b3 a3); try lia; congruence. }
  subst b3. reflexivity.
Qed.

Lemma rank_inj (x y : spec_float) :
  is_nan x = false -> is_nan y = false ->
  SFeqb x (S754_zero false) = false -> SFeqb y (S754_zero false) = false ->
  rank x = rank y -> x = y.
Proof.
  destruct x as [sx|[|]| |[|] mx ex], y as [sy|[|]| |[|] my ey];
    simpl; intros; try discriminate; try reflexivity;
    match goal with
    | H : (_, (_, _)) = (_, (_, _)) |- _ => injection H as ? ?
    end; f_equal; lia.
Qed.

Lemma SFleb_antisym (x y : spec_float) :
  SFeqb x (S754_zero false) = false -> SFeqb y (S754_zero false) = false ->
  SFleb x y = true -> SFleb y x = true -> x = y.
Proof.
  intros Zx Zy H1 H2.
  apply SFleb_rank in H1. apply SFleb_rank in H2.
  destruct H1 as (Nx & Ny & L1). destruct H2 as (_ & _ & L2).
  apply rank_inj; auto. apply lex_compare_eq; assumption.
Qed.

Lemma filter_perm {A : Type} (f : A -> bool) (l1 l2 : list A) :
  Permutation l1 l2 -> Permutation (filter f l1) (filter f l2).
Proof.
  induction 1 as [|x l1 l2 Hp IH|x y l|l1 l2 l3 H1 IH1 H2 IH2]; simpl.
  - constructor.
  - destruct (f x); [constructor|]; exact IH.
  - destruct (f x), (f y); try reflexivity. apply perm_swap.
  - eapply perm_trans; eassumption.
Qed.

Lemma sort_f32_perm (l1 l2 : list float32) :
  Forall (fun d => is_nan d = false /\ SFeqb d (S754_zero false) = false) l1 ->
  Permutation l1 l2 -> sort_Slice F32.ltb l1 = sort_Slice F32.ltb l2.
Proof.
  intros HP Hp.
  assert (HP2 : Forall (fun d => is_nan d = false /\ SFeqb d (S754_zero false) = false) l2).
  { rewrite Forall_forall in *. intros d Hd. apply HP.
    eapply Permutation_in; [apply Permutation_sym; exact Hp | exact Hd]. }
  assert (N1 : Forall (fun d => is_nan d = false) l1)
    by (eapply Forall_impl; [|exact HP]; simpl; tauto).
  assert (N2 : Forall (fun d => is_nan d = false) l2)
    by (eapply Forall_impl; [|exact HP2]; simpl; tauto).
  apply (sorted_perm_eq (fun a b => F32.leb a b = true)
           (fun d => is_nan d = false /\ SFeqb d (S754_zero false) = false)).
  - intros x y [_ Zx] [_ Zy]. apply SFleb_antisym; assumption.
  - rewrite Forall_forall in *. intros d Hd. apply HP.
    eapply Permutation_in; [apply sort_Slice_perm | exact Hd].
  - apply sort_f32_sorted. exact N1.
  - apply sort_f32_sorted. exact N2.
  - rewrite (sort_Slice_perm F32.ltb l1), (sort_Slice_perm F32.ltb l2). exact Hp.
Qed.

(** X20. The copy number of a sample does not depend on the order of its depths:
    for depths without a NaN, [GetCN] returns the same value on every
    arrangement of them. *)
Theorem GetCN_permutation (d1 d2 : list float32) :
  Forall (fun v => is_nan v = false) d1 -> Permutation d1 d2 ->
  sample_CN d1 = sample_CN d2 /\ GetCN [d1] = GetCN [d2].
Proof.
  intros Hn Hp.
  assert (E : sample_CN d1 = sample_CN d2).
  { unfold sample_CN.
    set (nz := fun dp => F32.neqb dp (S754_zero false)).
    pose proof (filter_perm nz d1 d2 Hp) as Hf.
    assert (Hl : len (filter nz d1) = len (filter nz d2)).
    { unfold len. f_equal. apply Permutation_length. exact Hf. }
    rewrite Hl.
    rewrite (sort_f32_perm (filter nz d1) (filter nz d2)); [reflexivity| |exact Hf].
    apply Forall_forall. intros v Hv. apply filter_In in Hv. destruct Hv as [Hv Hz].
    rewrite Forall_forall in Hn. split; [apply Hn; exact Hv|].
    subst nz. unfold F32.neqb in Hz. cbv beta in Hz.
    destruct (SFeqb v (S754_zero false)); [discriminate | reflexivity]. }
  split; [exact E|]. cbn [GetCN]. rewrite E. reflexivity.
Qed.

Lemma GetCN_permutation_witness :
  let d1 := [F32.of_Z 1; F32.of_Z 0; F32.const 3 2] in
  let d2 := [F32.of_Z 0; F32.const 3 2; F32.of_Z 1] in
  Forall (fun v => is_nan v = false) d1 /\ Permutation d1 d2 /\
  GetCN [d1] = GetCN [d2].
Proof.
  intros d1 d2.
  assert (H1 : Forall (fun v => is_nan v = false) d1) by (repeat constructor).
  assert (H2 : Permutation d1 d2).
  { apply (perm_trans (l' := [F32.of_Z 0; F32.of_Z 1; F32.const 3 2])); [apply perm_swap|].
    apply perm_skip. apply perm_swap. }
  split; [exact H1|]. split; [exact H2|].
  exact (proj2 (GetCN_permutation d1 d2 H1 H2)).
Defined.

(** ** The name of a sample without a read group *)

Lemma HasPrefix_char (s : gostring) (c : ascii) :
  strings.HasPrefix s [c] = match s with x :: _ => Ascii.eqb x c | [] => false end.
Proof.
  unfold strings.HasPrefix. destruct s as [|x t]; [reflexivity|].
  cbn. rewrite andb_true_r. reflexivity.
Qed.

Lemma Index_cons (x c : ascii) (t : gostring) :
  strings.Index (x :: t) [c] =
  if Ascii.eqb x c then 0
  else if strings.Index t [c] <? 0 then -1 else strings.Index t [c] + 1.
Proof. cbn [strings.Index]. rewrite HasPrefix_char. reflexivity. Qed.

Lemma Index_nil (c : ascii) : strings.Index [] [c] = -1.
Proof. reflexivity. Qed.

(** [Index] finds the first instance of a byte. *)
Lemma Index_char (s : gostring) (c : ascii) :
  (strings.Index s [c] = -1 /\ ~ In c s) \/
  (exists pre post, s = pre ++ c :: post /\ ~ In c pre /\
                    strings.Index s [c] = Z.of_nat (length pre)).
Proof.
  induction s as [|x t IH].
  - left. split; [reflexivity | intros []].
  - rewrite Index_cons. destruct (Ascii.eqb_spec x c) as [->|Hx].
    + right. exists [], t. repeat split. intros [].
    + destruct IH as [[E N]|(pre & post & E & N & I)].
      * left. rewrite E. split; [reflexivity|]. intros [H|H]; [congruence | contradiction].
      * right. exists (x :: pre), post. rewrite I. split; [rewrite E; reflexivity|].
        split; [intros [H|H]; [congruence | contradiction]|].
        replace (Z.of_nat (length pre) <? 0) with false
          by (symmetry; apply Z.ltb_ge; lia).
        cbn [length]. lia.
Qed.

Lemma skipn_past (pre post : gostring) (c : ascii) :
  skipn (Z.to_nat (Z.of_nat (length pre)) + length [c]) (pre ++ c :: post) = post.
Proof.
  rewrite Nat2Z.id. cbn [length].
  replace (length pre + 1)%nat with (length (pre ++ [c])) by (rewrite length_app; reflexivity).
  replace (pre ++ c :: post) with ((pre ++ [c]) ++ post) by (rewrite <- app_assoc; reflexivity).
  rewrite skipn_app, Nat.sub_diag, skipn_all. reflexivity.
Qed.

(** The number of instances of a byte in a string. *)
Lemma Count_loop_char (fuel : nat) (s : gostring) (c : ascii) :
  (length s <= fuel)%nat ->
  strings.Count_loop fuel s [c] = Z.of_nat (count_occ ascii_dec s c).
Proof.
  revert s. induction fuel as [|fuel IH]; intros s Hf.
  - destruct s; [reflexivity | simpl in Hf; lia].
  - cbn [strings.Count_loop]. cbv zeta.
    destruct (Index_char s c) as [[E N]|(pre & post & E & N & I)].
    + rewrite E. rewrite (proj1 (count_occ_not_In ascii_dec s c) N). reflexivity.
    + rewrite I.
      replace (Z.of_nat (length pre) <? 0) with false by (symmetry; apply Z.ltb_ge; lia).
      rewrite E at 1. rewrite skipn_past.
      rewrite IH by (rewrite E, length_app in Hf; simpl in Hf; lia).
      rewrite E, count_occ_app. cbn [count_occ].
      destruct (ascii_dec c c) as [_|Hc]; [|congruence].
      rewrite (proj1 (count_occ_not_In ascii_dec pre c) N). lia.
Qed.

Lemma split_loop_last (fuel : nat) (s : gostring) (c : ascii) (n i : Z) :
  n - i = Z.of_nat (count_occ ascii_dec s c) ->
  (count_occ ascii_dec s c < fuel)%nat ->
  forall d v, ~ In c v -> (s = v \/ s = d ++ c :: v) ->
  last (strings.split_loop fuel s [c] n i) [] = v.
Proof.
  revert s n i. induction fuel as [|fuel IH]; intros s n i Hn Hf d v Hv Hs; [lia|].
  cbn [strings.split_loop]. cbv zeta.
  destruct (Index_char s c) as [[E N]|(pre & post & E & N & I)].
  - (* no separator is left *)
    assert (s = v).
    { destruct Hs as [H|H]; [exact H|]. exfalso. apply N. rewrite H.
      apply in_or_app. right. left. reflexivity. }
    subst s. rewrite E.
    destruct (i <? n); reflexivity.
  - assert (Hc : count_occ ascii_dec s c = S (count_occ ascii_dec post c)).
    { rewrite E, count_occ_app. cbn [count_occ].
      destruct (ascii_dec c c) as [_|Hc]; [|congruence].
      rewrite (proj1 (count_occ_not_In ascii_dec pre c) N). lia. }
    replace (i <? n) with true by (symmetry; apply Z.ltb_lt; lia).
    rewrite I.
    replace (Z.of_nat (length pre) <? 0) with false by (symmetry; apply Z.ltb_ge; lia).
    rewrite E at 2. rewrite skipn_past.
    assert (Hpost : post = v \/ exists d', post = d' ++ c :: v).
    { destruct Hs as [H|H].
      - exfalso. apply Hv. rewrite <- H, E. apply in_or_app. right. left. reflexivity.
      - (* the first separator of [s] is in [d] or is the last one *)
        rewrite E in H.
        assert (Hd : ~ In c d \/ In c d) by (destruct (in_dec ascii_dec c d); tauto).
        destruct Hd as [Hd|Hd].
        + left.
          assert (L : pre = d /\ post = v).
          { revert d H Hd. clear -N. induction pre as [|x p IHp]; intros [|y d] H Hd.
            - injection H as ->. split; reflexivity.
            - injection H as <- _. exfalso. apply Hd. left. reflexivity.
            - injection H as -> _. exfalso. apply N. left. reflexivity.
            - injection H as -> H. destruct (IHp ltac:(intros X; apply N; right; exact X) d H
                                                  ltac:(intros X; apply Hd; right; exact X)).
              split; [f_equal|]; assumption. }
          tauto.
        + right.
          assert (L : exists d', d = pre ++ c :: d').
          { revert d H Hd. clear -N. induction pre as [|x p IHp]; intros [|y d] H Hd.
            - contradiction.
            - injection H as <- _. exists d. reflexivity.
            - contradiction.
            - injection H as -> H.
              destruct Hd as [Hd|Hd]; [exfalso; apply N; left; congruence|].
              destruct (IHp ltac:(intros X; apply N; right; exact X) d H Hd) as [d' ->].
              exists d'. reflexivity. }
          destruct L as [d' ->]. exists d'.
          rewrite <- app_assoc in H. apply app_inv_head in H.
          injection H as H. exact H. }
    assert (R : last (strings.split_loop fuel post [c] n (i + 1)) [] = v).
    { destruct Hpost as [H|[d' H]].
      - apply (IH post n (i + 1) ltac:(lia) ltac:(lia) [] v Hv). left. exact H.
      - apply (IH post n (i + 1) ltac:(lia) ltac:(lia) d' v Hv). right. exact H. }
    destruct (strings.split_loop fuel post [c] n (i + 1)) as [|h r] eqn:Es.
    + destruct fuel; cbn [strings.split_loop] in Es;
        repeat match type of Es with
               | context [if ?b then _ else _] => destruct b
               end; discriminate.
    + cbn [last]. exact R.
Qed.

Lemma count_occ_le_length (s : gostring) (c : ascii) :
  (count_occ ascii_dec s c <= length s)%nat.
Proof.
  induction s as [|x t IH]; [simpl; lia|].
  cbn [count_occ length]. destruct (ascii_dec x c); lia.
Qed.

Lemma Split_last (s d v : gostring) (c : ascii) :
  ~ In c v -> (s = v \/ s = d ++ c :: v) ->
  strings.Split s [c] <> [] /\ last (strings.Split s [c]) [] = v.
Proof.
  intros Hv Hs. unfold strings.Split, strings.SplitN. change (-1 =? 0) with false.
  change (-1 <? 0) with true. cbv iota zeta.
  unfold strings.Count. rewrite Count_loop_char by lia.
  pose proof (count_occ_le_length s c) as Hc.
  replace (Z.of_nat (length s) + 1 <? Z.of_nat (count_occ ascii_dec s c) + 1) with false
    by (symmetry; apply Z.ltb_ge; lia).
  split.
  - replace (length s + 1)%nat with (S (length s)) by lia. cbn [strings.split_loop].
    repeat match goal with
           | |- context [if ?b then _ else _] => destruct b
           end; discriminate.
  - apply (split_loop_last _ s c _ 0) with (d := d); [lia | lia | exact Hv | exact Hs].
Qed.

Lemma index_last {A : Type} (l : list A) (d : A) :
  l <> [] -> index l (len l - 1) = Some (last l d).
Proof.
  intros H. destruct (exists_last H) as (l' & a & ->).
  rewrite last_last. unfold index, len. rewrite length_app. cbn [length].
  replace (Z.of_nat (length l' + 1) - 1 <? 0) with false by (symmetry; apply Z.ltb_ge; lia).
  replace (Z.to_nat (Z.of_nat (length l' + 1) - 1)) with (length l') by lia.
  rewrite nth_error_app2 by lia. rewrite Nat.sub_diag. reflexivity.
Qed.

Lemma SplitN_one (v sep : gostring) : strings.SplitN v sep 1 = [v].
Proof.
  unfold strings.SplitN. change (1 =? 0) with false. change (1 <? 0) with false.
  cbv iota zeta.
  replace (Z.of_nat (length v) + 1 <? 1) with false by (symmetry; apply Z.ltb_ge; lia).
  replace (length v + 1)%nat with (S (length v)) by lia. reflexivity.
Qed.

Lemma short_name_of_path_last (dir v : gostring) :
  ~ In "/"%char v ->
  short_name_of_path v = Some v /\
  short_name_of_path (dir ++ "/"%char :: v) = Some v.
Proof.
  intros Hv.
  assert (G : forall s, (s = v \/ s = dir ++ "/"%char :: v) -> short_name_of_path s = Some v).
  { intros s Hs. unfold short_name_of_path. cbv zeta.
    destruct (Split_last s dir v "/"%char Hv Hs) as [Hne Hl].
    rewrite (index_last (A := gostring) _ [] Hne), Hl, SplitN_one. reflexivity. }
  split; apply G; [left | right]; reflexivity.
Qed.

(** X21. The name of a sample.  When the header has no read group, the name
    is the last component of the path of the bam, whole:
    [strings.SplitN(v, ".", 1)] returns [v] unsplit, so the extension of the
    file stays in the name.  When the header has a read group, with or
    without a sample, the path is not used: the name is the SM value of one
    of the read groups, which is the empty string for a read group without
    the tag; when all read groups give the same value, the name is that
    value. *)
Theorem getShortName_result (sms : list gostring) (first : nat) (b dir v : gostring) :
  (~ In "/"%char v ->
   getShortName [] first v = Some v /\
   getShortName [] first (dir ++ "/"%char :: v) = Some v) /\
  (sms <> [] -> exists sm, In sm sms /\ getShortName sms first b = Some sm) /\
  (sms <> [] -> forall sm, (forall k, In k sms -> k = sm) ->
   getShortName sms first b = Some sm) /\
  (getShortName sms first b = short_name_of_path b \/ sms <> []).
Proof.
  assert (P : sms <> [] -> exists sm, In sm sms /\ getShortName sms first b = Some sm).
  { intros Hne. unfold getShortName.
    destruct (sample_keys sms) as [|k ks] eqn:E.
    - exfalso. destruct sms as [|s0 t]; [congruence|].
      assert (In s0 (sample_keys (s0 :: t))) by (apply nodup_In; left; reflexivity).
      rewrite E in H. contradiction.
    - eexists. split; [|reflexivity].
      apply (nodup_In (list_eq_dec ascii_dec)). fold (sample_keys sms). rewrite E.
      apply nth_In. apply Nat.mod_upper_bound. discriminate. }
  split; [|split; [exact P|split]].
  - intros Hv. unfold getShortName. cbn [sample_keys nodup].
    apply short_name_of_path_last. exact Hv.
  - intros Hne sm Hall. destruct (P Hne) as (k & Hk & E).
    rewrite E. f_equal. apply Hall. exact Hk.
  - destruct sms as [|s0 t]; [left; reflexivity | right; discriminate].
Qed.

Lemma getShortName_result_witness :
  let v := ["s"; "1"; "."; "b"; "a"; "m"]%char in
  ~ In "/"%char v /\
  getShortName [] 0 (["d"; "/"; "e"; "/"]%char ++ v) = Some v /\
  [[]] <> ([] : list gostring) /\
  getShortName [[]] 0 (["d"; "/"; "e"; "/"]%char ++ v) = Some [].
Proof.
  intros v.
  assert (H : ~ In "/"%char v).
  { simpl. intros [X|[X|[X|[X|[X|[X|[]]]]]]]; discriminate. }
  assert (H2 : [[]] <> ([] : list gostring)) by discriminate.
  split; [exact H|].
  split; [exact (proj2 (proj1 (getShortName_result [] 0 [] ["d"; "/"; "e"]%char v) H))|].
  split; [exact H2|].
  apply (proj1 (proj2 (proj2
           (getShortName_result [[]] 0 (["d"; "/"; "e"; "/"]%char ++ v) [] [])))).
  - exact H2.
  - intros k [<-|[]]. reflexivity.
Defined.

(** ** The scale of the normalized depth *)

Lemma f64_div_self (m : positive) (e : Z) :
  F64.div (S754_finite false m e) (S754_finite false m e) = F64.of_Z 1.
Proof.
  unfold F64.div. rewrite (SFdiv_Rq F64.prec F64.emax ltac:(reflexivity)).
  cbv zeta.
  assert (He : div_exp F64.prec F64.emax m m e e = -53).
  { unfold div_exp. rewrite !Z.sub_diag. reflexivity. }
  rewrite He. replace (e - e - -53) with 53 by lia.
  unfold Rq.
  assert (Hq : Zpos m * 2 ^ 53 / Zpos m = 2 ^ 53).
  { rewrite Z.mul_comm. apply Z.div_mul. lia. }
  rewrite Hq.
  change (fexp F64.prec F64.emax (Zdigits2 (2 ^ 53) + -53)) with (-52).
  change (2 ^ (-52 - -53)) with 2.
  replace (2 * (Zpos m * 2 ^ 53)) with (2 ^ 53 * (Zpos m * 2)) by lia.
  rewrite K_exact by lia.
  vm_compute. reflexivity.
Qed.

(** X12. The depths are scaled by the median: for a positive median, a tile
    whose size is the median has the depth 1 exactly, and a tile of size
    zero has the depth 0 exactly, the value that [GetCN] discards. *)
Theorem tile_depth_scale (m o : Z) :
  0 < m < 2 ^ 63 -> 0 <= o -> o + m < 2 ^ 63 ->
  tile_depth (F64.of_Z m) (o + m) o = F32.of_Z 1 /\
  tile_depth (F64.of_Z m) o o = S754_zero false /\
  F32.neqb (tile_depth (F64.of_Z m) o o) (S754_zero false) = false.
Proof.
  intros Hm Ho Hom.
  destruct (f64_of_Z_pos m Hm) as (mm & ee & Em).
  assert (W : forall z, 0 <= z < 2 ^ 63 -> wrap64 z = z).
  { intros z Hz. apply wrap64_small. unfold in_int64, min_int64, max_int64.
    apply andb_true_intro. split; apply Z.leb_le; lia. }
  assert (A : tile_depth (F64.of_Z m) o o = S754_zero false).
  { unfold tile_depth, int_sub. rewrite Z.sub_diag, (W 0) by lia.
    rewrite Em. reflexivity. }
  split; [|split; [exact A | rewrite A; reflexivity]].
  unfold tile_depth, int_sub.
  replace (o + m - o) with m by lia. rewrite (W m) by lia.
  rewrite Em, f64_div_self. reflexivity.
Qed.

Lemma tile_depth_scale_witness :
  0 < 100 < 2 ^ 63 /\ 0 <= 250 /\ 250 + 100 < 2 ^ 63 /\
  tile_depth (F64.of_Z 100) (250 + 100) 250 = F32.of_Z 1.
Proof.
  assert (H1 : 0 < 100 < 2 ^ 63) by lia.
  assert (H2 : 0 <= 250) by lia.
  assert (H3 : 250 + 100 < 2 ^ 63) by lia.
  split; [exact H1|]. split; [exact H2|]. split; [exact H3|].
  exact (proj1 (tile_depth_scale 100 250 H1 H2 H3)).
Defined.

(** ** Monotonicity of the slot and of the depth *)

(** X22. The histogram keeps the order of the depths: for depths in
    [[0, 2 ^ 57]], a depth that is not smaller is counted in a slot that is
    not lower, and the slots are in [[0, 69]]. *)
Theorem slot_of_monotone (d1 d2 : float32) :
  depth_ok d1 -> depth_ok d2 -> F32.leb d1 d2 = true ->
  0 <= slot_of d1 /\ slot_of d1 <= slot_of d2 /\ slot_of d2 <= 69.
Proof.
  intros H1 H2 Hle.
  pose proof (depth_ok_nnf d1 H1) as N1. pose proof (depth_ok_nnf d2 H2) as N2.
  destruct (depth_ok_slot d1 H1) as (z1 & T1 & _ & _ & _ & E1 & R1 & S1).
  destruct (depth_ok_slot d2 H2) as (z2 & T2 & _ & _ & _ & E2 & R2 & S2).
  destruct H2 as (_ & _ & HL2).
  destruct (slot_value_mono d1 d2 N1 N2 HL2 Hle) as (V1 & V2 & Hv).
  destruct (trunc_mono F32.prec F32.emax ltac:(reflexivity) _ _ V1 V2 Hv)
    as (y1 & y2 & Y1 & Y2 & Hy).
  rewrite T1 in Y1. rewrite T2 in Y2. injection Y1 as <-. injection Y2 as <-.
  rewrite E1, E2, S1, S2. lia.
Qed.

Lemma slot_of_monotone_witness :
  depth_ok (F32.const 1 2) /\ depth_ok (F32.of_Z 1) /\
  F32.leb (F32.const 1 2) (F32.of_Z 1) = true /\
  slot_of (F32.const 1 2) <= slot_of (F32.of_Z 1).
Proof.
  assert (H1 : depth_ok (F32.const 1 2)) by (vm_compute; repeat split).
  assert (H2 : depth_ok (F32.of_Z 1)) by (vm_compute; repeat split).
  assert (H3 : F32.leb (F32.const 1 2) (F32.of_Z 1) = true) by (vm_compute; reflexivity).
  split; [exact H1|]. split; [exact H2|]. split; [exact H3|].
  exact (proj1 (proj2 (slot_of_monotone _ _ H1 H2 H3))).
Defined.

Lemma f64_of_Z_shape (n : Z) :
  0 < n < 2 ^ 63 ->
  exists m e, F64.of_Z n = S754_finite false m e /\
              bounded F64.prec F64.emax m e = true /\
              -52 <= e <= 11 /\ Zpos (digits2_pos m) = 53.
Proof.
  intros [H0 H1].
  assert (Hp : 0 < F64.prec) by reflexivity.
  pose proof (of_Z_mono F64.prec F64.emax Hp 1 n ltac:(lia)) as L1.
  pose proof (of_Z_mono F64.prec F64.emax Hp n (2 ^ 63) ltac:(lia)) as L2.
  pose proof (f64_of_Z_nnf n ltac:(lia)) as Nn.
  unfold F64.of_Z in *.
  destruct (binary_normalize F64.prec F64.emax n 0 false) as [s|s| |[|] m e];
    try discriminate.
  simpl in Nn. exists m, e. split; [reflexivity|]. split; [exact Nn|].
  change (binary_normalize F64.prec F64.emax 1 0 false)
    with (S754_finite false 4503599627370496 (-52)) in L1.
  change (binary_normalize F64.prec F64.emax (2 ^ 63) 0 false)
    with (S754_finite false 4503599627370496 11) in L2.
  apply SFleb_fin_inv in L1. apply SFleb_fin_inv in L2.
  destruct (bounded_digits F64.prec F64.emax Hp m e Nn) as (C & _ & U & _).
  pose proof (digits2_pos_bounds m) as [D1 D2].
  assert (He : -52 <= e <= 11) by lia.
  split; [exact He|].
  unfold fexp, emin, F64.prec, F64.emax in C. lia.
Qed.

Lemma f64_div_normal_of_Z (n : Z) (m : positive) (e : Z) :
  0 <= n < 2 ^ 63 -> -52 <= e <= 11 -> Zpos (digits2_pos m) = 53 ->
  div_normal F64.prec F64.emax (F64.of_Z n) m e.
Proof.
  intros Hn He Hd.
  destruct (Z.eq_dec n 0) as [->|Hz]; [exact I|].
  destruct (f64_of_Z_shape n ltac:(lia)) as (mn & en & -> & _ & Hen & Hdn).
  unfold div_normal, emin, F64.prec, F64.emax. lia.
Qed.

Lemma SFleb_infinity x : is_nonneg x = true -> SFleb x (S754_infinity false) = true.
Proof. destruct x as [s|[|]| |[|] m e]; simpl; intros; try discriminate; reflexivity. Qed.

(** The conversion of a non-negative [float64] to [float32] keeps the
    order. *)
Lemma f64_narrow_mono (q1 q2 : float64) :
  is_nonneg q1 = true -> F64.valid q1 = true ->
  is_nonneg q2 = true -> F64.valid q2 = true -> SFleb q1 q2 = true ->
  is_nonneg (F32.of_f64 q1) = true /\ is_nonneg (F32.of_f64 q2) = true /\
  SFleb (F32.of_f64 q1) (F32.of_f64 q2) = true.
Proof.
  intros P1 V1 P2 V2 Hle.
  assert (Hp : 0 < F32.prec) by reflexivity.
  assert (A : forall q, is_nonneg q = true -> is_nonneg (F32.of_f64 q) = true).
  { intros q Hq. destruct q as [s|[|]| |[|] m e]; try discriminate; try reflexivity.
    apply binary_round_nonneg. exact Hp. }
  split; [apply A; exact P1|]. split; [apply A; exact P2|].
  destruct q1 as [s1|[|]| |[|] m1 e1]; try discriminate.
  - apply SFleb_zero_nonneg. apply A. exact P2.
  - destruct q2 as [s2|[|]| |[|] m2 e2]; try discriminate. reflexivity.
  - destruct q2 as [s2|[|]| |[|] m2 e2]; try discriminate.
    + apply SFleb_infinity. apply (A (S754_finite false m1 e1)). reflexivity.
    + unfold F32.of_f64. apply binary_round_mono; [exact Hp|].
      apply (valid_leb_dle F64.prec F64.emax); [reflexivity| | |exact Hle].
      * exact V1.
      * exact V2.
Qed.

(** The clamp at [MaxCN] keeps the order. *)
Lemma clamp_mono (d1 d2 : float32) :
  is_nonneg d1 = true -> is_nonneg d2 = true -> SFleb d1 d2 = true ->
  SFleb (if F32.gtb d1 MaxCN then MaxCN else d1)
        (if F32.gtb d2 MaxCN then MaxCN else d2) = true.
Proof.
  intros P1 P2 Hle.
  assert (N1 : is_nan d1 = false) by (destruct d1 as [s|s| |s m e]; try reflexivity; discriminate).
  assert (N2 : is_nan d2 = false) by (destruct d2 as [s|s| |s m e]; try reflexivity; discriminate).
  assert (NM : is_nan MaxCN = false) by reflexivity.
  unfold F32.gtb.
  destruct (SFltb MaxCN d2) eqn:G2.
  - destruct (SFltb MaxCN d1) eqn:G1; [reflexivity|].
    rewrite (SFltb_negb_leb MaxCN d1 NM N1) in G1.
    destruct (SFleb d1 MaxCN); [reflexivity | discriminate].
  - destruct (SFltb MaxCN d1) eqn:G1; [|exact Hle].
    rewrite (SFltb_leb_trans MaxCN d1 d2 G1 Hle) in G2. discriminate.
Qed.

(** X23. The normalized depth keeps the order of the tile sizes: for a
    positive median, a tile that is not smaller has a depth that is not
    smaller. *)
Theorem tile_depth_monotone (m o1 n1 o2 n2 : Z) :
  0 < m < 2 ^ 63 ->
  0 <= o1 -> o1 <= n1 -> n1 < 2 ^ 63 ->
  0 <= o2 -> o2 <= n2 -> n2 < 2 ^ 63 ->
  n1 - o1 <= n2 - o2 ->
  F32.leb (tile_depth (F64.of_Z m) n1 o1) (tile_depth (F64.of_Z m) n2 o2) = true.
Proof.
  intros Hm Ho1 Hn1 Hb1 Ho2 Hn2 Hb2 Hle.
  assert (W : forall z, 0 <= z < 2 ^ 63 -> wrap64 z = z).
  { intros z Hz. apply wrap64_small. unfold in_int64, min_int64, max_int64.
    apply andb_true_intro. split; apply Z.leb_le; lia. }
  unfold tile_depth, int_sub. rewrite (W (n1 - o1)), (W (n2 - o2)) by lia.
  destruct (f64_of_Z_shape m Hm) as (mm & ee & Em & Bm & Hee & Hdm). rewrite Em.
  assert (Hp : 0 < F64.prec) by reflexivity.
  pose proof (f64_of_Z_nnf (n1 - o1) ltac:(lia)) as A1.
  pose proof (f64_of_Z_nnf (n2 - o2) ltac:(lia)) as A2.
  pose proof (of_Z_mono F64.prec F64.emax Hp (n1 - o1) (n2 - o2) ltac:(lia)) as L.
  pose proof (f64_div_normal_of_Z (n1 - o1) mm ee ltac:(lia) Hee Hdm) as D1.
  pose proof (f64_div_normal_of_Z (n2 - o2) mm ee ltac:(lia) Hee Hdm) as D2.
  pose proof (SFdiv_mono F64.prec F64.emax Hp _ _ mm ee A1 A2 L D1 D2) as Q.
  destruct (SFdiv_nonneg_valid F64.prec F64.emax Hp _ mm ee A1) as [P1 V1].
  destruct (SFdiv_nonneg_valid F64.prec F64.emax Hp _ mm ee A2) as [P2 V2].
  destruct (f64_narrow_mono _ _ P1 V1 P2 V2 Q) as (R1 & R2 & R).
  unfold F32.leb, F64.div. apply clamp_mono; assumption.
Qed.

Lemma tile_depth_monotone_witness :
  0 < 100 < 2 ^ 63 /\ 0 <= 0 /\ 0 <= 150 /\ 150 < 2 ^ 63 /\
  0 <= 200 /\ 200 <= 1000 /\ 1000 < 2 ^ 63 /\ 150 - 0 <= 1000 - 200 /\
  F32.leb (tile_depth (F64.of_Z 100) 150 0) (tile_depth (F64.of_Z 100) 1000 200) = true.
Proof.
  assert (H1 : 0 < 100 < 2 ^ 63) by lia.
  assert (H2 : 0 <= 0) by lia.
  assert (H3 : 0 <= 150) by lia.
  assert (H4 : 150 < 2 ^ 63) by lia.
  assert (H5 : 0 <= 200) by lia.
  assert (H6 : 200 <= 1000) by lia.
  assert (H7 : 1000 < 2 ^ 63) by lia.
  assert (H8 : 150 - 0 <= 1000 - 200) by lia.
  repeat (split; [assumption|]).
  exact (tile_depth_monotone 100 0 150 200 1000 H1 H2 H3 H4 H5 H6 H7 H8).
Defined.
